(** * bulwark: the adaptive throttle of [adaptive.go]

    A shallow embedding of the client-side adaptive throttle and the
    properties its specification states about it.

    - [float64] values are IEEE-754 binary64 numbers, embedded as
      [spec_float] with precision 53 and maximal exponent 1024; every
      arithmetic step of the source is the correctly rounded operation.
    - the wall clock and the random source are inputs of a call;
    - a call returns its outcome, the throttle after the call and the
      trace of the events (lock, unlock, invocation of the work) it made. *)

From Stdlib Require Import ZArith List Bool Lia Reals Lra.
From Stdlib Require Import Floats.SpecFloat.
From stdpp Require Import base list.

Open Scope Z_scope.

(** ** The real numbers that floats stand for *)

(** The power of two of an integer exponent. *)
Definition bpow (e : Z) : R := powerRZ 2 e.

(** The value of the mantissa [m] at the exponent [e]. *)
Definition F2R (m e : Z) : R := (IZR m * bpow e)%R.

(** The value of a finite float; zero for the others. *)
Definition SF2R (x : spec_float) : R :=
  match x with
  | S754_finite s m e => F2R (cond_Zopp s (Z.pos m)) e
  | _ => 0%R
  end.

Definition SFfinite (x : spec_float) : bool :=
  match x with S754_zero _ | S754_finite _ _ _ => true | _ => false end.

(** The position of a real [x] in the unit interval that starts at the
    integer [m], as a [location] tells it. *)
Definition loc_ok (m : Z) (x : R) (l : location) : Prop :=
  match l with
  | loc_Exact => x = IZR m
  | loc_Inexact Lt => (IZR m < x < IZR m + / 2)%R
  | loc_Inexact Eq => x = (IZR m + / 2)%R
  | loc_Inexact Gt => (IZR m + / 2 < x < IZR m + 1)%R
  end.

(** The same for a real [X] and the interval [[m, m+1) * 2^e]. *)
Definition located (m e : Z) (l : location) (X : R) : Prop :=
  loc_ok m (X * bpow (- e)) l.

Section FormatDefinitions.

Variables prec emax : Z.

(** The numbers of the format, without a bound on the exponent. *)
Definition in_format (v : R) : Prop :=
  v = 0%R \/
  exists s m e, canonical_mantissa prec emax m e = true /\
                v = F2R (cond_Zopp s (Z.pos m)) e.

(** [v] is a number of the format nearest to [x]. *)
Definition Rnd (x v : R) : Prop :=
  in_format v /\ forall g, in_format g -> (Rabs (v - x) <= Rabs (g - x))%R.

(** The float [z] stands for the rounded value [v]: [v] itself below
    [2^emax], the infinity of its sign from there on. *)
Definition represents (v : R) (z : spec_float) : Prop :=
  ((Rabs v < bpow emax)%R /\ valid_binary prec emax z = true /\
   SFfinite z = true /\ SF2R z = v) \/
  ((bpow emax <= v)%R /\ z = S754_infinity false) \/
  ((v <= - bpow emax)%R /\ z = S754_infinity true).

(** The float [z] is what rounding the real [x] to nearest gives. *)
Definition rounds (x : R) (z : spec_float) : Prop :=
  exists v, Rnd x v /\ represents v z.

End FormatDefinitions.

(** ** binary64 arithmetic, as Go's [float64] *)

Module F64.

Definition prec : Z := 53.
Definition emax : Z := 1024.

Definition float64 := spec_float.

Definition add : float64 -> float64 -> float64 := SFadd prec emax.
Definition sub : float64 -> float64 -> float64 := SFsub prec emax.
Definition mul : float64 -> float64 -> float64 := SFmul prec emax.
Definition div : float64 -> float64 -> float64 := SFdiv prec emax.

(** [x < y], [x == y] and [x <= y] of Go: false as soon as a NaN is compared. *)
Definition ltb : float64 -> float64 -> bool := SFltb.
Definition eqb : float64 -> float64 -> bool := SFeqb.
Definition leb : float64 -> float64 -> bool := SFleb.

(** The conversion [float64(n)] of an integer: round to nearest, ties to even. *)
Definition of_int (n : Z) : float64 := binary_normalize prec emax n 0 false.

Definition zero : float64 := S754_zero false.
Definition one : float64 := Eval vm_compute in of_int 1.
Definition two : float64 := Eval vm_compute in of_int 2.
Definition NaN : float64 := S754_nan.
Definition Inf : float64 := S754_infinity false.

(** [math.IsNaN], [math.IsInf(x, 1)] and [math.Signbit]. *)
Definition IsNaN (x : float64) : bool :=
  match x with S754_nan => true | _ => false end.
Definition IsPosInf (x : float64) : bool :=
  match x with S754_infinity false => true | _ => false end.
Definition Signbit (x : float64) : bool :=
  match x with
  | S754_zero s | S754_infinity s | S754_finite s _ _ => s
  | S754_nan => false
  end.

(** [math.Max]: its special cases first (an infinity, a NaN, two zeros),
    then the comparison. *)
Definition Max (x y : float64) : float64 :=
  if IsPosInf x || IsPosInf y then Inf
  else if IsNaN x || IsNaN y then NaN
  else if eqb x zero && eqb x y then (if Signbit x then y else x)
  else if ltb y x then x
  else y.

(** The values a Go program can hold: canonical mantissa and exponent. *)
Definition valid (x : float64) : bool := valid_binary prec emax x.

Definition is_finite (x : float64) : bool := SFfinite x.

(** The smallest float above zero. *)
Definition tiny : float64 := S754_finite false 1 (-1074).

(** What the conversion of a counter value is: a finite float whose sign
    bit is clear. *)
Definition count (x : float64) : Prop :=
  valid x = true /\ is_finite x = true /\ Signbit x = false.

(** A float that is not below zero, the infinity included. *)
Definition nonneg (x : float64) : Prop :=
  valid x = true /\ leb zero x = true.

End F64.

Abbreviation float64 := F64.float64.

(** ** Time *)

(** A [time.Time] instant and a [time.Duration], both in nanoseconds. *)
Definition Time := Z.
Definition Duration := Z.

Definition Second : Duration := 1000000000.
Definition Minute : Duration := 60 * Second.

(** [Duration.Seconds]: the whole seconds plus the remaining nanoseconds
    over [1e9], both converted to [float64]. *)
Definition Seconds (d : Duration) : float64 :=
  F64.add (F64.of_int (Z.quot d Second))
          (F64.div (F64.of_int (Z.rem d Second)) (F64.of_int 1000000000)).

(** ** Go values *)

(** The zero value of a Go type ([var zero T], the elements [make] allocates). *)
Class GoZero (A : Type) := go_zero : A.

(** What a Go call does: it returns, or it panics. *)
Inductive outcome (A : Type) : Type :=
| Returns (a : A)
| Panics.
Arguments Returns {A} a.
Arguments Panics {A}.

(** [l[i]] for an [int] index: out of range is a run-time panic, here [None]. *)
Definition index {A} (l : list A) (i : Z) : option A :=
  if i <? 0 then None else l !! Z.to_nat i.

(** [make([]A, n)]: [n] zero values; a negative length panics.  The limit
    the allocator puts on the length is not part of the model. *)
Definition make {A} `{GoZero A} (n : Z) : outcome (list A) :=
  if n <? 0 then Panics else Returns (replicate (Z.to_nat n) go_zero).

(** ** The collaborators of the throttle *)

(** The rolling window counter the throttle is built on.  Its declaration is
    not in [adaptive.go]; the throttle uses it through these three
    operations only.  [get] is a read: it returns the count of the window
    that ends at the given instant.  Counts are integers; the width of the
    counter's integer type is not declared in [adaptive.go], and the
    difference of two counts is taken here without wrap-around. *)
Class WindowedCounter (C : Type) := {
  newWindowedCounter : Time -> Duration -> Z -> C;
  get : C -> Time -> Z;
  add : C -> Time -> Z -> C
}.

(** The error taxonomy: [errors.Is(err, context.Canceled)], the predicates of
    the [faults] package and its [Unavailable] constructor. *)
Class Faults (error : Type) := {
  IsCanceled : error -> bool;
  IsUnauthenticated : error -> bool;
  IsPermissionDenied : error -> bool;
  IsBad : error -> bool;
  IsAborted : error -> bool;
  IsNotFound : error -> bool;
  IsFailedPrecondition : error -> bool;
  IsUnimplemented : error -> bool;
  Unavailable : Duration -> error
}.

(** ** The rolling window counter of the specification *)

Module SpecCounter.

(** Modelled from the spec: the rolling window counter (section 4.1), whose
    source is not in [adaptive.go].  [N] slots of a stored timestamp and a
    count; the timestamp of a slot is the start of the bucket it holds. *)
Record slot := { slotTimestamp : Time; count : Z }.

Record counter := { bucketWidth : Duration; slots : list slot }.

Definition window (c : counter) : Duration :=
  bucketWidth c * Z.of_nat (length (slots c)).

Definition bucketStart (c : counter) (t : Time) : Time :=
  (t / bucketWidth c) * bucketWidth c.

Definition slotIndex (c : counter) (t : Time) : nat :=
  Z.to_nat ((t / bucketWidth c) mod Z.of_nat (length (slots c))).

(** Modelled from the spec: a counter of [n] empty slots. *)
Definition new (now : Time) (width : Duration) (n : Z) : counter :=
  {| bucketWidth := width;
     slots := replicate (Z.to_nat n) {| slotTimestamp := 0; count := 0 |} |}.

(** Modelled from the spec: [add(t, n)] resets the slot of [t]'s bucket
    when it holds another bucket, then adds [n] to its count. *)
Definition add (c : counter) (t : Time) (n : Z) : counter :=
  let i := slotIndex c t in
  match slots c !! i with
  | None => c
  | Some s =>
      let s' := if slotTimestamp s =? bucketStart c t then s
                else {| slotTimestamp := bucketStart c t; count := 0 |} in
      {| bucketWidth := bucketWidth c;
         slots := <[ i := {| slotTimestamp := slotTimestamp s';
                             count := count s' + n |} ]> (slots c) |}
  end.

(** Modelled from the spec: [get(t)] sums the slots whose timestamp lies
    within the window before [t]; a stale slot counts for zero and no slot
    is changed. *)
Definition fresh (c : counter) (t : Time) (s : slot) : bool :=
  (t - slotTimestamp s <=? window c) && (slotTimestamp s <=? t).

Definition get (c : counter) (t : Time) : Z :=
  foldr (fun s acc => (if fresh c t s then count s else 0) + acc) 0 (slots c).

#[global] Instance counter_zero : GoZero counter :=
  {| bucketWidth := 0; slots := [] |}.

#[global] Instance counter_ops : WindowedCounter counter :=
  Build_WindowedCounter counter new get add.

End SpecCounter.

(** ** The adaptive throttle *)

Section Throttle.

Context {C : Type} `{WindowedCounter C} `{GoZero C}.
Context {error : Type} `{Faults error}.

(** The struct [AdaptiveThrottle].  Its mutex is not a field here: taking
    and releasing it are events of a call's trace. *)
Record AdaptiveThrottle := {
  k : float64;
  minPerWindow : float64;
  isErrorAccepted : error -> bool;
  requests : list C;
  accepts : list C
}.

(** The struct [adaptiveThrottleOptions]; its fields carry the prefix
    [opt_] to keep them apart from the throttle's. *)
Record adaptiveThrottleOptions := {
  opt_k : float64;
  opt_minRate : float64;
  opt_d : Duration;
  opt_isErrorAccepted : error -> bool
}.

(** An [AdaptiveThrottleOption] wraps one function that updates the
    options in place: here the function from the options to the updated
    options. *)
Definition AdaptiveThrottleOption : Type :=
  adaptiveThrottleOptions -> adaptiveThrottleOptions.

Definition WithAdaptiveThrottleRatio (x : float64) : AdaptiveThrottleOption :=
  fun opts =>
    {| opt_k := x; opt_minRate := opt_minRate opts; opt_d := opt_d opts;
       opt_isErrorAccepted := opt_isErrorAccepted opts |}.

Definition WithAdaptiveThrottleMinimumRate (x : float64) : AdaptiveThrottleOption :=
  fun opts =>
    {| opt_k := opt_k opts; opt_minRate := x; opt_d := opt_d opts;
       opt_isErrorAccepted := opt_isErrorAccepted opts |}.

Definition WithAdaptiveThrottleWindow (d : Duration) : AdaptiveThrottleOption :=
  fun opts =>
    {| opt_k := opt_k opts; opt_minRate := opt_minRate opts; opt_d := d;
       opt_isErrorAccepted := opt_isErrorAccepted opts |}.

Definition WithAcceptedErrors (fn : error -> bool) : AdaptiveThrottleOption :=
  fun opts =>
    {| opt_k := opt_k opts; opt_minRate := opt_minRate opts; opt_d := opt_d opts;
       opt_isErrorAccepted := fn |}.

(** [DefaultAcceptedErrors]: the disjunction of the eight classifications,
    in the order of the source. *)
Definition DefaultAcceptedErrors (err : error) : bool :=
  IsCanceled err ||
  IsUnauthenticated err ||
  IsPermissionDenied err ||
  IsBad err ||
  IsAborted err ||
  IsNotFound err ||
  IsFailedPrecondition err ||
  IsUnimplemented err.

Definition DefaultClientSideRejectionError : error := Unavailable Second.

(** The options [NewAdaptiveThrottle] starts from. *)
Definition defaultOptions : adaptiveThrottleOptions :=
  {| opt_d := Minute;
     opt_k := F64.two;
     opt_minRate := F64.one;
     opt_isErrorAccepted := DefaultAcceptedErrors |}.

(** The loop [for i := range requests] of [NewAdaptiveThrottle]: both
    slices receive a new counter at every index of [requests]. *)
Definition fillCounters (now : Time) (d : Duration) (rs acs : list C)
  : list C * list C :=
  foldl (fun '(rs, acs) i =>
           (<[ i := newWindowedCounter now (Z.quot d 10) 10 ]> rs,
            <[ i := newWindowedCounter now (Z.quot d 10) 10 ]> acs))
        (rs, acs) (seq 0 (length rs)).

(** [NewAdaptiveThrottle(priorities, options...)], called at [now]. *)
Definition NewAdaptiveThrottle (priorities : Z)
    (options : list AdaptiveThrottleOption) (now : Time)
  : outcome AdaptiveThrottle :=
  let opts := foldl (fun opts option => option opts) defaultOptions options in
  match make priorities with
  | Panics => Panics
  | Returns rs0 =>
      match make priorities with
      | Panics => Panics
      | Returns acs0 =>
          let '(rs, acs) := fillCounters now (opt_d opts) rs0 acs0 in
          Returns {| k := opt_k opts;
                     requests := rs;
                     accepts := acs;
                     minPerWindow := F64.mul (opt_minRate opts) (Seconds (opt_d opts));
                     isErrorAccepted := opt_isErrorAccepted opts |}
      end
  end.

(** The loop over the higher priorities: [n] iterations from index [i],
    each adding the non-accepted requests of priority [i], as a
    [float64], to [acc]. *)
Fixpoint cascade (th : AdaptiveThrottle) (now : Time) (i : Z) (n : nat)
    (acc : float64) : option float64 :=
  match n with
  | O => Some acc
  | S n' =>
      match index (requests th) i, index (accepts th) i with
      | Some rc, Some ac =>
          cascade th now (i + 1) n'
                  (F64.add acc (F64.of_int (get rc now - get ac now)))
      | _, _ => None
      end
  end.

(** The same sum, as the specification words it: to the count of priority
    [p] are added, for every priority before [p] in order, its requests
    minus its accepts. *)
Definition requestsWithHigherPriorities (th : AdaptiveThrottle) (p : Z)
    (now : Time) (rc : C) : float64 :=
  foldl (fun acc '(rc, ac) => F64.add acc (F64.of_int (get rc now - get ac now)))
        (F64.of_int (get rc now))
        (zip (take (Z.to_nat p) (requests th)) (take (Z.to_nat p) (accepts th))).

(** The first critical section: the [requests] and [accepts] the formula
    uses for priority [p]; [None] when an index is out of range. *)
Definition readCounters (th : AdaptiveThrottle) (p : Z) (now : Time)
  : option (float64 * float64) :=
  match index (requests th) p with
  | None => None
  | Some rc =>
      match index (accepts th) p with
      | None => None
      | Some ac =>
          match cascade th now 0 (Z.to_nat p) (F64.of_int (get rc now)) with
          | None => None
          | Some rq => Some (rq, F64.of_int (get ac now))
          end
      end
  end.

(** The formula of the source. *)
Definition rejectionProbability (kk mpw rq ac : float64) : float64 :=
  F64.Max F64.zero (F64.div (F64.sub rq (F64.mul kk ac)) (F64.add rq mpw)).

(** [requests[p].add(now, 1)] and [accepts[p].add(now, 1)]. *)
Definition recordRequest (th : AdaptiveThrottle) (p : Z) (now : Time)
  : option AdaptiveThrottle :=
  match index (requests th) p with
  | None => None
  | Some rc =>
      Some {| k := k th; minPerWindow := minPerWindow th;
              isErrorAccepted := isErrorAccepted th;
              requests := <[ Z.to_nat p := add rc now 1 ]> (requests th);
              accepts := accepts th |}
  end.

Definition recordAccept (th : AdaptiveThrottle) (p : Z) (now : Time)
  : option AdaptiveThrottle :=
  match index (accepts th) p with
  | None => None
  | Some ac =>
      Some {| k := k th; minPerWindow := minPerWindow th;
              isErrorAccepted := isErrorAccepted th;
              requests := requests th;
              accepts := <[ Z.to_nat p := add ac now 1 ]> (accepts th) |}
  end.

(** What a call does that can be observed from outside. *)
Inductive event := Lock | Unlock | Work.

(** The result of a call: what it returned (or that it panicked), the
    throttle it leaves and its events in order. *)
Record result (T : Type) := {
  returned : outcome (T * option error);
  after : AdaptiveThrottle;
  trace : list event
}.
Arguments returned {T} r.
Arguments after {T} r.
Arguments trace {T} r.

(** [WithAdaptiveThrottle(at, p, f)].  [now] is the clock when the call
    starts, [u] the value [rand.Float64()] gives, [now'] the clock after
    [f] has returned.  The work [f] returns its value and its error
    ([None] for [nil]). *)
Definition WithAdaptiveThrottle {T : Type} `{GoZero T}
    (th : AdaptiveThrottle) (p : Z) (f : unit -> T * option error)
    (now : Time) (u : float64) (now' : Time) : result T :=
  match readCounters th p now with
  | None => {| returned := Panics; after := th; trace := [Lock] |}
  | Some (rq, ac) =>
      let rp := rejectionProbability (k th) (minPerWindow th) rq ac in
      if F64.ltb u rp then
        match recordRequest th p now with
        | None => {| returned := Panics; after := th;
                     trace := [Lock; Unlock; Lock] |}
        | Some th1 =>
            {| returned := Returns (go_zero, Some DefaultClientSideRejectionError);
               after := th1;
               trace := [Lock; Unlock; Lock; Unlock] |}
        end
      else
        let '(t, err) := f tt in
        match recordRequest th p now' with
        | None => {| returned := Panics; after := th;
                     trace := [Lock; Unlock; Work; Lock] |}
        | Some th1 =>
            let accepted :=
              match err with
              | None => true
              | Some e => isErrorAccepted th e
              end in
            if accepted then
              match recordAccept th1 p now' with
              | None => {| returned := Panics; after := th1;
                           trace := [Lock; Unlock; Work; Lock] |}
              | Some th2 =>
                  {| returned := Returns (t, err); after := th2;
                     trace := [Lock; Unlock; Work; Lock; Unlock] |}
              end
            else
              {| returned := Returns (t, err); after := th1;
                 trace := [Lock; Unlock; Work; Lock; Unlock] |}
        end
  end.

End Throttle.

Arguments AdaptiveThrottle C error : clear implicits.
Arguments result C error T : clear implicits.
Arguments returned {C error T} r.
Arguments after {C error T} r.
Arguments trace {C error T} r.

(** Integer inputs of the formula for which no step before the division
    rounds: ratio, floor and counts are integers, and neither
    [requests + minPerWindow] nor [k * accepts] goes beyond [2^53]. *)
Definition exact_integers (K M R A : Z) : Prop :=
  0 <= K <= 2 ^ 53 /\ 0 < M /\ 0 <= R /\ 0 <= A <= 2 ^ 53 /\
  R + M <= 2 ^ 53 /\ K * A <= 2 ^ 53.

(** ** A small error taxonomy to run the throttle on *)

Module ExampleFaults.

(** The classes of the default predicate, the rejection of the throttle
    itself and one backend failure that no predicate accepts. *)
Inductive fault :=
| Canceled | Unauthenticated | PermissionDenied | Bad | Aborted | NotFound
| FailedPrecondition | Unimplemented
| UnavailableAfter (d : Duration)
| Internal.

#[global] Instance fault_ops : Faults fault := {|
  IsCanceled e := match e with Canceled => true | _ => false end;
  IsUnauthenticated e := match e with Unauthenticated => true | _ => false end;
  IsPermissionDenied e := match e with PermissionDenied => true | _ => false end;
  IsBad e := match e with Bad => true | _ => false end;
  IsAborted e := match e with Aborted => true | _ => false end;
  IsNotFound e := match e with NotFound => true | _ => false end;
  IsFailedPrecondition e := match e with FailedPrecondition => true | _ => false end;
  IsUnimplemented e := match e with Unimplemented => true | _ => false end;
  Unavailable d := UnavailableAfter d
|}.

#[global] Instance Z_zero : GoZero Z := 0.

(** A throttle of two priorities with the default options, built at
    instant [0] on the counter of the specification. *)
Definition fresh2 : outcome (AdaptiveThrottle SpecCounter.counter fault) :=
  NewAdaptiveThrottle 2 [] 0.

(** The same throttle after a burst: a hundred requests of priority 0 in
    the bucket of instant [0], none of them accepted. *)
Definition overloaded2 : AdaptiveThrottle SpecCounter.counter fault :=
  let c := newWindowedCounter 0 (Z.quot Minute 10) 10 in
  {| k := F64.two;
     minPerWindow := F64.of_int 60;
     isErrorAccepted := DefaultAcceptedErrors;
     requests := [add c 0 100; c];
     accepts := [c; c] |}.

(** The throttle of the default options after a hundred requests of
    priority 0 that were all accepted. *)
Definition healthy2 : AdaptiveThrottle SpecCounter.counter fault :=
  let c := newWindowedCounter 0 (Z.quot Minute 10) 10 in
  {| k := F64.two;
     minPerWindow := F64.of_int 60;
     isErrorAccepted := DefaultAcceptedErrors;
     requests := [add c 0 100; c];
     accepts := [add c 0 100; c] |}.

(** A throttle of two priorities built with a minimum rate of zero; the
    same after a hundred accepted requests of priority 0, and after a
    hundred failed ones. *)
Definition unfloored2 : outcome (AdaptiveThrottle SpecCounter.counter fault) :=
  NewAdaptiveThrottle 2 [WithAdaptiveThrottleMinimumRate F64.zero] 0.

Definition unfloored2_healthy : AdaptiveThrottle SpecCounter.counter fault :=
  let c := newWindowedCounter 0 (Z.quot Minute 10) 10 in
  {| k := F64.two;
     minPerWindow := F64.mul F64.zero (Seconds Minute);
     isErrorAccepted := DefaultAcceptedErrors;
     requests := [add c 0 100; c];
     accepts := [add c 0 100; c] |}.

Definition unfloored2_overloaded : AdaptiveThrottle SpecCounter.counter fault :=
  let c := newWindowedCounter 0 (Z.quot Minute 10) 10 in
  {| k := F64.two;
     minPerWindow := F64.mul F64.zero (Seconds Minute);
     isErrorAccepted := DefaultAcceptedErrors;
     requests := [add c 0 100; c];
     accepts := [c; c] |}.

(** A work that succeeds and a work that fails for a reason no predicate
    accepts. *)
Definition work_ok : unit -> Z * option fault := fun _ => (7, None).
Definition work_fails : unit -> Z * option fault := fun _ => (0, Some Internal).

End ExampleFaults.

(** ** Options as a caller builds them, histories of calls, the mutex *)

Section Histories.

Context {C : Type} `{WindowedCounter C} `{GoZero C}.
Context {error : Type} `{Faults error}.

(** The field of [AdaptiveThrottleOption] is not exported: outside the
    package an option is what one of the four constructors returned.  (The
    zero value of the struct, whose function is nil, has no counterpart
    here.) *)
Inductive optionSource :=
| Ratio (x : float64)
| MinimumRate (x : float64)
| Window (d : Duration)
| AcceptedErrors (fn : error -> bool).

Definition optionOf (o : optionSource) : AdaptiveThrottleOption :=
  match o with
  | Ratio x => WithAdaptiveThrottleRatio x
  | MinimumRate x => WithAdaptiveThrottleMinimumRate x
  | Window d => WithAdaptiveThrottleWindow d
  | AcceptedErrors fn => WithAcceptedErrors fn
  end.

(** The argument of the last option of each kind in a list of options. *)
Definition lastRatio (os : list optionSource) : option float64 :=
  last (omap (fun o => match o with Ratio x => Some x | _ => None end) os).

Definition lastMinimumRate (os : list optionSource) : option float64 :=
  last (omap (fun o => match o with MinimumRate x => Some x | _ => None end) os).

Definition lastWindow (os : list optionSource) : option Duration :=
  last (omap (fun o => match o with Window d => Some d | _ => None end) os).

Definition lastAcceptedErrors (os : list optionSource) : option (error -> bool) :=
  last (omap (fun o => match o with AcceptedErrors fn => Some fn | _ => None end) os).

(** One call of [WithAdaptiveThrottle] with all that decides it: the
    priority, the work, the clock at the start, the random draw and the
    clock after the work. *)
Record call (T : Type) := {
  priority : Z;
  work : unit -> T * option error;
  started : Time;
  draw : float64;
  finished : Time
}.
Arguments priority {T} c.
Arguments work {T} c.
Arguments started {T} c.
Arguments draw {T} c.
Arguments finished {T} c.

Definition runCall {T : Type} `{GoZero T} (th : AdaptiveThrottle C error)
    (c : call T) : result C error T :=
  WithAdaptiveThrottle th (priority c) (work c) (started c) (draw c) (finished c).

(** The throttle after a sequence of calls, one after the other.  A call
    that panics leaves the mutex held, and no later call gets past its
    first [Lock]: the sequence has no throttle to show then. *)
Fixpoint runCalls {T : Type} `{GoZero T} (th : AdaptiveThrottle C error)
    (cs : list (call T)) : option (AdaptiveThrottle C error) :=
  match cs with
  | [] => Some th
  | c :: cs' =>
      match returned (runCall th c) with
      | Panics => None
      | Returns _ => runCalls (after (runCall th c)) cs'
      end
  end.

(** The non-accepted requests of the priorities before [p], as integers:
    what the loop of [WithAdaptiveThrottle] adds to the requests. *)
Definition failuresBefore (th : AdaptiveThrottle C error) (p : Z) (now : Time) : Z :=
  foldl (fun acc '(rc, ac) => acc + (get rc now - get ac now)) 0
        (zip (take (Z.to_nat p) (requests th)) (take (Z.to_nat p) (accepts th))).

End Histories.

Arguments optionSource error : clear implicits.
Arguments call error T : clear implicits.
Arguments priority {error T} c.
Arguments work {error T} c.
Arguments started {error T} c.
Arguments draw {error T} c.
Arguments finished {error T} c.

(** [sync.Mutex] along the events of a call, from the state [held]: the
    state at the end, or [None] when the trace locks a mutex that is held
    (the goroutine would block on itself) or unlocks one that is not (a
    fatal error of the runtime). *)
Fixpoint mutexAfter (held : bool) (tr : list event) : option bool :=
  match tr with
  | [] => Some held
  | Lock :: tr' => if held then None else mutexAfter true tr'
  | Unlock :: tr' => if held then mutexAfter false tr' else None
  | Work :: tr' => mutexAfter held tr'
  end.

(** Whether every run of the work happens while the mutex is free. *)
Fixpoint worksUnlocked (held : bool) (tr : list event) : bool :=
  match tr with
  | [] => true
  | Lock :: tr' => worksUnlocked true tr'
  | Unlock :: tr' => worksUnlocked false tr'
  | Work :: tr' => negb held && worksUnlocked held tr'
  end.

(** How many times the work runs in a trace. *)
Definition worksRun (tr : list event) : nat :=
  length (List.filter (fun e => match e with Work => true | _ => false end) tr).

Definition isPanic {A} (o : outcome A) : bool :=
  match o with Panics => true | Returns _ => false end.

(** ** Calls to run the throttle on *)

Module ExampleHistory.

Import ExampleFaults.

(** Three calls in a row on a throttle of two priorities: a success of
    priority 0, then a failure and a success of priority 1. *)
Definition threeCalls : list (call fault Z) :=
  [ {| priority := 0; work := work_ok; started := 1;
       draw := F64.zero; finished := 2 |};
    {| priority := 1; work := work_fails; started := 3;
       draw := F64.zero; finished := 4 |};
    {| priority := 1; work := work_ok; started := 5;
       draw := F64.zero; finished := 6 |} ].

(** The overloaded throttle when priority 1 has traffic of its own: fifty
    requests, twenty of them accepted. *)
Definition overloaded2_busy : AdaptiveThrottle SpecCounter.counter fault :=
  let c := newWindowedCounter 0 (Z.quot Minute 10) 10 in
  {| k := F64.two;
     minPerWindow := F64.of_int 60;
     isErrorAccepted := DefaultAcceptedErrors;
     requests := [add c 0 100; add c 0 50];
     accepts := [c; add c 0 20] |}.

End ExampleHistory.

(** * The arithmetic of binary64 *)

(** ** Powers of two and digits *)

Lemma bpow_gt_0 e : (0 < bpow e)%R.
Proof. apply powerRZ_lt. lra. Qed.

Lemma bpow_add a b : bpow (a + b) = (bpow a * bpow b)%R.
Proof. apply powerRZ_add. lra. Qed.

Lemma bpow_0 : bpow 0 = 1%R.
Proof. reflexivity. Qed.

Lemma bpow_1 : bpow 1 = 2%R.
Proof. unfold bpow. simpl. lra. Qed.

Lemma bpow_IZR e : 0 <= e -> bpow e = IZR (2 ^ e).
Proof.
  intros He. pattern e. apply natlike_ind; [reflexivity| |assumption].
  intros x Hx IH. unfold Z.succ. rewrite bpow_add, IH, bpow_1.
  rewrite Z.pow_add_r by lia. rewrite mult_IZR. simpl. reflexivity.
Qed.

Lemma bpow_opp e : bpow (- e) = (/ bpow e)%R.
Proof.
  apply Rmult_eq_reg_l with (bpow e); [|pose proof (bpow_gt_0 e); lra].
  rewrite <- bpow_add, Z.add_opp_diag_r, bpow_0.
  rewrite Rinv_r; [reflexivity|pose proof (bpow_gt_0 e); lra].
Qed.

Lemma bpow_le a b : a <= b -> (bpow a <= bpow b)%R.
Proof.
  intros Hab. replace b with (a + (b - a)) by lia.
  rewrite bpow_add, (bpow_IZR (b - a)) by lia.
  assert (1 <= 2 ^ (b - a)) by (apply Z.lt_pred_le, Z.pow_pos_nonneg; lia).
  apply IZR_le in H. pose proof (bpow_gt_0 a). nra.
Qed.

Lemma bpow_lt a b : a < b -> (bpow a < bpow b)%R.
Proof.
  intros Hab. replace b with (a + (b - a)) by lia.
  rewrite bpow_add, (bpow_IZR (b - a)) by lia.
  assert (2 <= 2 ^ (b - a)).
  { change 2 with (2 ^ 1) at 1. apply Z.pow_le_mono_r; lia. }
  apply IZR_le in H. pose proof (bpow_gt_0 a). nra.
Qed.

Lemma bpow_lt_inv a b : (bpow a < bpow b)%R -> a < b.
Proof.
  intros H. destruct (Z_lt_le_dec a b) as [|Hle]; [assumption|].
  apply bpow_le in Hle. lra.
Qed.

Lemma F2R_shift m e e' : e' <= e -> F2R m e = F2R (m * 2 ^ (e - e')) e'.
Proof.
  intros He. unfold F2R. rewrite mult_IZR, <- bpow_IZR by lia.
  rewrite Rmult_assoc, <- bpow_add. f_equal. f_equal. lia.
Qed.

Lemma F2R_le m1 m2 e : (F2R m1 e <= F2R m2 e)%R <-> m1 <= m2.
Proof.
  unfold F2R. pose proof (bpow_gt_0 e). split; intros Hle.
  - apply le_IZR. nra.
  - apply IZR_le in Hle. nra.
Qed.

Lemma F2R_lt m1 m2 e : (F2R m1 e < F2R m2 e)%R <-> m1 < m2.
Proof.
  unfold F2R. pose proof (bpow_gt_0 e). split; intros Hlt.
  - apply lt_IZR. nra.
  - apply IZR_lt in Hlt. nra.
Qed.

Lemma F2R_eq m1 m2 e : F2R m1 e = F2R m2 e <-> m1 = m2.
Proof.
  unfold F2R. pose proof (bpow_gt_0 e). split; intros Heq.
  - apply eq_IZR. nra.
  - now subst.
Qed.

Lemma F2R_0 e : F2R 0 e = 0%R.
Proof. unfold F2R. lra. Qed.

Lemma F2R_opp m e : F2R (- m) e = (- F2R m e)%R.
Proof. unfold F2R. rewrite opp_IZR. lra. Qed.

Lemma F2R_bpow e : F2R 1 e = bpow e.
Proof. unfold F2R. lra. Qed.

(** digits *)

Lemma digits2_pos_size p : digits2_pos p = Pos.size p.
Proof. induction p; simpl; congruence. Qed.

Lemma digits2_pos_bounds p :
  2 ^ (Z.pos (digits2_pos p) - 1) <= Z.pos p < 2 ^ Z.pos (digits2_pos p).
Proof.
  rewrite digits2_pos_size. split.
  - pose proof (Pos.size_le p) as Hle.
    apply Pos2Z.pos_le_pos in Hle. rewrite Pos2Z.inj_pow in Hle.
    assert (2 ^ Z.pos (Pos.size p) = 2 * 2 ^ (Z.pos (Pos.size p) - 1)) as E.
    { rewrite <- Z.pow_succ_r by lia. f_equal. lia. }
    lia.
  - pose proof (Pos.size_gt p) as Hgt.
    apply Pos2Z.pos_lt_pos in Hgt. now rewrite Pos2Z.inj_pow in Hgt.
Qed.

Lemma Zdigits2_bounds m : 0 < m ->
  2 ^ (Zdigits2 m - 1) <= m < 2 ^ Zdigits2 m.
Proof. destruct m; try lia. intros _. apply digits2_pos_bounds. Qed.

Lemma Zdigits2_pos m : 0 < m -> 0 < Zdigits2 m.
Proof. destruct m; simpl; lia. Qed.

Lemma Zdigits2_unique m d : 0 < m -> 2 ^ (d - 1) <= m < 2 ^ d -> Zdigits2 m = d.
Proof.
  intros Hm [Hlo Hhi]. pose proof (Zdigits2_bounds m Hm) as [Hlo' Hhi'].
  pose proof (Zdigits2_pos m Hm).
  assert (0 < d).
  { destruct (Z.lt_trichotomy d 0) as [Hd|[->|Hd]]; [|simpl in Hhi; lia|assumption].
    rewrite Z.pow_neg_r in Hhi by lia. lia. }
  destruct (Z.lt_trichotomy (Zdigits2 m) d) as [Hlt|[Heq|Hgt]]; [|assumption|].
  - assert (2 ^ Zdigits2 m <= 2 ^ (d - 1)) by (apply Z.pow_le_mono_r; lia). lia.
  - assert (2 ^ d <= 2 ^ (Zdigits2 m - 1)) by (apply Z.pow_le_mono_r; lia). lia.
Qed.

(** ** Canonical floats and their order *)

Section Format.

Variables prec emax : Z.
Hypothesis Hprec : 0 < prec.
Hypothesis Hemax : prec < emax.

Abbreviation emin := (emin prec emax).
Abbreviation fexp := (fexp prec emax).
Abbreviation canonical_mantissa := (canonical_mantissa prec emax).
Abbreviation bounded := (bounded prec emax).
Abbreviation valid_binary := (valid_binary prec emax).

Lemma fexp_mono a b : a <= b -> fexp a <= fexp b.
Proof. unfold SpecFloat.fexp. lia. Qed.

Lemma fexp_ge_emin a : emin <= fexp a.
Proof. unfold SpecFloat.fexp. lia. Qed.

Lemma canonical_fexp m e :
  canonical_mantissa m e = true <-> fexp (Z.pos (digits2_pos m) + e) = e.
Proof. unfold SpecFloat.canonical_mantissa. apply Z.eqb_eq. Qed.

Lemma canonical_digits m e :
  canonical_mantissa m e = true ->
  Z.pos (digits2_pos m) <= prec /\ emin <= e /\
  (e = emin \/ Z.pos (digits2_pos m) = prec).
Proof. rewrite canonical_fexp. unfold SpecFloat.fexp. lia. Qed.

Lemma F2R_digits_bounds m e :
  (bpow (Z.pos (digits2_pos m) + e - 1) <= F2R (Z.pos m) e
   < bpow (Z.pos (digits2_pos m) + e))%R.
Proof.
  pose proof (digits2_pos_bounds m) as [Hlo Hhi].
  assert (0 < Z.pos (digits2_pos m)) as Hd by lia.
  set (d := Z.pos (digits2_pos m)) in *.
  replace (d + e - 1) with ((d - 1) + e) by lia.
  rewrite !bpow_add, (bpow_IZR (d - 1)), (bpow_IZR d) by lia. unfold F2R.
  apply IZR_le in Hlo. apply IZR_lt in Hhi. pose proof (bpow_gt_0 e). nra.
Qed.

Lemma F2R_pos_gt_0 m e : (0 < F2R (Z.pos m) e)%R.
Proof.
  unfold F2R. pose proof (bpow_gt_0 e).
  assert (0 < IZR (Z.pos m))%R by (apply IZR_lt; lia). nra.
Qed.

Lemma canonical_lt m1 e1 m2 e2 :
  canonical_mantissa m1 e1 = true -> canonical_mantissa m2 e2 = true ->
  e1 < e2 -> (F2R (Z.pos m1) e1 < F2R (Z.pos m2) e2)%R.
Proof.
  rewrite !canonical_fexp. intros H1 H2 Hlt.
  assert (Z.pos (digits2_pos m1) + e1 < Z.pos (digits2_pos m2) + e2) as Hd.
  { destruct (Z_lt_le_dec (Z.pos (digits2_pos m1) + e1) (Z.pos (digits2_pos m2) + e2));
      [assumption|]. pose proof (fexp_mono _ _ l). lia. }
  pose proof (F2R_digits_bounds m1 e1) as [_ Hhi].
  pose proof (F2R_digits_bounds m2 e2) as [Hlo _].
  assert (bpow (Z.pos (digits2_pos m1) + e1)
          <= bpow (Z.pos (digits2_pos m2) + e2 - 1))%R by (apply bpow_le; lia).
  lra.
Qed.

Lemma canonical_compare m1 e1 m2 e2 :
  canonical_mantissa m1 e1 = true -> canonical_mantissa m2 e2 = true ->
  match (match Z.compare e1 e2 with
         | Lt => Lt | Gt => Gt | Eq => Pos.compare_cont Eq m1 m2 end) with
  | Lt => (F2R (Z.pos m1) e1 < F2R (Z.pos m2) e2)%R
  | Eq => m1 = m2 /\ e1 = e2
  | Gt => (F2R (Z.pos m2) e2 < F2R (Z.pos m1) e1)%R
  end.
Proof.
  intros H1 H2. destruct (Z.compare_spec e1 e2) as [->|Hlt|Hgt].
  - change (Pos.compare_cont Eq m1 m2) with (Pos.compare m1 m2).
    destruct (Pos.compare_spec m1 m2) as [->|Hlt|Hgt].
    + auto.
    + apply F2R_lt. lia.
    + apply F2R_lt. lia.
  - now apply canonical_lt.
  - now apply canonical_lt.
Qed.

Lemma valid_finite_canonical s m e :
  valid_binary (S754_finite s m e) = true ->
  canonical_mantissa m e = true /\ e <= emax - prec.
Proof.
  simpl. unfold SpecFloat.bounded. rewrite andb_true_iff, Z.leb_le. auto.
Qed.

Lemma cond_Zopp_F2R s m e :
  F2R (cond_Zopp s m) e = (if s then - F2R m e else F2R m e)%R.
Proof. destruct s; simpl; [apply F2R_opp|reflexivity]. Qed.

(** [SFcompare] on valid finite numbers is the comparison of their values. *)
Lemma SFcompare_finite x y :
  valid_binary x = true -> valid_binary y = true ->
  SFfinite x = true -> SFfinite y = true ->
  match SFcompare x y with
  | Some Lt => (SF2R x < SF2R y)%R
  | Some Eq => SF2R x = SF2R y
  | Some Gt => (SF2R y < SF2R x)%R
  | None => False
  end.
Proof.
  intros Vx Vy Fx Fy.
  destruct x as [sx|sx| |sx mx ex], y as [sy|sy| |sy my ey]; try discriminate;
    simpl SF2R.
  - simpl. reflexivity.
  - simpl. rewrite cond_Zopp_F2R. pose proof (F2R_pos_gt_0 my ey).
    destruct sy; simpl; lra.
  - simpl. rewrite cond_Zopp_F2R. pose proof (F2R_pos_gt_0 mx ex).
    destruct sx; simpl; lra.
  - apply valid_finite_canonical in Vx as [Cx _], Vy as [Cy _].
    pose proof (canonical_compare mx ex my ey Cx Cy) as Hxy.
    pose proof (F2R_pos_gt_0 mx ex). pose proof (F2R_pos_gt_0 my ey).
    rewrite !cond_Zopp_F2R. unfold SFcompare.
    destruct sx, sy; try lra;
      (destruct (ex ?= ey); simpl in *;
       [destruct (Pos.compare_cont Eq mx my); simpl in *| |]; try lra;
       destruct Hxy as [-> ->]; reflexivity).
Qed.

End Format.

(** ** Shifting a mantissa to the right *)

Lemma IZR_xO p : IZR (Z.pos p~0) = (2 * IZR (Z.pos p))%R.
Proof. rewrite Pos2Z.inj_xO, mult_IZR. reflexivity. Qed.

Lemma IZR_xI p : IZR (Z.pos p~1) = (2 * IZR (Z.pos p) + 1)%R.
Proof. rewrite Pos2Z.inj_xI, plus_IZR, mult_IZR. reflexivity. Qed.

Lemma loc_of_shr_record_of_loc m l :
  loc_of_shr_record (shr_record_of_loc m l) = l.
Proof. destruct l as [|[]]; reflexivity. Qed.

Lemma shr_m_shr_record_of_loc m l : shr_m (shr_record_of_loc m l) = m.
Proof. destruct l as [|[]]; reflexivity. Qed.

Lemma shr_1_ok mrs (x : R) :
  0 <= shr_m mrs ->
  loc_ok (shr_m mrs) x (loc_of_shr_record mrs) ->
  loc_ok (shr_m (shr_1 mrs)) (x / 2) (loc_of_shr_record (shr_1 mrs)) /\
  shr_m (shr_1 mrs) = shr_m mrs / 2.
Proof.
  destruct mrs as [m r s]. simpl shr_m. intros Hm Hx.
  destruct m as [|p|p]; [| |lia].
  - split; [|reflexivity].
    destruct r, s; simpl in *; lra.
  - destruct p as [p|p|].
    + split.
      * unfold loc_ok in Hx. simpl loc_of_shr_record in Hx.
        destruct r, s; simpl shr_1; simpl loc_of_shr_record; simpl shr_m;
          unfold loc_ok; rewrite IZR_xI in Hx; lra.
      * simpl shr_m. apply Z.div_unique with 1; lia.
    + split.
      * unfold loc_ok in Hx. simpl loc_of_shr_record in Hx.
        destruct r, s; simpl shr_1; simpl loc_of_shr_record; simpl shr_m;
          unfold loc_ok; rewrite IZR_xO in Hx; lra.
      * simpl shr_m. apply Z.div_unique with 0; lia.
    + split; [|reflexivity].
      unfold loc_ok in Hx. simpl loc_of_shr_record in Hx.
      destruct r, s; simpl shr_1; simpl loc_of_shr_record; simpl shr_m;
        unfold loc_ok; lra.
Qed.

Lemma iter_pos_nat {A} (f : A -> A) p : forall x,
  SpecFloat.iter_pos f p x = Nat.iter (Pos.to_nat p) f x.
Proof.
  induction p as [p IH|p IH|]; intros x.
  - change (SpecFloat.iter_pos f p~1 x)
      with (SpecFloat.iter_pos f p (SpecFloat.iter_pos f p (f x))).
    rewrite !IH, Pos2Nat.inj_xI.
    replace (S (2 * Pos.to_nat p)) with (Pos.to_nat p + (Pos.to_nat p + 1))%nat by lia.
    rewrite !Nat.iter_add. reflexivity.
  - change (SpecFloat.iter_pos f p~0 x)
      with (SpecFloat.iter_pos f p (SpecFloat.iter_pos f p x)).
    rewrite !IH, Pos2Nat.inj_xO.
    replace (2 * Pos.to_nat p)%nat with (Pos.to_nat p + Pos.to_nat p)%nat by lia.
    rewrite Nat.iter_add. reflexivity.
  - reflexivity.
Qed.

Lemma located_step m e l' X :
  loc_ok m (X * bpow (- e) / 2) l' -> located m (e + 1) l' X.
Proof.
  unfold located. intros Hx.
  replace (X * bpow (- (e + 1)))%R with (X * bpow (- e) / 2)%R; [assumption|].
  replace (- (e + 1)) with (- e + - (1)) by lia.
  rewrite bpow_add, (bpow_opp 1), bpow_1. lra.
Qed.

Lemma shr_nat_ok (n : nat) : forall mrs e X,
  0 <= shr_m mrs ->
  located (shr_m mrs) e (loc_of_shr_record mrs) X ->
  located (shr_m (Nat.iter n shr_1 mrs)) (e + Z.of_nat n)
          (loc_of_shr_record (Nat.iter n shr_1 mrs)) X /\
  shr_m (Nat.iter n shr_1 mrs) = shr_m mrs / 2 ^ Z.of_nat n.
Proof.
  induction n as [|n IH]; intros mrs e X Hm HX.
  - simpl. rewrite Z.add_0_r, Z.div_1_r. auto.
  - destruct (IH mrs e X Hm HX) as [HX' Hm'].
    assert (0 <= shr_m (Nat.iter n shr_1 mrs)) as Hm0.
    { rewrite Hm'. apply Z.div_pos; [assumption|]. apply Z.pow_pos_nonneg; lia. }
    destruct (shr_1_ok _ _ Hm0 HX') as [H1 H2].
    simpl Nat.iter. split.
    + replace (e + Z.of_nat (S n)) with (e + Z.of_nat n + 1) by lia.
      eapply located_step. exact H1.
    + rewrite H2, Hm'. rewrite Z.div_div by (try apply Z.pow_pos_nonneg; lia).
      f_equal. rewrite Nat2Z.inj_succ, Z.pow_succ_r by lia. lia.
Qed.

(** What [shr] computes. *)
Lemma shr_ok mrs e n X :
  0 <= shr_m mrs ->
  located (shr_m mrs) e (loc_of_shr_record mrs) X ->
  let '(mrs', e') := shr mrs e n in
  located (shr_m mrs') e' (loc_of_shr_record mrs') X /\
  e' = e + Z.max n 0 /\
  shr_m mrs' = shr_m mrs / 2 ^ Z.max n 0.
Proof.
  intros Hm HX. destruct n as [|p|p]; simpl shr.
  - rewrite Z.add_0_r, Z.div_1_r. auto.
  - rewrite iter_pos_nat.
    destruct (shr_nat_ok (Pos.to_nat p) mrs e X Hm HX) as [H1 H2].
    rewrite positive_nat_Z in H1, H2.
    replace (Z.max (Z.pos p) 0) with (Z.pos p) by lia. auto.
  - replace (Z.max (Z.neg p) 0) with 0 by lia.
    rewrite Z.add_0_r, Z.div_1_r. auto.
Qed.

(** ** Rounding to nearest *)

Section Rounding.

Variables prec emax : Z.
Hypothesis Hprec : 0 < prec.
Hypothesis Hemax : prec < emax.

Abbreviation emin := (emin prec emax).
Abbreviation fexp := (fexp prec emax).
Abbreviation canonical_mantissa := (canonical_mantissa prec emax).
Abbreviation valid_binary := (valid_binary prec emax).
Abbreviation binary_round_aux := (binary_round_aux prec emax).
Abbreviation shr_fexp := (shr_fexp prec emax).
Abbreviation in_format := (in_format prec emax).
Abbreviation Rnd := (Rnd prec emax).
Abbreviation represents := (represents prec emax).
Abbreviation rounds := (rounds prec emax).

Lemma Zdigits2_nonneg m : 0 <= Zdigits2 m.
Proof. destruct m; simpl; lia. Qed.

Lemma Zdigits2_le_bound m d : 0 <= m -> 0 <= d -> m < 2 ^ d -> Zdigits2 m <= d.
Proof.
  intros Hm Hd Hlt. destruct (Z.eq_dec m 0) as [->|Hne]; [simpl; lia|].
  pose proof (Zdigits2_bounds m ltac:(lia)) as [Hlo _].
  destruct (Z_le_gt_dec (Zdigits2 m) d) as [|Hgt]; [assumption|].
  assert (2 ^ d <= 2 ^ (Zdigits2 m - 1)) by (apply Z.pow_le_mono_r; lia). lia.
Qed.

Lemma Zdigits2_ge_bound m d : 0 < d -> 2 ^ (d - 1) <= m -> d <= Zdigits2 m.
Proof.
  intros Hd Hle.
  assert (0 < m) by (pose proof (Z.pow_pos_nonneg 2 (d - 1)); lia).
  pose proof (Zdigits2_bounds m ltac:(lia)) as [_ Hhi].
  destruct (Z_le_gt_dec d (Zdigits2 m)) as [|Hgt]; [assumption|].
  assert (2 ^ Zdigits2 m <= 2 ^ (d - 1)).
  { apply Z.pow_le_mono_r; [lia|]. lia. }
  lia.
Qed.

(** The first shift of [binary_round_aux]: the mantissa it leaves. *)
Lemma shifted_mantissa_bounds mx ex :
  0 <= mx -> ex <= fexp (Zdigits2 mx + ex) ->
  let e1 := fexp (Zdigits2 mx + ex) in
  let m1 := mx / 2 ^ (e1 - ex) in
  0 <= m1 < 2 ^ prec /\
  (emin < e1 -> 2 ^ (prec - 1) <= m1 /\ e1 = Zdigits2 mx + ex - prec).
Proof.
  intros Hmx Hex e1 m1.
  pose proof (Zdigits2_nonneg mx) as Hd.
  assert (0 < 2 ^ (e1 - ex)) as Hpow by (apply Z.pow_pos_nonneg; lia).
  assert (Zdigits2 mx + ex - prec <= e1) as He1 by (unfold e1, SpecFloat.fexp; lia).
  assert (mx < 2 ^ Zdigits2 mx) as Hlt.
  { destruct (Z.eq_dec mx 0) as [->|]; [simpl; lia|].
    apply Zdigits2_bounds. lia. }
  split; [split|].
  - apply Z.div_pos; lia.
  - apply Z.div_lt_upper_bound; [assumption|].
    rewrite <- Z.pow_add_r by lia.
    assert (2 ^ Zdigits2 mx <= 2 ^ (e1 - ex + prec)) by (apply Z.pow_le_mono_r; lia).
    lia.
  - intros Hnormal.
    assert (e1 = Zdigits2 mx + ex - prec) as E by (unfold e1, SpecFloat.fexp in *; lia).
    split; [|assumption].
    assert (0 < mx).
    { destruct (Z.eq_dec mx 0) as [->|]; [|lia]. simpl in E. lia. }
    pose proof (Zdigits2_bounds mx ltac:(lia)) as [Hlo _].
    apply Z.div_le_lower_bound; [assumption|].
    rewrite <- Z.pow_add_r by lia.
    replace (e1 - ex + (prec - 1)) with (Zdigits2 mx - 1) by lia. assumption.
Qed.

Lemma round_nearest_even_cases m l :
  round_nearest_even m l = m \/ round_nearest_even m l = m + 1.
Proof. destruct l as [|[]]; simpl; auto. destruct (Z.even m); auto. Qed.

(** The second shift of [binary_round_aux], on a rounded mantissa. *)
Lemma renormalize mr e1 :
  0 < mr <= 2 ^ prec -> emin <= e1 ->
  (emin < e1 -> 2 ^ (prec - 1) <= mr) ->
  let '(mrs, e2) := shr_fexp mr e1 loc_Exact in
  exists mz, shr_m mrs = Z.pos mz /\
    canonical_mantissa mz e2 = true /\
    F2R (Z.pos mz) e2 = F2R mr e1.
Proof.
  intros [Hpos Hle] Hemin Hnormal.
  unfold SpecFloat.shr_fexp.
  pose proof (shr_ok (shr_record_of_loc mr loc_Exact) e1
                (SpecFloat.fexp prec emax (Zdigits2 mr + e1) - e1) (F2R mr e1)) as Hshr.
  simpl shr_record_of_loc in *. simpl shr_m in Hshr. simpl loc_of_shr_record in Hshr.
  destruct (shr _ e1 _) as [mrs e2].
  destruct Hshr as (_ & He2 & Hm2); [lia| |].
  { unfold located, loc_ok, F2R. rewrite Rmult_assoc, <- bpow_add.
    replace (e1 + - e1) with 0 by lia. rewrite bpow_0. lra. }
  destruct (Z_lt_le_dec mr (2 ^ prec)) as [Hlt|Hge].
  - (* no carry: the mantissa stays *)
    assert (Zdigits2 mr <= prec) as Hd by (apply Zdigits2_le_bound; lia).
    assert (SpecFloat.fexp prec emax (Zdigits2 mr + e1) = e1) as Hfexp.
    { destruct (Z.eq_dec e1 emin) as [E|NE].
      - unfold SpecFloat.fexp, emin in *. lia.
      - assert (prec <= Zdigits2 mr) by (apply Zdigits2_ge_bound; [lia|apply Hnormal; lia]).
        unfold SpecFloat.fexp, emin in *. lia. }
    rewrite Hfexp, Z.sub_diag in He2, Hm2. simpl in He2, Hm2.
    rewrite Z.add_0_r in He2. rewrite Z.div_1_r in Hm2. subst e2.
    destruct mr as [|mz|]; try lia. exists mz. split; [assumption|]. split; [|reflexivity].
    apply canonical_fexp. exact Hfexp.
  - (* carry: the mantissa is 2^prec *)
    assert (mr = 2 ^ prec) as -> by lia.
    assert (Zdigits2 (2 ^ prec) = prec + 1) as Hd.
    { apply Zdigits2_unique; [lia|]. replace (prec + 1 - 1) with prec by lia.
      split; [lia|]. apply Z.pow_lt_mono_r; lia. }
    assert (SpecFloat.fexp prec emax (Zdigits2 (2 ^ prec) + e1) - e1 = 1) as Hn.
    { rewrite Hd. unfold SpecFloat.fexp, emin in *. lia. }
    rewrite Hn in He2, Hm2. change (Z.max 1 0) with 1 in He2, Hm2.
    assert (2 ^ prec / 2 ^ 1 = 2 ^ (prec - 1)) as Hdiv.
    { rewrite <- Z.pow_sub_r by lia. reflexivity. }
    rewrite Hdiv in Hm2.
    assert (0 < 2 ^ (prec - 1)) as Hp by (apply Z.pow_pos_nonneg; lia).
    destruct (2 ^ (prec - 1)) as [|mz|] eqn:Emz; try lia.
    exists mz. split; [assumption|]. split.
    + apply canonical_fexp.
      assert (Z.pos (digits2_pos mz) = prec) as ->.
      { change (Z.pos (digits2_pos mz)) with (Zdigits2 (Z.pos mz)).
        rewrite <- Emz. apply Zdigits2_unique; [lia|].
        split; [lia|]. apply Z.pow_lt_mono_r; lia. }
      subst e2. unfold SpecFloat.fexp, emin in *. lia.
    + subst e2. rewrite <- Emz. rewrite (F2R_shift _ (e1 + 1) e1) by lia.
      f_equal. replace (e1 + 1 - e1) with 1 by lia.
      rewrite <- Z.pow_add_r by lia. f_equal. lia.
Qed.


Lemma in_format_opp v : in_format v -> in_format (- v).
Proof.
  intros [->|(s & m & e & Hc & ->)].
  - left. lra.
  - right. exists (negb s), m, e. split; [assumption|].
    rewrite !cond_Zopp_F2R. destruct s; simpl; lra.
Qed.

Lemma Rnd_opp x v : Rnd x v -> Rnd (- x) (- v).
Proof.
  intros [Hf Hn]. split; [now apply in_format_opp|].
  intros g Hg. specialize (Hn (- g)%R (in_format_opp _ Hg)).
  replace (- v - - x)%R with (- (v - x))%R by lra.
  replace (g - - x)%R with (- (- g - x))%R by lra.
  now rewrite !Rabs_Ropp.
Qed.

Lemma in_format_canonical m e :
  canonical_mantissa m e = true -> in_format (F2R (Z.pos m) e).
Proof. intros Hc. right. exists false, m, e. auto. Qed.

(** No number of the format lies strictly inside an interval that
    [binary_round_aux] rounds to the ends of. *)
Lemma format_gap mx ex g :
  0 <= mx -> ex <= fexp (Zdigits2 mx + ex) ->
  let e1 := fexp (Zdigits2 mx + ex) in
  let m1 := mx / 2 ^ (e1 - ex) in
  in_format g ->
  (g <= F2R m1 e1 \/ F2R (m1 + 1) e1 <= g)%R.
Proof.
  intros Hmx Hex e1 m1 Hg.
  destruct (shifted_mantissa_bounds mx ex Hmx Hex) as [[Hm1 _] Hnormal].
  fold e1 m1 in Hm1, Hnormal.
  assert (0 <= F2R m1 e1)%R as Hlo.
  { rewrite <- (F2R_0 e1). apply F2R_le. assumption. }
  destruct Hg as [->|(s & M & E & Hc & ->)]; [left; assumption|].
  rewrite cond_Zopp_F2R. pose proof (F2R_pos_gt_0 M E) as HM.
  destruct s; [left; lra|].
  destruct (Z_le_gt_dec e1 E) as [HE|HE].
  - rewrite (F2R_shift _ E e1) by lia.
    destruct (Z_le_gt_dec (Z.pos M * 2 ^ (E - e1)) m1).
    + left. apply F2R_le. assumption.
    + right. apply F2R_le. lia.
  - left. pose proof (canonical_digits prec emax M E Hc) as (_ & HEmin & _).
    destruct Hnormal as [Hm1' He1]; [fold emin; lia|].
    assert (Z.pos (digits2_pos M) + E < Zdigits2 mx + ex) as Hd.
    { apply canonical_fexp in Hc.
      destruct (Z_lt_le_dec (Z.pos (digits2_pos M) + E) (Zdigits2 mx + ex)) as [|Hge];
        [assumption|].
      pose proof (fexp_mono prec emax _ _ Hge). fold e1 in H. lia. }
    pose proof (F2R_digits_bounds M E) as [_ Hhi].
    assert (bpow (Z.pos (digits2_pos M) + E) <= bpow (prec - 1 + e1))%R
      by (apply bpow_le; lia).
    assert (bpow (prec - 1 + e1) <= F2R m1 e1)%R.
    { rewrite bpow_add, bpow_IZR by lia. unfold F2R.
      apply IZR_le in Hm1'. pose proof (bpow_gt_0 e1). nra. }
    lra.
Qed.

(** The end the rounding picks is a nearest one. *)
Lemma nearest_end m1 e1 l1 X g :
  located m1 e1 l1 X ->
  (g <= F2R m1 e1 \/ F2R (m1 + 1) e1 <= g)%R ->
  (Rabs (F2R (round_nearest_even m1 l1) e1 - X) <= Rabs (g - X))%R.
Proof.
  unfold located. intros Hloc Hg.
  pose proof (bpow_gt_0 e1) as Hu.
  assert (X = X * bpow (- e1) * bpow e1)%R as HX.
  { rewrite Rmult_assoc, <- bpow_add. replace (- e1 + e1) with 0 by lia.
    rewrite bpow_0. lra. }
  set (y := (X * bpow (- e1))%R) in *. clearbody y.
  unfold F2R in *. rewrite plus_IZR in Hg.
  set (u := bpow e1) in *. clearbody u.
  set (lo := IZR m1) in *.
  assert (Hcases :
    (round_nearest_even m1 l1 = m1 /\ (lo <= y <= lo + / 2)%R) \/
    (round_nearest_even m1 l1 = m1 + 1 /\ (lo + / 2 <= y <= lo + 1)%R)).
  { destruct l1 as [|[]]; simpl in *.
    - left. split; [reflexivity|]. fold lo in Hloc. lra.
    - destruct (Z.even m1); [left|right]; (split; [reflexivity|]); fold lo in Hloc; lra.
    - left. split; [reflexivity|]. fold lo in Hloc. lra.
    - right. split; [reflexivity|]. fold lo in Hloc. lra. }
  subst X.
  assert (E : ((lo + 1) * u = lo * u + u)%R) by ring.
  rewrite E in Hg.
  destruct Hcases as [[-> Hy]|[-> Hy]]; [fold lo|rewrite plus_IZR; fold lo; rewrite E].
  - assert (lo * u <= y * u <= lo * u + u / 2)%R by nra.
    set (a := (lo * u)%R) in *. set (b := (y * u)%R) in *.
    unfold Rabs; repeat destruct Rcase_abs; destruct Hg; lra.
  - assert (lo * u + u / 2 <= y * u <= lo * u + u)%R by nra.
    set (a := (lo * u)%R) in *. set (b := (y * u)%R) in *.
    unfold Rabs; repeat destruct Rcase_abs; destruct Hg; lra.
Qed.

Lemma canonical_bounded m e :
  canonical_mantissa m e = true ->
  (e <= emax - prec <-> (F2R (Z.pos m) e < bpow emax)%R).
Proof.
  intros Hc. pose proof (canonical_digits prec emax m e Hc) as (Hd & He & Hn).
  pose proof (F2R_digits_bounds m e) as [Hlo Hhi].
  split; intros H.
  - assert (bpow (Z.pos (digits2_pos m) + e) <= bpow emax)%R by (apply bpow_le; lia).
    lra.
  - destruct (Z_le_gt_dec e (emax - prec)) as [|Hgt]; [assumption|].
    assert (Z.pos (digits2_pos m) = prec) as Hdp by (unfold emin, SpecFloat.emin in *; lia).
    assert (bpow emax <= bpow (Z.pos (digits2_pos m) + e - 1))%R by (apply bpow_le; lia).
    lra.
Qed.

(** [binary_round_aux] rounds to nearest: the mantissa [mx], the exponent
    [ex] and the location [lx] stand for the magnitude [X], [sx] for its
    sign. *)
Theorem binary_round_aux_correct (sx : bool) mx ex lx X :
  0 <= mx -> located mx ex lx X -> ex <= fexp (Zdigits2 mx + ex) ->
  rounds (if sx then - X else X)%R (binary_round_aux sx mx ex lx).
Proof.
  intros Hmx Hloc Hex.
  destruct (shifted_mantissa_bounds mx ex Hmx Hex) as [[Hm1lo Hm1hi] Hnormal].
  pose proof (fun g => format_gap mx ex g Hmx Hex) as Hgap.
  pose proof (fexp_ge_emin prec emax (Zdigits2 mx + ex)) as He1min.
  set (e1 := fexp (Zdigits2 mx + ex)) in *.
  set (m1 := mx / 2 ^ (e1 - ex)) in *.
  unfold SpecFloat.binary_round_aux.
  (* the first shift *)
  pose proof (shr_ok (shr_record_of_loc mx lx) ex (e1 - ex) X) as Hshr.
  rewrite shr_m_shr_record_of_loc, loc_of_shr_record_of_loc in Hshr.
  unfold SpecFloat.shr_fexp at 1. fold e1.
  destruct (shr (shr_record_of_loc mx lx) ex (e1 - ex)) as [mrs' e'].
  destruct (Hshr Hmx Hloc) as (Hloc1 & He' & Hm'). clear Hshr.
  replace (Z.max (e1 - ex) 0) with (e1 - ex) in He', Hm' by lia.
  replace (ex + (e1 - ex)) with e1 in He' by lia. subst e'.
  fold m1 in Hm'. rewrite Hm' in *.
  set (l1 := loc_of_shr_record mrs') in *.
  set (mr := round_nearest_even m1 l1).
  assert (Hnear : forall g, in_format g -> (Rabs (F2R mr e1 - X) <= Rabs (g - X))%R).
  { intros g Hg. apply nearest_end; [assumption|]. apply Hgap. assumption. }
  assert (Hsigned : forall v, Rnd X v ->
            Rnd (if sx then - X else X)%R (if sx then - v else v)%R).
  { intros v Hv. destruct sx; [now apply Rnd_opp|assumption]. }
  destruct (Z.eq_dec mr 0) as [Hmr0|Hmr0].
  - (* the result is a zero *)
    assert (shr_m (fst (shr_fexp mr e1 loc_Exact)) = 0) as Hz.
    { rewrite Hmr0. unfold SpecFloat.shr_fexp.
      pose proof (shr_ok (shr_record_of_loc 0 loc_Exact) e1
                    (SpecFloat.fexp prec emax (Zdigits2 0 + e1) - e1) 0%R) as Hs.
      destruct (shr _ e1 _) as [mrs2 e2]. simpl in Hs.
      destruct Hs as (_ & _ & Hm2); [lia| |].
      - unfold located, loc_ok. simpl. lra.
      - simpl. rewrite Hm2. apply Z.div_0_l. apply Z.pow_nonzero; lia. }
    fold mr. destruct (shr_fexp mr e1 loc_Exact) as [mrs2 e2]. simpl in Hz. rewrite Hz.
    exists (if sx then - 0 else 0)%R. split.
    + apply Hsigned. split; [left; reflexivity|].
      intros g Hg. specialize (Hnear g Hg). rewrite Hmr0, F2R_0 in Hnear. exact Hnear.
    + left. pose proof (bpow_gt_0 emax).
      repeat split; try reflexivity.
      * destruct sx; rewrite ?Ropp_0, Rabs_R0; assumption.
      * simpl. destruct sx; lra.
  - (* the result has a mantissa *)
    assert (0 < mr <= 2 ^ prec) as Hmr.
    { destruct (round_nearest_even_cases m1 l1) as [E|E]; fold mr in E; lia. }
    assert (emin < e1 -> 2 ^ (prec - 1) <= mr) as Hmrn.
    { intros Hn. destruct (Hnormal Hn) as [Hge _].
      destruct (round_nearest_even_cases m1 l1) as [E|E]; fold mr in E; lia. }
    pose proof (renormalize mr e1 Hmr He1min Hmrn) as Hre.
    fold mr. destruct (shr_fexp mr e1 loc_Exact) as [mrs2 e2].
    destruct Hre as (mz & -> & Hc & Hval).
    pose proof (canonical_bounded mz e2 Hc) as Hb.
    pose proof (F2R_pos_gt_0 mz e2) as Hpos.
    exists (if sx then - F2R (Z.pos mz) e2 else F2R (Z.pos mz) e2)%R. split.
    + apply Hsigned. split; [now apply in_format_canonical|].
      rewrite Hval. exact Hnear.
    + destruct (Z.leb_spec e2 (emax - prec)) as [Hle|Hgt].
      * left. repeat split.
        -- apply Hb in Hle. destruct sx; rewrite ?Rabs_Ropp, Rabs_pos_eq; lra.
        -- simpl. unfold SpecFloat.bounded. rewrite Hc. simpl. now apply Z.leb_le.
        -- simpl. rewrite cond_Zopp_F2R. reflexivity.
      * right. assert (bpow emax <= F2R (Z.pos mz) e2)%R.
        { destruct (Rle_or_lt (bpow emax) (F2R (Z.pos mz) e2)) as [|Hlt]; [assumption|].
          apply Hb in Hlt. lia. }
        destruct sx; [right|left]; split; try reflexivity; lra.
Qed.

End Rounding.

(** ** Nearest numbers and the order of the floats *)

Section Ops.

Variables prec emax : Z.
Hypothesis Hprec : 0 < prec.
Hypothesis Hemax : prec < emax.

Abbreviation emin := (emin prec emax).
Abbreviation fexp := (fexp prec emax).
Abbreviation canonical_mantissa := (canonical_mantissa prec emax).
Abbreviation valid_binary := (valid_binary prec emax).
Abbreviation in_format := (in_format prec emax).
Abbreviation Rnd := (Rnd prec emax).
Abbreviation represents := (represents prec emax).
Abbreviation rounds := (rounds prec emax).

(** *** Nearest numbers *)

Lemma in_format_0 : in_format 0.
Proof. now left. Qed.

Lemma Rnd_below x v g : Rnd x v -> in_format g -> (g <= x)%R -> (g <= v)%R.
Proof.
  intros [_ Hn] Hg Hle. specialize (Hn g Hg).
  destruct (Rle_or_lt g v) as [|Hlt]; [assumption|].
  revert Hn. unfold Rabs. repeat destruct Rcase_abs; lra.
Qed.

Lemma Rnd_above x v g : Rnd x v -> in_format g -> (x <= g)%R -> (v <= g)%R.
Proof.
  intros [_ Hn] Hg Hle. specialize (Hn g Hg).
  destruct (Rle_or_lt v g) as [|Hlt]; [assumption|].
  revert Hn. unfold Rabs. repeat destruct Rcase_abs; lra.
Qed.

Lemma Rnd_exact x v : in_format x -> Rnd x v -> v = x.
Proof.
  intros Hx Hv. apply Rle_antisym.
  - eapply Rnd_above; [eassumption|assumption|lra].
  - eapply Rnd_below; [eassumption|assumption|lra].
Qed.

Lemma Rnd_refl x : in_format x -> Rnd x x.
Proof.
  intros Hx. split; [assumption|]. intros g _.
  replace (x - x)%R with 0%R by lra. rewrite Rabs_R0. apply Rabs_pos.
Qed.

(** Rounding to nearest is monotone. *)
Lemma Rnd_mono x y v w : (x < y)%R -> Rnd x v -> Rnd y w -> (v <= w)%R.
Proof.
  intros Hxy [Hv Hnv] [Hw Hnw].
  specialize (Hnv w Hw). specialize (Hnw v Hv).
  destruct (Rle_or_lt v w) as [|Hlt]; [assumption|].
  revert Hnv Hnw. unfold Rabs. repeat destruct Rcase_abs; lra.
Qed.

(** *** The floats of the format *)

Lemma valid_in_format z :
  valid_binary z = true -> SFfinite z = true ->
  in_format (SF2R z) /\ (Rabs (SF2R z) < bpow emax)%R.
Proof.
  intros Hv Hf. destruct z as [s|s| |s m e]; try discriminate; simpl SF2R.
  - split; [now left|]. rewrite Rabs_R0. apply bpow_gt_0.
  - apply valid_finite_canonical in Hv as [Hc He].
    split; [right; now exists s, m, e|].
    apply (canonical_bounded prec emax Hprec Hemax m e Hc) in He.
    rewrite cond_Zopp_F2R. pose proof (F2R_pos_gt_0 m e).
    destruct s; rewrite ?Rabs_Ropp, Rabs_pos_eq; lra.
Qed.

Lemma represents_exact z :
  valid_binary z = true -> SFfinite z = true -> represents (SF2R z) z.
Proof. intros Hv Hf. left. destruct (valid_in_format z Hv Hf). auto. Qed.

Lemma rounds_exact z :
  valid_binary z = true -> SFfinite z = true -> rounds (SF2R z) z.
Proof.
  intros Hv Hf. exists (SF2R z). split.
  - apply Rnd_refl. now apply valid_in_format.
  - now apply represents_exact.
Qed.

Lemma rounds_zero s : rounds 0 (S754_zero s).
Proof. apply (rounds_exact (S754_zero s)); reflexivity. Qed.

Lemma represents_valid v z : represents v z -> valid_binary z = true.
Proof. intros [(_ & Hv & _)|[[_ ->]|[_ ->]]]; auto. Qed.

Lemma rounds_valid x z : rounds x z -> valid_binary z = true.
Proof. intros (v & _ & Hr). eapply represents_valid; eassumption. Qed.

Lemma represents_not_nan v z : represents v z -> z <> S754_nan.
Proof.
  intros [(_ & _ & Hf & _)|[[_ ->]|[_ ->]]]; try discriminate.
  intros ->. discriminate.
Qed.

(** The order of the floats follows the order of the values they stand for. *)
Lemma represents_le v w z z' :
  represents v z -> represents w z' -> (v <= w)%R -> SFleb z z' = true.
Proof.
  intros Hz Hz' Hle. pose proof (bpow_gt_0 emax) as Hb.
  destruct Hz as [(Hv & Vz & Fz & Ez)|[[Hv ->]|[Hv ->]]];
    destruct Hz' as [(Hw & Vz' & Fz' & Ez')|[[Hw ->]|[Hw ->]]].
  - pose proof (SFcompare_finite prec emax z z' Vz Vz' Fz Fz') as Hc.
    unfold SFleb. destruct (SFcompare z z') as [[]|]; try reflexivity; try lra.
  - destruct z as [?|?| |[] ? ?]; try discriminate; reflexivity.
  - apply Rabs_def2 in Hv. lra.
  - apply Rabs_def2 in Hw. lra.
  - reflexivity.
  - lra.
  - destruct z' as [?|?| |[] ? ?]; try discriminate; reflexivity.
  - reflexivity.
  - reflexivity.
Qed.

Lemma rounds_le x y z z' :
  rounds x z -> rounds y z' -> (x < y)%R -> SFleb z z' = true.
Proof.
  intros (v & Hv & Hz) (w & Hw & Hz') Hxy.
  eapply represents_le; [eassumption|eassumption|].
  eapply Rnd_mono; eassumption.
Qed.

(** A float that rounds a number above (below) a number of the format is
    above (below) the float of that number. *)
Lemma rounds_ge_format x z g :
  rounds x z -> valid_binary g = true -> SFfinite g = true ->
  (SF2R g <= x)%R -> SFleb g z = true.
Proof.
  intros (v & Hv & Hz) Vg Fg Hle.
  eapply represents_le; [now apply represents_exact|eassumption|].
  eapply Rnd_below; [eassumption|now apply valid_in_format|assumption].
Qed.

Lemma rounds_le_format x z g :
  rounds x z -> valid_binary g = true -> SFfinite g = true ->
  (x <= SF2R g)%R -> SFleb z g = true.
Proof.
  intros (v & Hv & Hz) Vg Fg Hle.
  eapply represents_le; [eassumption|now apply represents_exact|].
  eapply Rnd_above; [eassumption|now apply valid_in_format|assumption].
Qed.

End Ops.

(** ** Addition, subtraction, multiplication, conversion *)

Lemma Pos_iter_xO m d : Z.pos (Pos.iter xO m d) = Z.pos m * 2 ^ Z.pos d.
Proof.
  induction d as [|d IH] using Pos.peano_ind.
  - simpl. lia.
  - rewrite Pos.iter_succ, Pos2Z.inj_xO, IH, Pos2Z.inj_succ, Z.pow_succ_r by lia. lia.
Qed.

Lemma shl_align_spec mx ex e' :
  let '(mz, ez) := shl_align mx ex e' in
  ez = Z.min ex e' /\ Z.pos mz = Z.pos mx * 2 ^ (ex - ez).
Proof.
  unfold shl_align. destruct (e' - ex) as [|d|d] eqn:E.
  - split; [lia|]. replace (ex - ex) with 0 by lia. lia.
  - split; [lia|]. replace (ex - ex) with 0 by lia. lia.
  - split; [lia|]. rewrite Pos_iter_xO. f_equal. f_equal. lia.
Qed.

Lemma Zdigits2_shift m k : 0 < m -> 0 <= k -> Zdigits2 (m * 2 ^ k) = Zdigits2 m + k.
Proof.
  intros Hm Hk. pose proof (Zdigits2_bounds m Hm) as [Hlo Hhi].
  pose proof (Zdigits2_pos m Hm).
  assert (0 < 2 ^ k) by (apply Z.pow_pos_nonneg; lia).
  apply Zdigits2_unique; [lia|].
  replace (Zdigits2 m + k - 1) with (Zdigits2 m - 1 + k) by lia.
  rewrite !Z.pow_add_r by lia. nia.
Qed.

Lemma located_exact m e : located m e loc_Exact (F2R m e).
Proof.
  unfold located, loc_ok, F2R. rewrite Rmult_assoc, <- bpow_add.
  replace (e + - e) with 0 by lia. rewrite bpow_0. lra.
Qed.

Section Ops2.

Variables prec emax : Z.
Hypothesis Hprec : 0 < prec.
Hypothesis Hemax : prec < emax.

Abbreviation emin := (emin prec emax).
Abbreviation fexp := (fexp prec emax).
Abbreviation canonical_mantissa := (canonical_mantissa prec emax).
Abbreviation valid_binary := (valid_binary prec emax).
Abbreviation rounds := (rounds prec emax).

Lemma binary_round_correct (sx : bool) mx ex :
  rounds (F2R (cond_Zopp sx (Z.pos mx)) ex) (binary_round prec emax sx mx ex).
Proof.
  unfold binary_round.
  pose proof (shl_align_spec mx ex (fexp (Z.pos (digits2_pos mx) + ex))) as Hs.
  destruct (shl_align _ _ _) as [mz ez]. destruct Hs as [Hez Hmz].
  assert (F2R (Z.pos mz) ez = F2R (Z.pos mx) ex) as Hval.
  { rewrite Hmz. symmetry. apply F2R_shift. lia. }
  rewrite cond_Zopp_F2R, <- Hval.
  replace (if sx then (- F2R (Z.pos mz) ez)%R else F2R (Z.pos mz) ez)
    with (if sx then (- F2R (Z.pos mz) ez)%R else F2R (Z.pos mz) ez) by reflexivity.
  apply (binary_round_aux_correct prec emax Hprec Hemax sx (Z.pos mz) ez loc_Exact).
  - lia.
  - apply located_exact.
  - assert (Zdigits2 (Z.pos mz) + ez = Z.pos (digits2_pos mx) + ex) as ->.
    { rewrite Hmz, Zdigits2_shift by lia. simpl Zdigits2. lia. }
    lia.
Qed.

Lemma binary_normalize_correct m e szero :
  rounds (F2R m e) (binary_normalize prec emax m e szero).
Proof.
  destruct m as [|p|p]; simpl binary_normalize.
  - rewrite F2R_0. apply rounds_zero; assumption.
  - apply (binary_round_correct false).
  - apply (binary_round_correct true).
Qed.

Lemma F2R_add m1 m2 e : F2R (m1 + m2) e = (F2R m1 e + F2R m2 e)%R.
Proof. unfold F2R. rewrite plus_IZR. lra. Qed.

Lemma F2R_sub m1 m2 e : F2R (m1 - m2) e = (F2R m1 e - F2R m2 e)%R.
Proof. unfold F2R. rewrite minus_IZR. lra. Qed.

Lemma F2R_align (s : bool) mx ex ez :
  ez <= ex ->
  F2R (cond_Zopp s (Z.pos (fst (shl_align mx ex ez)))) ez
  = F2R (cond_Zopp s (Z.pos mx)) ex.
Proof.
  intros Hle. pose proof (shl_align_spec mx ex ez) as Hs.
  destruct (shl_align mx ex ez) as [mz ez']. destruct Hs as [Hez Hmz]. simpl fst.
  rewrite !cond_Zopp_F2R. rewrite Hmz. replace ez' with ez by lia.
  rewrite <- (F2R_shift (Z.pos mx) ex ez) by lia. reflexivity.
Qed.

(** Addition, subtraction and multiplication of finite numbers round the
    exact result. *)
Theorem SFadd_correct x y :
  valid_binary x = true -> valid_binary y = true ->
  SFfinite x = true -> SFfinite y = true ->
  rounds (SF2R x + SF2R y) (SFadd prec emax x y).
Proof.
  intros Vx Vy Fx Fy.
  destruct x as [sx|sx| |sx mx ex], y as [sy|sy| |sy my ey]; try discriminate.
  - simpl SF2R. rewrite Rplus_0_l.
    destruct sx, sy; apply rounds_zero; assumption.
  - simpl SFadd. rewrite Rplus_0_l. now apply rounds_exact.
  - simpl SFadd. rewrite Rplus_0_r. now apply rounds_exact.
  - unfold SFadd, SF2R.
    rewrite <- (F2R_align sx mx ex (Z.min ex ey)), <- (F2R_align sy my ey (Z.min ex ey)) by lia.
    rewrite <- F2R_add. apply binary_normalize_correct.
Qed.

Theorem SFsub_correct x y :
  valid_binary x = true -> valid_binary y = true ->
  SFfinite x = true -> SFfinite y = true ->
  rounds (SF2R x - SF2R y) (SFsub prec emax x y).
Proof.
  intros Vx Vy Fx Fy.
  destruct x as [sx|sx| |sx mx ex], y as [sy|sy| |sy my ey]; try discriminate.
  - simpl SF2R. rewrite Rminus_0_r.
    destruct sx, sy; apply rounds_zero; assumption.
  - simpl SFsub. replace (SF2R (S754_zero sx) - SF2R (S754_finite sy my ey))%R
      with (SF2R (S754_finite (negb sy) my ey)).
    + apply rounds_exact; assumption.
    + simpl. rewrite !cond_Zopp_F2R. destruct sy; simpl; lra.
  - simpl SFsub. simpl (SF2R (S754_zero sy)). rewrite Rminus_0_r.
    now apply rounds_exact.
  - unfold SFsub, SF2R.
    rewrite <- (F2R_align sx mx ex (Z.min ex ey)), <- (F2R_align sy my ey (Z.min ex ey)) by lia.
    rewrite <- F2R_sub. apply binary_normalize_correct.
Qed.

Lemma Zdigits2_mul_ge m1 m2 :
  0 < m1 -> 0 < m2 -> Zdigits2 m1 + Zdigits2 m2 - 1 <= Zdigits2 (m1 * m2).
Proof.
  intros H1 H2. pose proof (Zdigits2_bounds m1 H1) as [Hlo1 _].
  pose proof (Zdigits2_bounds m2 H2) as [Hlo2 _].
  pose proof (Zdigits2_pos m1 H1). pose proof (Zdigits2_pos m2 H2).
  apply Zdigits2_ge_bound; [lia|].
  replace (Zdigits2 m1 + Zdigits2 m2 - 1 - 1) with ((Zdigits2 m1 - 1) + (Zdigits2 m2 - 1)) by lia.
  rewrite Z.pow_add_r by lia.
  assert (0 < 2 ^ (Zdigits2 m1 - 1)) by (apply Z.pow_pos_nonneg; lia).
  assert (0 < 2 ^ (Zdigits2 m2 - 1)) by (apply Z.pow_pos_nonneg; lia).
  nia.
Qed.

Theorem SFmul_correct x y :
  valid_binary x = true -> valid_binary y = true ->
  SFfinite x = true -> SFfinite y = true ->
  rounds (SF2R x * SF2R y) (SFmul prec emax x y).
Proof.
  intros Vx Vy Fx Fy.
  destruct x as [sx|sx| |sx mx ex], y as [sy|sy| |sy my ey]; try discriminate.
  - simpl SF2R. rewrite Rmult_0_l. apply rounds_zero; assumption.
  - simpl SF2R. rewrite Rmult_0_l. apply rounds_zero; assumption.
  - simpl SF2R. rewrite Rmult_0_r. apply rounds_zero; assumption.
  - apply valid_finite_canonical in Vx as [Cx _], Vy as [Cy _].
    pose proof (canonical_digits prec emax mx ex Cx) as (Hdx & Hex & Hnx).
    pose proof (canonical_digits prec emax my ey Cy) as (Hdy & Hey & Hny).
    unfold SFmul, SF2R.
    replace (F2R (cond_Zopp sx (Z.pos mx)) ex * F2R (cond_Zopp sy (Z.pos my)) ey)%R
      with (if xorb sx sy then (- F2R (Z.pos (mx * my)) (ex + ey))%R
            else F2R (Z.pos (mx * my)) (ex + ey)).
    + apply (binary_round_aux_correct prec emax Hprec Hemax).
      * lia.
      * apply located_exact.
      * pose proof (Zdigits2_mul_ge (Z.pos mx) (Z.pos my) ltac:(lia) ltac:(lia)) as Hd.
        simpl Zdigits2 in Hd. rewrite <- ?Pos2Z.inj_mul in Hd.
        simpl Zdigits2. unfold SpecFloat.fexp, emin, SpecFloat.emin in *. lia.
    + rewrite !cond_Zopp_F2R, Pos2Z.inj_mul. unfold F2R.
      rewrite mult_IZR, bpow_add. destruct sx, sy; simpl; lra.
Qed.

Theorem of_int_correct n : rounds (IZR n) (binary_normalize prec emax n 0 false).
Proof.
  replace (IZR n) with (F2R n 0) by (unfold F2R; rewrite bpow_0; lra).
  apply binary_normalize_correct.
Qed.

End Ops2.

(** ** Division *)

Lemma Rdiv_lt_half (a b : R) : (0 < b)%R -> (2 * a < b)%R -> (a / b < / 2)%R.
Proof.
  intros Hb Hab. apply (Rmult_lt_reg_r b); [assumption|].
  unfold Rdiv. rewrite Rmult_assoc, Rinv_l by lra. lra.
Qed.

Lemma Rdiv_gt_half (a b : R) : (0 < b)%R -> (b < 2 * a)%R -> (/ 2 < a / b)%R.
Proof.
  intros Hb Hab. apply (Rmult_lt_reg_r b); [assumption|].
  unfold Rdiv. rewrite Rmult_assoc, Rinv_l by lra. lra.
Qed.

Lemma Rdiv_eq_half (a b : R) : (0 < b)%R -> (2 * a = b)%R -> (a / b = / 2)%R.
Proof.
  intros Hb Hab. apply (Rmult_eq_reg_r b); [|lra].
  unfold Rdiv. rewrite Rmult_assoc, Rinv_l by lra. lra.
Qed.

Lemma Rdiv_pos_lt_1 (a b : R) : (0 < a < b)%R -> (0 < a / b < 1)%R.
Proof.
  intros [Ha Hab]. split.
  - apply Rdiv_lt_0_compat; lra.
  - apply (Rmult_lt_reg_r b); [lra|].
    unfold Rdiv. rewrite Rmult_assoc, Rinv_l by lra. lra.
Qed.

(** The location [new_location] gives to a remainder. *)
Lemma new_location_ok q n k :
  0 < n -> 0 <= k < n ->
  loc_ok q (IZR q + IZR k / IZR n) (new_location n k).
Proof.
  intros Hn Hk.
  assert (0 < IZR n)%R as HN by (apply IZR_lt; lia).
  unfold new_location.
  destruct (Z.eq_dec k 0) as [->|Hk0].
  - destruct (Z.even n); unfold new_location_even, new_location_odd;
      rewrite Z.eqb_refl; unfold loc_ok, Rdiv; lra.
  - assert (0 < IZR k < IZR n)%R as HK by (split; apply IZR_lt; lia).
    pose proof (Rdiv_pos_lt_1 _ _ HK) as Hfrac.
    destruct (Z.even n) eqn:Ev; unfold new_location_even, new_location_odd;
      rewrite (proj2 (Z.eqb_neq k 0) Hk0).
    + destruct (Z.compare_spec (2 * k) n) as [E|L|G]; unfold loc_ok.
      * rewrite (Rdiv_eq_half (IZR k) (IZR n)); [reflexivity|lra|].
        rewrite <- E, mult_IZR. reflexivity.
      * assert (IZR k / IZR n < / 2)%R.
        { apply Rdiv_lt_half; [lra|]. apply IZR_lt in L. rewrite mult_IZR in L. exact L. }
        lra.
      * assert (/ 2 < IZR k / IZR n)%R.
        { apply Rdiv_gt_half; [lra|]. apply IZR_lt in G. rewrite mult_IZR in G. exact G. }
        lra.
    + assert (2 * k <> n) as Hodd.
      { intros <-. rewrite Z.even_mul in Ev. discriminate. }
      assert (2 * k < n -> (IZR k / IZR n < / 2)%R) as Hlt.
      { intros L. apply Rdiv_lt_half; [lra|].
        apply IZR_lt in L. rewrite mult_IZR in L. exact L. }
      assert (n < 2 * k -> (/ 2 < IZR k / IZR n)%R) as Hgt.
      { intros G. apply Rdiv_gt_half; [lra|].
        apply IZR_lt in G. rewrite mult_IZR in G. exact G. }
      destruct (Z.compare_spec (2 * k + 1) n) as [E|L|G]; unfold loc_ok.
      * specialize (Hlt ltac:(lia)). lra.
      * specialize (Hlt ltac:(lia)). lra.
      * specialize (Hgt ltac:(lia)). lra.
Qed.

Section Division.

Variables prec emax : Z.
Hypothesis Hprec : 0 < prec.
Hypothesis Hemax : prec < emax.

Abbreviation emin := (emin prec emax).
Abbreviation fexp := (fexp prec emax).
Abbreviation canonical_mantissa := (canonical_mantissa prec emax).
Abbreviation valid_binary := (valid_binary prec emax).
Abbreviation rounds := (rounds prec emax).

(** The quotient, the exponent and the location [SFdiv_core_binary]
    hands to the rounding. *)
Lemma SFdiv_core_binary_ok mx ex my ey :
  let '(q, e', l) := SFdiv_core_binary prec emax (Z.pos mx) ex (Z.pos my) ey in
  0 <= q /\
  located q e' l (F2R (Z.pos mx) ex / F2R (Z.pos my) ey) /\
  e' <= fexp (Zdigits2 q + e').
Proof.
  unfold SFdiv_core_binary.
  set (d1 := Zdigits2 (Z.pos mx)). set (d2 := Zdigits2 (Z.pos my)).
  set (e' := Z.min (fexp (d1 + ex - (d2 + ey))) (ex - ey)).
  set (s := ex - ey - e').
  assert (0 <= s) as Hs by (unfold s, e'; lia).
  set (m' := match s with Z.pos _ => Z.shiftl (Z.pos mx) s | 0 => Z.pos mx | Z.neg _ => 0 end).
  assert (m' = Z.pos mx * 2 ^ s) as Hm'.
  { unfold m'. destruct s as [|p|p] eqn:Es; [simpl; lia| |lia].
    apply Z.shiftl_mul_pow2. lia. }
  clearbody m'.
  pose proof (Z_div_mod m' (Z.pos my) ltac:(lia)) as Hdiv.
  destruct (Z.div_eucl m' (Z.pos my)) as [q r] eqn:Edm. destruct Hdiv as [Heq Hr].
  assert (0 < 2 ^ s) as Hpow by (apply Z.pow_pos_nonneg; lia).
  assert (0 <= q) as Hq by nia.
  split; [assumption|]. split.
  - unfold located.
    replace (F2R (Z.pos mx) ex / F2R (Z.pos my) ey * bpow (- e'))%R
      with (IZR q + IZR r / IZR (Z.pos my))%R.
    + apply new_location_ok; lia.
    + assert (0 < IZR (Z.pos my))%R as Hmy by (apply IZR_lt; lia).
      pose proof (bpow_gt_0 ey) as Hbey.
      assert (IZR q + IZR r / IZR (Z.pos my) = IZR m' / IZR (Z.pos my))%R as ->.
      { rewrite Heq, plus_IZR, mult_IZR. field. lra. }
      rewrite Hm', mult_IZR, <- bpow_IZR by lia. unfold F2R.
      rewrite bpow_opp. pose proof (bpow_gt_0 e') as Hbe'.
      replace (bpow ex) with (bpow s * bpow ey * bpow e')%R.
      * field. lra.
      * rewrite <- !bpow_add. f_equal. unfold s. lia.
  - destruct (Z_le_gt_dec e' emin) as [Hle|Hgt].
    + pose proof (fexp_ge_emin prec emax (Zdigits2 q + e')). fold emin in H. lia.
    + assert (prec <= Zdigits2 q) as Hdq.
      { assert (q = m' / Z.pos my) as ->.
        { apply Z.div_unique with r; [lia|assumption]. }
        apply Zdigits2_ge_bound; [lia|].
        apply Z.div_le_lower_bound; [lia|].
        pose proof (Zdigits2_bounds (Z.pos mx) ltac:(lia)) as [Hlo1 _].
        pose proof (Zdigits2_bounds (Z.pos my) ltac:(lia)) as [_ Hhi2].
        fold d1 in Hlo1. fold d2 in Hhi2.
        assert (0 < d1) by (apply Zdigits2_pos; lia).
        assert (0 < d2) by (apply Zdigits2_pos; lia).
        assert (2 ^ (d2 + (prec - 1)) <= 2 ^ (d1 - 1 + s)) as Hexp.
        { apply Z.pow_le_mono_r; [lia|].
          unfold s. unfold e', SpecFloat.fexp, emin, SpecFloat.emin in *. lia. }
        rewrite !Z.pow_add_r in Hexp by lia.
        assert (0 < 2 ^ (prec - 1)) by (apply Z.pow_pos_nonneg; lia).
        rewrite Hm'. nia. }
      unfold SpecFloat.fexp. lia.
Qed.

Theorem SFdiv_correct x (sy : bool) my ey :
  valid_binary x = true -> valid_binary (S754_finite sy my ey) = true ->
  SFfinite x = true ->
  rounds (SF2R x / SF2R (S754_finite sy my ey)) (SFdiv prec emax x (S754_finite sy my ey)).
Proof.
  intros Vx Vy Fx. pose proof (F2R_pos_gt_0 my ey) as Hy.
  destruct x as [sx|sx| |sx mx ex]; try discriminate.
  - simpl SFdiv. simpl (SF2R (S754_zero sx)). unfold Rdiv. rewrite Rmult_0_l.
    apply rounds_zero; assumption.
  - unfold SFdiv.
    pose proof (SFdiv_core_binary_ok mx ex my ey) as Hcore.
    destruct (SFdiv_core_binary prec emax (Z.pos mx) ex (Z.pos my) ey) as [[q e'] l].
    destruct Hcore as (Hq & Hloc & Hpre).
    replace (SF2R (S754_finite sx mx ex) / SF2R (S754_finite sy my ey))%R
      with (if xorb sx sy then (- (F2R (Z.pos mx) ex / F2R (Z.pos my) ey))%R
            else (F2R (Z.pos mx) ex / F2R (Z.pos my) ey)%R).
    + apply (binary_round_aux_correct prec emax Hprec Hemax); assumption.
    + simpl SF2R. rewrite !cond_Zopp_F2R.
      destruct sx, sy; simpl; field; lra.
Qed.

End Division.

(** ** Representable numbers *)

Section Representable.

Variables prec emax : Z.
Hypothesis Hprec : 0 < prec.
Hypothesis Hemax : prec < emax.

Abbreviation emin := (emin prec emax).
Abbreviation fexp := (fexp prec emax).
Abbreviation canonical_mantissa := (canonical_mantissa prec emax).
Abbreviation valid_binary := (valid_binary prec emax).
Abbreviation in_format := (in_format prec emax).
Abbreviation Rnd := (Rnd prec emax).
Abbreviation represents := (represents prec emax).
Abbreviation rounds := (rounds prec emax).

(** A mantissa of at most [prec] digits with an exponent from [emin] on is
    a number of the format. *)
Lemma in_format_F2R m e :
  Zdigits2 m <= prec -> emin <= e -> in_format (F2R m e).
Proof.
  intros Hd He.
  assert (forall p, Z.pos (digits2_pos p) <= prec -> in_format (F2R (Z.pos p) e)) as Hpos.
  { intros p Hp. right.
    set (E := fexp (Z.pos (digits2_pos p) + e)).
    assert (E <= e) as HE by (unfold E, SpecFloat.fexp; lia).
    assert (0 < Z.pos p * 2 ^ (e - E)) as HM.
    { apply Z.mul_pos_pos; [lia|]. apply Z.pow_pos_nonneg; lia. }
    destruct (Z.pos p * 2 ^ (e - E)) as [|M|M] eqn:EM; try lia.
    exists false, M, E. split.
    - apply canonical_fexp.
      change (Z.pos (digits2_pos M)) with (Zdigits2 (Z.pos M)).
      rewrite <- EM, Zdigits2_shift by lia. simpl Zdigits2.
      replace (Z.pos (digits2_pos p) + (e - E) + E) with (Z.pos (digits2_pos p) + e) by lia.
      reflexivity.
    - simpl cond_Zopp. rewrite <- EM. apply F2R_shift. assumption. }
  destruct m as [|p|p].
  - left. apply F2R_0.
  - apply Hpos. exact Hd.
  - change (Z.neg p) with (- Z.pos p). rewrite F2R_opp.
    apply in_format_opp. apply Hpos. exact Hd.
Qed.

Lemma emin_le_0 : emin <= 0.
Proof. unfold emin, SpecFloat.emin. lia. Qed.

Lemma in_format_IZR n : Z.abs n <= 2 ^ prec -> in_format (IZR n).
Proof.
  intros Hn.
  destruct (Z.eq_dec (Z.abs n) (2 ^ prec)) as [E|NE].
  - (* the power itself: mantissa one *)
    assert (IZR (2 ^ prec) = F2R 1 prec) as Hp.
    { unfold F2R. rewrite bpow_IZR by lia. lra. }
    assert (in_format (F2R 1 prec)) as Hf.
    { apply in_format_F2R; [simpl; lia|]. pose proof emin_le_0. lia. }
    destruct (Z.abs_spec n) as [[_ Ha]|[_ Ha]]; rewrite Ha in E.
    + rewrite E, Hp. exact Hf.
    + replace n with (- 2 ^ prec) by lia. rewrite opp_IZR, Hp.
      apply in_format_opp. exact Hf.
  - replace (IZR n) with (F2R n 0) by (unfold F2R; rewrite bpow_0; lra).
    apply in_format_F2R; [|apply emin_le_0].
    destruct n as [|p|p]; [simpl; lia| |];
      (apply (Zdigits2_le_bound (Z.pos p)); simpl in *; lia).
Qed.

(** A number that rounds between two numbers of the format, both below
    [2^emax] in magnitude, gives a finite float between them. *)
Lemma rounds_between x z lo hi :
  rounds x z -> in_format lo -> in_format hi ->
  (- bpow emax < lo)%R -> (hi < bpow emax)%R -> (lo <= x <= hi)%R ->
  valid_binary z = true /\ SFfinite z = true /\ (lo <= SF2R z <= hi)%R.
Proof.
  intros (v & Hv & Hz) Hlo Hhi Blo Bhi Hx.
  assert (lo <= v)%R by (eapply Rnd_below; [eassumption|assumption|lra]).
  assert (v <= hi)%R by (eapply Rnd_above; [eassumption|assumption|lra]).
  destruct Hz as [(_ & Vz & Fz & Ez)|[[Hb _]|[Hb _]]]; try lra.
  rewrite Ez. auto.
Qed.

(** A number of the format below [2^emax] rounds to the float of its value. *)
Lemma rounds_in_format x z :
  rounds x z -> in_format x -> (Rabs x < bpow emax)%R ->
  valid_binary z = true /\ SFfinite z = true /\ SF2R z = x.
Proof.
  intros (v & Hv & Hz) Hx Hb.
  pose proof (Rnd_exact prec emax x v Hx Hv) as ->.
  destruct Hz as [(_ & Vz & Fz & Ez)|[[Hb' _]|[Hb' _]]]; auto;
    apply Rabs_def2 in Hb; lra.
Qed.

End Representable.

(** ** binary64 *)

Abbreviation rounds64 := (rounds F64.prec F64.emax).

Lemma prec_pos : 0 < F64.prec.
Proof. reflexivity. Qed.

Lemma prec_lt_emax : F64.prec < F64.emax.
Proof. reflexivity. Qed.

Lemma is_finite_SFfinite x : F64.is_finite x = SFfinite x.
Proof. reflexivity. Qed.

Lemma add_rounds x y :
  F64.valid x = true -> F64.valid y = true ->
  F64.is_finite x = true -> F64.is_finite y = true ->
  rounds64 (SF2R x + SF2R y) (F64.add x y).
Proof. apply SFadd_correct; [exact prec_pos|exact prec_lt_emax]. Qed.

Lemma sub_rounds x y :
  F64.valid x = true -> F64.valid y = true ->
  F64.is_finite x = true -> F64.is_finite y = true ->
  rounds64 (SF2R x - SF2R y) (F64.sub x y).
Proof. apply SFsub_correct; [exact prec_pos|exact prec_lt_emax]. Qed.

Lemma mul_rounds x y :
  F64.valid x = true -> F64.valid y = true ->
  F64.is_finite x = true -> F64.is_finite y = true ->
  rounds64 (SF2R x * SF2R y) (F64.mul x y).
Proof. apply SFmul_correct; [exact prec_pos|exact prec_lt_emax]. Qed.

Lemma div_rounds x (sy : bool) my ey :
  F64.valid x = true -> F64.valid (S754_finite sy my ey) = true ->
  F64.is_finite x = true ->
  rounds64 (SF2R x / SF2R (S754_finite sy my ey)) (F64.div x (S754_finite sy my ey)).
Proof. apply SFdiv_correct; [exact prec_pos|exact prec_lt_emax]. Qed.

Lemma of_int_rounds n : rounds64 (IZR n) (F64.of_int n).
Proof. apply of_int_correct; [exact prec_pos|exact prec_lt_emax]. Qed.

(** ** The order of the floats *)

Lemma leb_refl x : F64.IsNaN x = false -> F64.leb x x = true.
Proof.
  destruct x as [s|[]| |[] m e]; try discriminate; intros _; try reflexivity;
    unfold F64.leb, SFleb, SFcompare; rewrite Z.compare_refl;
    change (Pos.compare_cont Eq m m) with (Pos.compare m m);
    rewrite Pos.compare_refl; reflexivity.
Qed.

(** The sign of a float that is not below zero. *)
Lemma leb_zero_cases x :
  F64.leb F64.zero x = true ->
  (exists s, x = S754_zero s) \/ x = S754_infinity false \/
  (exists m e, x = S754_finite false m e).
Proof.
  destruct x as [s|[]| |[] m e]; try discriminate; intros _; eauto.
Qed.

Lemma ltb_zero_cases x :
  F64.ltb F64.zero x = true ->
  x = S754_infinity false \/ (exists m e, x = S754_finite false m e).
Proof.
  destruct x as [s|[]| |[] m e]; try discriminate; intros _; eauto.
Qed.

Lemma leb_zero_SF2R x : F64.leb F64.zero x = true -> (0 <= SF2R x)%R.
Proof.
  intros Hx. destruct (leb_zero_cases x Hx) as [[s ->]|[->|(m & e & ->)]];
    simpl; try lra. pose proof (F2R_pos_gt_0 m e). lra.
Qed.

Lemma Signbit_false_SF2R x : F64.Signbit x = false -> (0 <= SF2R x)%R.
Proof.
  destruct x as [s|s| |s m e]; simpl; intros Hs; try lra.
  subst s. pose proof (F2R_pos_gt_0 m e). simpl. lra.
Qed.

(** ** [math.Max] against zero *)

Lemma Max_zero_cases q :
  let p := F64.Max F64.zero q in
  (F64.IsNaN q = true /\ p = F64.NaN) \/
  (F64.IsNaN q = false /\ F64.ltb F64.zero q = true /\ p = q) \/
  (F64.IsNaN q = false /\ F64.ltb F64.zero q = false /\ p = F64.zero).
Proof.
  destruct q as [[]|[]| |[] m e]; cbn; auto.
Qed.

Lemma Max_zero_nonneg q :
  let p := F64.Max F64.zero q in
  F64.IsNaN p = true \/ (F64.leb F64.zero p = true /\ F64.Signbit p = false).
Proof.
  destruct q as [[]|[]| |[] m e]; cbn; auto.
Qed.

Lemma Max_zero_le q b :
  F64.leb F64.zero b = true -> F64.leb q b = true ->
  F64.leb (F64.Max F64.zero q) b = true.
Proof.
  intros Hb Hq. destruct (Max_zero_cases q) as [[Hn ->]|[(_ & _ & ->)|(_ & _ & ->)]];
    try assumption.
  destruct q; discriminate.
Qed.

(** ** Bounds of sums, differences and quotients *)

Lemma compare_SF2R x y :
  F64.valid x = true -> F64.valid y = true ->
  F64.is_finite x = true -> F64.is_finite y = true ->
  match SFcompare x y with
  | Some Lt => (SF2R x < SF2R y)%R
  | Some Eq => SF2R x = SF2R y
  | Some Gt => (SF2R y < SF2R x)%R
  | None => False
  end.
Proof. apply SFcompare_finite. Qed.

Lemma leb_SF2R x y :
  F64.valid x = true -> F64.valid y = true ->
  F64.is_finite x = true -> F64.is_finite y = true ->
  (F64.leb x y = true <-> (SF2R x <= SF2R y)%R).
Proof.
  intros Vx Vy Fx Fy. pose proof (compare_SF2R x y Vx Vy Fx Fy) as Hc.
  unfold F64.leb, SFleb. destruct (SFcompare x y) as [[]|];
    split; intros; try reflexivity; try discriminate; lra.
Qed.

Lemma ltb_SF2R x y :
  F64.valid x = true -> F64.valid y = true ->
  F64.is_finite x = true -> F64.is_finite y = true ->
  (F64.ltb x y = true <-> (SF2R x < SF2R y)%R).
Proof.
  intros Vx Vy Fx Fy. pose proof (compare_SF2R x y Vx Vy Fx Fy) as Hc.
  unfold F64.ltb, SFltb. destruct (SFcompare x y) as [[]|];
    split; intros; try reflexivity; try discriminate; lra.
Qed.

Lemma SF2R_one : SF2R F64.one = 1%R.
Proof.
  change (SF2R F64.one) with (F2R (1 * 2 ^ (0 - -52)) (-52)).
  rewrite <- (F2R_shift 1 0 (-52)) by lia. unfold F2R. rewrite bpow_0. lra.
Qed.

Lemma rounds_not_nan x z : rounds64 x z -> F64.IsNaN z = false.
Proof.
  intros (v & _ & Hr). apply represents_not_nan in Hr. now destruct z.
Qed.

Lemma rounds_valid64 x z : rounds64 x z -> F64.valid z = true.
Proof. apply rounds_valid. Qed.

(** A product of factors that are not below zero is not below zero. *)
Lemma mul_nonneg k a :
  F64.valid k = true -> F64.leb F64.zero k = true ->
  F64.valid a = true -> F64.is_finite a = true -> F64.leb F64.zero a = true ->
  let c := F64.mul k a in
  F64.IsNaN c = true \/ (F64.valid c = true /\ F64.leb F64.zero c = true).
Proof.
  intros Vk Hk Va Fa Ha c. subst c.
  destruct (leb_zero_cases k Hk) as [[sk ->]|[->|(mk & ek & ->)]];
    destruct (leb_zero_cases a Ha) as [[sa ->]|[->|(ma & ea & ->)]];
    try discriminate; try (right; split; reflexivity); try (left; reflexivity).
  pose proof (mul_rounds _ _ Vk Va eq_refl eq_refl) as Hr.
  right. split; [eapply rounds_valid64; eassumption|].
  eapply (rounds_ge_format F64.prec F64.emax prec_pos prec_lt_emax _ _ F64.zero);
    [eassumption|reflexivity|reflexivity|].
  simpl SF2R. pose proof (F2R_pos_gt_0 mk ek). pose proof (F2R_pos_gt_0 ma ea). nra.
Qed.

(** Taking away a number that is not below zero does not go above. *)
Lemma sub_le_l r c :
  F64.valid r = true -> F64.is_finite r = true ->
  F64.valid c = true -> F64.leb F64.zero c = true ->
  let n := F64.sub r c in
  F64.valid n = true /\ F64.IsNaN n = false /\ F64.leb n r = true.
Proof.
  intros Vr Fr Vc Hc n. subst n.
  destruct (leb_zero_cases c Hc) as [[sc ->]|[->|(mc & ec & ->)]].
  - destruct r as [sr|sr| |sr mr er]; try discriminate.
    + destruct sr, sc; cbn; auto.
    + change (F64.sub (S754_finite sr mr er) (S754_zero sc)) with (S754_finite sr mr er).
      repeat split; try assumption. apply leb_refl. reflexivity.
  - destruct r as [[]|[]| |[] mr er]; try discriminate; cbn; auto.
  - destruct r as [sr|sr| |sr mr er]; try discriminate.
    + cbn. repeat split; try assumption; try now destruct sr.
    + pose proof (sub_rounds _ _ Vr Vc eq_refl eq_refl) as Hr.
      split; [eapply rounds_valid64; eassumption|].
      split; [eapply rounds_not_nan; eassumption|].
      eapply (rounds_le_format F64.prec F64.emax prec_pos prec_lt_emax);
        [eassumption|assumption|reflexivity|].
      pose proof (F2R_pos_gt_0 mc ec). simpl (SF2R (S754_finite false mc ec)). lra.
Qed.

(** Adding a number that is not below zero does not go below. *)
Lemma add_ge_l r m :
  F64.valid r = true -> F64.is_finite r = true -> F64.Signbit r = false ->
  F64.valid m = true -> F64.leb F64.zero m = true ->
  let d := F64.add r m in
  F64.valid d = true /\ F64.IsNaN d = false /\ F64.Signbit d = false /\
  F64.leb r d = true /\ F64.leb m d = true.
Proof.
  intros Vr Fr Sr Vm Hm d. subst d.
  destruct r as [sr|sr| |sr mr er]; try discriminate; simpl in Sr; subst sr.
  - destruct (leb_zero_cases m Hm) as [[sm ->]|[->|(mm & em & ->)]].
    + destruct sm; cbn; auto.
    + cbn; auto.
    + change (F64.add (S754_zero false) (S754_finite false mm em))
        with (S754_finite false mm em).
      repeat split; try assumption. apply leb_refl. reflexivity.
  - destruct (leb_zero_cases m Hm) as [[sm ->]|[->|(mm & em & ->)]].
    + change (F64.add (S754_finite false mr er) (S754_zero sm))
        with (S754_finite false mr er).
      repeat split; try assumption. apply leb_refl. reflexivity.
    + cbn; auto.
    + pose proof (add_rounds _ _ Vr Vm eq_refl eq_refl) as Hr.
      pose proof (F2R_pos_gt_0 mr er). pose proof (F2R_pos_gt_0 mm em).
      assert (F64.leb (S754_finite false mr er)
                (F64.add (S754_finite false mr er) (S754_finite false mm em)) = true) as Hle.
      { eapply (rounds_ge_format F64.prec F64.emax prec_pos prec_lt_emax);
          [eassumption|assumption|reflexivity|]. simpl SF2R in *. lra. }
      assert (F64.leb (S754_finite false mm em)
                (F64.add (S754_finite false mr er) (S754_finite false mm em)) = true) as Hle'.
      { eapply (rounds_ge_format F64.prec F64.emax prec_pos prec_lt_emax);
          [eassumption|assumption|reflexivity|]. simpl SF2R in *. lra. }
      split; [eapply rounds_valid64; eassumption|].
      split; [eapply rounds_not_nan; eassumption|].
      split; [|split; assumption].
      destruct (F64.add _ _) as [[]|[]| |[] md ed]; try reflexivity; discriminate.
Qed.

Lemma Rdiv_le_1_pos (n d : R) : (0 < d)%R -> (n <= d)%R -> (n / d <= 1)%R.
Proof.
  intros Hd Hn. apply (Rmult_le_reg_r d); [assumption|].
  unfold Rdiv. rewrite Rmult_assoc, Rinv_l by lra. lra.
Qed.

(** A quotient whose numerator is not above its denominator is not above one. *)
Lemma div_le_one n d r :
  F64.valid n = true -> F64.IsNaN n = false -> F64.leb n r = true ->
  F64.valid r = true -> F64.is_finite r = true -> F64.Signbit r = false ->
  F64.valid d = true -> F64.IsNaN d = false -> F64.Signbit d = false ->
  F64.leb r d = true ->
  let q := F64.div n d in
  F64.IsNaN q = true \/ F64.leb q F64.one = true.
Proof.
  intros Vn Nn Hnr Vr Fr Sr Vd Nd Sd Hrd q. subst q.
  destruct d as [sd|sd| |sd md ed]; try discriminate; simpl in Sd; subst sd.
  - (* the denominator is +0: so is r *)
    destruct r as [sr|sr| |sr mr er]; try discriminate; simpl in Sr; subst sr;
      [|discriminate].
    destruct n as [sn|[]| |[] mn en]; try discriminate; cbn; auto.
  - destruct n as [sn|sn| |sn mn en]; try discriminate.
    + right. now destruct sn.
    + destruct sn; [left; reflexivity|].
      destruct r as [sr|sr| |sr mr er]; discriminate.
    + right. now destruct sn.
  - destruct n as [sn|sn| |sn mn en]; try discriminate.
    + right. now destruct sn.
    + destruct sn; [right; reflexivity|].
      destruct r as [sr|sr| |sr mr er]; discriminate.
    + right.
      pose proof (div_rounds _ false md ed Vn Vd eq_refl) as Hr.
      eapply (rounds_le_format F64.prec F64.emax prec_pos prec_lt_emax);
        [eassumption|reflexivity|reflexivity|].
      rewrite SF2R_one.
      apply (leb_SF2R _ _ Vn Vr eq_refl Fr) in Hnr.
      apply (leb_SF2R _ _ Vr Vd Fr eq_refl) in Hrd.
      pose proof (F2R_pos_gt_0 md ed). simpl (SF2R (S754_finite false md ed)) in *.
      apply Rdiv_le_1_pos; lra.
Qed.

Section Bounds.

Variables k m r a : float64.
Hypothesis Vk : F64.valid k = true.
Hypothesis Vm : F64.valid m = true.
Hypothesis Vr : F64.valid r = true.
Hypothesis Va : F64.valid a = true.
Hypothesis Fr : F64.is_finite r = true.
Hypothesis Sr : F64.Signbit r = false.
Hypothesis Fa : F64.is_finite a = true.
Hypothesis Ha : F64.leb F64.zero a = true.
Hypothesis Hk : F64.leb F64.zero k = true.
Hypothesis Hm : F64.leb F64.zero m = true.

Lemma rejectionProbability_le_one :
  let p := rejectionProbability k m r a in
  F64.IsNaN p = true \/ F64.leb p F64.one = true.
Proof.
  unfold rejectionProbability.
  destruct (mul_nonneg k a Vk Hk Va Fa Ha) as [Hc|[Vc Hc]].
  - left. destruct (F64.mul k a); try discriminate.
    destruct r; reflexivity.
  - destruct (sub_le_l r _ Vr Fr Vc Hc) as (Vn & Nn & Hn).
    destruct (add_ge_l r m Vr Fr Sr Vm Hm) as (Vd & Nd & Sd & Hd & _).
    destruct (div_le_one _ _ r Vn Nn Hn Vr Fr Sr Vd Nd Sd Hd) as [Hq|Hq].
    + left. destruct (F64.div _ _); try discriminate. reflexivity.
    + right. apply Max_zero_le; [reflexivity|assumption].
Qed.

End Bounds.

(** ** Monotonicity *)

(** Two finite floats in order differ in value, or are the same float, or
    are two zeros. *)
Lemma leb_finite_cases x y :
  F64.valid x = true -> F64.valid y = true ->
  F64.is_finite x = true -> F64.is_finite y = true ->
  F64.leb x y = true ->
  (SF2R x < SF2R y)%R \/ x = y \/ (exists s s', x = S754_zero s /\ y = S754_zero s').
Proof.
  intros Vx Vy Fx Fy Hle.
  pose proof (compare_SF2R x y Vx Vy Fx Fy) as Hc.
  unfold F64.leb, SFleb in Hle.
  destruct (SFcompare x y) as [[]|] eqn:E; try discriminate; [|left; assumption].
  right. clear Hle Hc.
  destruct x as [sx|sx| |sx mx ex], y as [sy|sy| |sy my ey]; try discriminate.
  - right. eauto.
  - simpl in E. destruct sy; discriminate.
  - simpl in E. destruct sx; discriminate.
  - left. simpl in E.
    destruct sx, sy; try discriminate;
      (destruct (Z.compare_spec ex ey) as [->|?|?]; try discriminate;
       change (Pos.compare_cont Eq mx my) with (Pos.compare mx my) in E;
       destruct (Pos.compare_spec mx my) as [->|?|?]; try discriminate; reflexivity).
Qed.

Lemma leb_not_nan x y :
  F64.leb x y = true -> F64.IsNaN x = false /\ F64.IsNaN y = false.
Proof. destruct x as [?|?| |? ? ?], y as [?|?| |? ? ?]; try discriminate; auto. Qed.

(** [math.Max] against zero keeps the order. *)
Lemma Max_zero_mono q1 q2 :
  F64.leb q1 q2 = true ->
  F64.leb (F64.Max F64.zero q1) (F64.Max F64.zero q2) = true.
Proof.
  intros Hle. destruct (leb_not_nan _ _ Hle) as [N1 N2].
  destruct (Max_zero_cases q1) as [[Hn _]|[(_ & H1 & ->)|(_ & H1 & ->)]];
    [congruence| |];
    destruct (Max_zero_cases q2) as [[Hn _]|[(_ & H2 & ->)|(_ & H2 & ->)]];
    try congruence; try assumption; try reflexivity.
  - (* 0 < q1 <= q2 but not 0 < q2 *)
    destruct (ltb_zero_cases q1 H1) as [->|(m1 & e1 & ->)];
      destruct q2 as [?|[]| |[] ? ?]; try discriminate.
  - destruct (ltb_zero_cases q2 H2) as [->|(m2 & e2 & ->)]; reflexivity.
Qed.

(** The sign of a zero does not matter to the operations that follow. *)
Lemma sub_zero_sign r s s' :
  F64.is_finite r = true ->
  F64.leb (F64.sub r (S754_zero s)) (F64.sub r (S754_zero s')) = true.
Proof.
  destruct r as [sr|sr| |sr mr er]; try discriminate; intros _.
  - destruct sr, s, s'; reflexivity.
  - change (F64.sub (S754_finite sr mr er) (S754_zero s)) with (S754_finite sr mr er).
    change (F64.sub (S754_finite sr mr er) (S754_zero s')) with (S754_finite sr mr er).
    apply leb_refl. reflexivity.
Qed.

Lemma leb_neg_inf z : F64.IsNaN z = false -> F64.leb (S754_infinity true) z = true.
Proof. destruct z as [?|[]| |? ? ?]; try discriminate; reflexivity. Qed.

Lemma leb_pos_inf z : F64.IsNaN z = false -> F64.leb z (S754_infinity false) = true.
Proof. destruct z as [?|[]| |[] ? ?]; try discriminate; reflexivity. Qed.

Lemma sub_inf r (s : bool) :
  F64.is_finite r = true -> F64.sub r (S754_infinity s) = S754_infinity (negb s).
Proof. destruct r; try discriminate; reflexivity. Qed.

(** Subtraction from a finite number turns the order around. *)
Lemma sub_anti r c1 c2 :
  F64.valid r = true -> F64.is_finite r = true ->
  F64.valid c1 = true -> F64.valid c2 = true ->
  F64.leb c1 c2 = true ->
  F64.leb (F64.sub r c2) (F64.sub r c1) = true.
Proof.
  intros Vr Fr V1 V2 Hle.
  destruct (F64.is_finite c1) eqn:F1; destruct (F64.is_finite c2) eqn:F2.
  - destruct (leb_finite_cases c1 c2 V1 V2 F1 F2 Hle) as [Hlt|[->|(s & s' & -> & ->)]].
    + eapply (rounds_le F64.prec F64.emax).
      * apply (sub_rounds r c2); assumption.
      * apply (sub_rounds r c1); assumption.
      * lra.
    + apply leb_refl.
      eapply rounds_not_nan. apply (sub_rounds r c2); assumption.
    + now apply sub_zero_sign.
  - assert (c2 = S754_infinity false) as ->.
    { destruct c2 as [?|[]| |? ? ?]; try discriminate; try reflexivity;
        destruct c1 as [?|[]| |[] ? ?]; discriminate. }
    rewrite sub_inf by assumption. apply leb_neg_inf.
    eapply rounds_not_nan. apply (sub_rounds r c1); assumption.
  - assert (c1 = S754_infinity true) as ->.
    { destruct c1 as [?|[]| |? ? ?]; try discriminate; try reflexivity;
        destruct c2 as [?|[]| |[] ? ?]; discriminate. }
    rewrite sub_inf by assumption. apply leb_pos_inf.
    eapply rounds_not_nan. apply (sub_rounds r c2); assumption.
  - destruct c1 as [?|[]| |? ? ?], c2 as [?|[]| |? ? ?]; try discriminate;
      rewrite !sub_inf by assumption; reflexivity.
Qed.

(** Multiplication by a factor that is not below zero keeps the order. *)
Lemma mul_mono k a1 a2 :
  F64.valid k = true -> F64.leb F64.zero k = true ->
  F64.valid a1 = true -> F64.valid a2 = true ->
  F64.is_finite a1 = true -> F64.is_finite a2 = true ->
  F64.leb F64.zero a1 = true -> F64.leb a1 a2 = true ->
  F64.IsNaN (F64.mul k a1) = true \/ F64.IsNaN (F64.mul k a2) = true \/
  F64.leb (F64.mul k a1) (F64.mul k a2) = true.
Proof.
  intros Vk Hk V1 V2 F1 F2 H1 H12.
  destruct (leb_zero_cases k Hk) as [[sk ->]|[->|(mk & ek & ->)]].
  - right; right.
    destruct a1 as [?|?| |? ? ?], a2 as [?|?| |? ? ?]; try discriminate; reflexivity.
  - destruct a1 as [?|?| |[] ? ?]; try discriminate; [left; reflexivity|].
    destruct a2 as [?|?| |[] ? ?]; try discriminate. right; right; reflexivity.
  - right; right.
    destruct (leb_finite_cases a1 a2 V1 V2 F1 F2 H12) as [Hlt|[->|(s & s' & -> & ->)]].
    + eapply (rounds_le F64.prec F64.emax).
      * apply (mul_rounds _ a1); [assumption|assumption|reflexivity|assumption].
      * apply (mul_rounds _ a2); [assumption|assumption|reflexivity|assumption].
      * pose proof (F2R_pos_gt_0 mk ek). simpl (SF2R (S754_finite false mk ek)). nra.
    + apply leb_refl. eapply rounds_not_nan.
      apply (mul_rounds _ a2); [assumption|assumption|reflexivity|assumption].
    + reflexivity.
Qed.

Lemma div_not_nan n (sd : bool) md ed :
  F64.valid n = true -> F64.IsNaN n = false ->
  F64.valid (S754_finite sd md ed) = true ->
  F64.IsNaN (F64.div n (S754_finite sd md ed)) = false.
Proof.
  intros Vn Nn Vd. destruct n as [sn|sn| |sn mn en] eqn:En; try discriminate.
  - reflexivity.
  - reflexivity.
  - eapply rounds_not_nan. apply div_rounds; [assumption|assumption|reflexivity].
Qed.

(** Division by a number above zero keeps the order. *)
Lemma div_mono n1 n2 d :
  F64.valid n1 = true -> F64.valid n2 = true -> F64.valid d = true ->
  F64.ltb F64.zero d = true -> F64.leb n1 n2 = true ->
  F64.IsNaN (F64.div n1 d) = true \/ F64.IsNaN (F64.div n2 d) = true \/
  F64.leb (F64.div n1 d) (F64.div n2 d) = true.
Proof.
  intros V1 V2 Vd Hd Hle. destruct (leb_not_nan _ _ Hle) as [N1 N2].
  destruct (ltb_zero_cases d Hd) as [->|(md & ed & ->)].
  - destruct n1 as [?|?| |? ? ?]; try discriminate; try (left; reflexivity);
      destruct n2 as [?|?| |? ? ?]; try discriminate; try (right; left; reflexivity);
      right; right; reflexivity.
  - right; right.
    pose proof (div_not_nan n1 false md ed V1 N1 Vd) as Q1.
    pose proof (div_not_nan n2 false md ed V2 N2 Vd) as Q2.
    destruct (F64.is_finite n1) eqn:F1; destruct (F64.is_finite n2) eqn:F2.
    + destruct (leb_finite_cases n1 n2 V1 V2 F1 F2 Hle) as [Hlt|[->|(s & s' & -> & ->)]].
      * eapply (rounds_le F64.prec F64.emax).
        -- apply div_rounds; assumption.
        -- apply div_rounds; assumption.
        -- pose proof (F2R_pos_gt_0 md ed). simpl (SF2R (S754_finite false md ed)).
           unfold Rdiv. apply Rmult_lt_compat_r; [|assumption].
           apply Rinv_0_lt_compat. assumption.
      * apply leb_refl. assumption.
      * reflexivity.
    + assert (n2 = S754_infinity false) as ->.
      { destruct n2 as [?|[]| |? ? ?]; try discriminate; try reflexivity;
          destruct n1 as [?|[]| |[] ? ?]; discriminate. }
      change (F64.div (S754_infinity false) (S754_finite false md ed))
        with (S754_infinity false).
      now apply leb_pos_inf.
    + assert (n1 = S754_infinity true) as ->.
      { destruct n1 as [?|[]| |? ? ?]; try discriminate; try reflexivity;
          destruct n2 as [?|[]| |[] ? ?]; discriminate. }
      change (F64.div (S754_infinity true) (S754_finite false md ed))
        with (S754_infinity true).
      now apply leb_neg_inf.
    + destruct n1 as [?|[]| |? ? ?], n2 as [?|[]| |? ? ?]; try discriminate; reflexivity.
Qed.

Lemma ltb_leb_zero m d :
  F64.ltb F64.zero m = true -> F64.leb m d = true -> F64.ltb F64.zero d = true.
Proof.
  intros Hm Hmd. destruct (ltb_zero_cases m Hm) as [->|(mm & em & ->)];
    destruct d as [?|[]| |[] ? ?]; try discriminate; reflexivity.
Qed.

Lemma rejectionProbability_nan_mul k m r a :
  F64.IsNaN (F64.mul k a) = true -> F64.IsNaN (rejectionProbability k m r a) = true.
Proof.
  unfold rejectionProbability. destruct (F64.mul k a); try discriminate.
  intros _. destruct r; reflexivity.
Qed.

Lemma Max_zero_nan q : F64.IsNaN q = true -> F64.IsNaN (F64.Max F64.zero q) = true.
Proof. destruct q; try discriminate. reflexivity. Qed.

(** The rejection probability does not grow with the accepts. *)
Lemma rejectionProbability_accepts k m r a1 a2 :
  F64.valid k = true -> F64.valid m = true -> F64.valid r = true ->
  F64.valid a1 = true -> F64.valid a2 = true ->
  F64.is_finite r = true -> F64.Signbit r = false ->
  F64.is_finite a1 = true -> F64.is_finite a2 = true ->
  F64.leb F64.zero k = true -> F64.ltb F64.zero m = true ->
  F64.leb F64.zero a1 = true -> F64.leb a1 a2 = true ->
  F64.IsNaN (rejectionProbability k m r a1) = true \/
  F64.IsNaN (rejectionProbability k m r a2) = true \/
  F64.leb (rejectionProbability k m r a2) (rejectionProbability k m r a1) = true.
Proof.
  intros Vk Vm Vr V1 V2 Fr Sr F1 F2 Hk Hm H1 H12.
  assert (F64.leb F64.zero m = true) as Hm0.
  { destruct (ltb_zero_cases m Hm) as [->|(mm & em & ->)]; reflexivity. }
  assert (F64.leb F64.zero a2 = true) as H2.
  { destruct (leb_zero_cases a1 H1) as [[s ->]|[->|(m1 & e1 & ->)]]; try discriminate;
      destruct a2 as [?|[]| |[] ? ?]; try discriminate; reflexivity. }
  destruct (mul_nonneg k a1 Vk Hk V1 F1 H1) as [N|[Vc1 Hc1]];
    [left; now apply rejectionProbability_nan_mul|].
  destruct (mul_nonneg k a2 Vk Hk V2 F2 H2) as [N|[Vc2 Hc2]];
    [right; left; now apply rejectionProbability_nan_mul|].
  destruct (mul_mono k a1 a2 Vk Hk V1 V2 F1 F2 H1 H12) as [N|[N|Hc]];
    [left; now apply rejectionProbability_nan_mul
    |right; left; now apply rejectionProbability_nan_mul|].
  pose proof (sub_anti r _ _ Vr Fr Vc1 Vc2 Hc) as Hn.
  destruct (sub_le_l r _ Vr Fr Vc1 Hc1) as (Vn1 & _ & _).
  destruct (sub_le_l r _ Vr Fr Vc2 Hc2) as (Vn2 & _ & _).
  destruct (add_ge_l r m Vr Fr Sr Vm Hm0) as (Vd & _ & _ & _ & Hmd).
  pose proof (ltb_leb_zero m _ Hm Hmd) as Hd.
  unfold rejectionProbability.
  destruct (div_mono _ _ _ Vn2 Vn1 Vd Hd Hn) as [N|[N|Hq]].
  - right; left. now apply Max_zero_nan.
  - left. now apply Max_zero_nan.
  - right; right. now apply Max_zero_mono.
Qed.

(** ** Integers *)

(** ** Integers that binary64 holds exactly *)

Lemma bpow_53_lt_emax : (bpow 53 < bpow F64.emax)%R.
Proof. apply bpow_lt. reflexivity. Qed.

Lemma IZR_abs_bound n : Z.abs n <= 2 ^ 53 -> (Rabs (IZR n) < bpow F64.emax)%R.
Proof.
  intros Hn. rewrite <- abs_IZR. apply IZR_le in Hn.
  rewrite <- (bpow_IZR 53) in Hn by lia. pose proof bpow_53_lt_emax. lra.
Qed.

(** An exact result that is an integer of at most 53 bits is the value of
    the float the operation returns. *)
Lemma rounds_int x z n :
  rounds64 x z -> x = IZR n -> Z.abs n <= 2 ^ 53 ->
  F64.valid z = true /\ F64.is_finite z = true /\ SF2R z = IZR n.
Proof.
  intros Hr -> Hn.
  apply (rounds_in_format F64.prec F64.emax); [assumption| |].
  - apply (in_format_IZR F64.prec F64.emax prec_pos prec_lt_emax). exact Hn.
  - now apply IZR_abs_bound.
Qed.

Lemma of_int_exact n :
  Z.abs n <= 2 ^ 53 ->
  F64.valid (F64.of_int n) = true /\ F64.is_finite (F64.of_int n) = true /\
  SF2R (F64.of_int n) = IZR n.
Proof. intros Hn. eapply rounds_int; [apply of_int_rounds|reflexivity|assumption]. Qed.

Lemma positive_value_finite z :
  F64.is_finite z = true -> (0 < SF2R z)%R ->
  exists m e, z = S754_finite false m e.
Proof.
  destruct z as [s|s| |s m e]; try discriminate; intros _ Hz; simpl in Hz; [lra|].
  destruct s; [|eauto].
  simpl in Hz. rewrite F2R_opp in Hz. pose proof (F2R_pos_gt_0 m e). simpl in *. lra.
Qed.

Lemma value_nonneg_leb z :
  F64.valid z = true -> F64.is_finite z = true -> (0 <= SF2R z)%R ->
  F64.leb F64.zero z = true.
Proof. intros Vz Fz Hz. apply leb_SF2R; try assumption; try reflexivity. Qed.

Lemma of_int_Signbit n : 0 <= n -> Z.abs n <= 2 ^ 53 -> F64.Signbit (F64.of_int n) = false.
Proof.
  intros H0 Hn. destruct n as [|p|p]; [reflexivity| |lia].
  destruct (of_int_exact (Z.pos p) Hn) as (_ & Fz & Ez).
  destruct (positive_value_finite _ Fz) as (m & e & ->); [|reflexivity].
  rewrite Ez. apply IZR_lt. lia.
Qed.

(** ** The formula on integer inputs *)

Section IntegerRegime.

Variables K M R A : Z.
Hypothesis HK : 0 <= K <= 2 ^ 53.
Hypothesis HM : 0 < M.
Hypothesis HR : 0 <= R.
Hypothesis HA : 0 <= A <= 2 ^ 53.
Hypothesis HRM : R + M <= 2 ^ 53.
Hypothesis HKA : K * A <= 2 ^ 53.

(** Numerator and denominator are exact; the quotient is rounded once. *)
Lemma integer_quotient_rounds :
  rounds64 ((IZR R - IZR K * IZR A) / (IZR R + IZR M))
    (F64.div (F64.sub (F64.of_int R) (F64.mul (F64.of_int K) (F64.of_int A)))
             (F64.add (F64.of_int R) (F64.of_int M))).
Proof.
  assert (0 <= K * A) as HKA0 by nia.
  destruct (of_int_exact K ltac:(lia)) as (Vk & Fk & Ek).
  destruct (of_int_exact A ltac:(lia)) as (Va & Fa & Ea).
  destruct (of_int_exact R ltac:(lia)) as (Vr & Fr & Er).
  destruct (of_int_exact M ltac:(lia)) as (Vm & Fm & Em).
  destruct (rounds_int _ _ (K * A) (mul_rounds _ _ Vk Va Fk Fa)) as (Vc & Fc & Ec);
    [rewrite Ek, Ea, mult_IZR; reflexivity|lia|].
  destruct (rounds_int _ _ (R - K * A) (sub_rounds _ _ Vr Vc Fr Fc)) as (Vn & Fn & En);
    [rewrite Er, Ec, minus_IZR; reflexivity|lia|].
  destruct (rounds_int _ _ (R + M) (add_rounds _ _ Vr Vm Fr Fm)) as (Vd & Fd & Ed);
    [rewrite Er, Em, plus_IZR; reflexivity|lia|].
  destruct (positive_value_finite _ Fd) as (md & ed & Hd).
  { rewrite Ed. apply IZR_lt. lia. }
  rewrite Hd in *.
  pose proof (div_rounds _ false md ed Vn Vd Fn) as Hq.
  rewrite En, Ed, minus_IZR, plus_IZR, mult_IZR in Hq. exact Hq.
Qed.

End IntegerRegime.

(** ** The formula on integers *)

Abbreviation in_format64 := (in_format F64.prec F64.emax).

Lemma rounds_between64 x z lo hi :
  rounds64 x z -> in_format64 lo -> in_format64 hi ->
  (- bpow F64.emax < lo)%R -> (hi < bpow F64.emax)%R -> (lo <= x <= hi)%R ->
  F64.valid z = true /\ F64.is_finite z = true /\ (lo <= SF2R z <= hi)%R.
Proof. apply rounds_between. Qed.

Lemma in_format64_F2R m e :
  Zdigits2 m <= 53 -> -1074 <= e -> in_format64 (F2R m e).
Proof. apply (in_format_F2R F64.prec F64.emax). Qed.

Lemma in_format64_SF2R z :
  F64.valid z = true -> F64.is_finite z = true ->
  in_format64 (SF2R z) /\ (Rabs (SF2R z) < bpow F64.emax)%R.
Proof. apply (valid_in_format F64.prec F64.emax prec_pos prec_lt_emax). Qed.

(** The float just below one. *)
Lemma below_one : F2R (2 ^ 53 - 1) (-53) = (1 - bpow (-53))%R.
Proof.
  rewrite F2R_sub, F2R_bpow. f_equal.
  change (F2R (2 ^ 53) (-53)) with (F2R (1 * 2 ^ (0 - -53)) (-53)).
  rewrite <- (F2R_shift 1 0 (-53)) by lia. unfold F2R. rewrite bpow_0. lra.
Qed.

Lemma in_format_below_one : in_format64 (1 - bpow (-53)).
Proof. rewrite <- below_one. apply in_format64_F2R; [vm_compute; discriminate|lia]. Qed.

Lemma one_lt_bpow_emax : (1 < bpow F64.emax)%R.
Proof. rewrite <- bpow_0. apply bpow_lt. reflexivity. Qed.

Section IntegerRegimeBounds.

Variables K M R A : Z.
Hypothesis HK : 0 <= K <= 2 ^ 53.
Hypothesis HM : 0 < M.
Hypothesis HR : 0 <= R.
Hypothesis HA : 0 <= A <= 2 ^ 53.
Hypothesis HRM : R + M <= 2 ^ 53.
Hypothesis HKA : K * A <= 2 ^ 53.

Lemma integer_quotient_range :
  (IZR (- 2 ^ 53) <= (IZR R - IZR K * IZR A) / (IZR R + IZR M) <= 1 - bpow (-53))%R.
Proof.
  assert (0 <= K * A) as HKA0 by nia.
  assert (1 <= IZR R + IZR M <= bpow 53)%R as HD.
  { rewrite <- plus_IZR, bpow_IZR by lia. split; apply IZR_le; lia. }
  assert (- bpow 53 <= IZR R - IZR K * IZR A <= IZR R + IZR M - 1)%R as HN.
  { rewrite <- mult_IZR, <- minus_IZR, <- plus_IZR, bpow_IZR, <- opp_IZR by lia.
    change 1%R with (IZR 1). rewrite <- minus_IZR. split; apply IZR_le; lia. }
  assert (bpow 53 * bpow (-53) = 1)%R as Hb.
  { rewrite <- bpow_add. reflexivity. }
  pose proof (bpow_gt_0 (-53)) as Hb0. pose proof (bpow_gt_0 53) as Hb1.
  rewrite opp_IZR, <- bpow_IZR by lia.
  set (D := (IZR R + IZR M)%R) in *. set (N := (IZR R - IZR K * IZR A)%R) in *.
  split.
  - apply (Rmult_le_reg_r D); [lra|].
    unfold Rdiv. rewrite Rmult_assoc, Rinv_l by lra. nra.
  - apply (Rmult_le_reg_r D); [lra|].
    unfold Rdiv. rewrite Rmult_assoc, Rinv_l by lra. nra.
Qed.

(** On integer inputs the rejection probability is a number from zero
    up to, but not, one. *)
Lemma integer_probability_below_one :
  let p := rejectionProbability (F64.of_int K) (F64.of_int M) (F64.of_int R) (F64.of_int A) in
  F64.IsNaN p = false /\ F64.leb F64.zero p = true /\ F64.ltb p F64.one = true.
Proof.
  unfold rejectionProbability.
  pose proof (integer_quotient_rounds K M R A HK HM HR HA HRM HKA) as Hq.
  pose proof integer_quotient_range as Hx.
  destruct (rounds_between64 _ _ (IZR (- 2 ^ 53)) (1 - bpow (-53))%R Hq)
    as (Vq & Fq & Hv).
  - apply (in_format_IZR F64.prec F64.emax prec_pos prec_lt_emax).
    change F64.prec with 53. lia.
  - apply in_format_below_one.
  - rewrite opp_IZR, <- bpow_IZR by lia. pose proof bpow_53_lt_emax. lra.
  - pose proof one_lt_bpow_emax. pose proof (bpow_gt_0 (-53)). lra.
  - exact Hx.
  - set (q := F64.div _ _) in *.
    assert (F64.ltb q F64.one = true) as Hq1.
    { apply ltb_SF2R; try assumption; try reflexivity.
      rewrite SF2R_one. pose proof (bpow_gt_0 (-53)). lra. }
    destruct (Max_zero_cases q) as [[Hn _]|[(Hn & H1 & ->)|(Hn & H1 & ->)]].
    + destruct q; discriminate.
    + repeat split; try assumption.
      destruct (ltb_zero_cases q H1) as [->|(mq & eq & ->)]; reflexivity.
    + repeat split; reflexivity.
Qed.

End IntegerRegimeBounds.

Lemma Rdiv_lt_cross (a b c d : R) :
  (0 < b)%R -> (0 < d)%R -> (a * d < c * b)%R -> (a / b < c / d)%R.
Proof.
  intros Hb Hd H.
  apply (Rmult_lt_reg_r (b * d)); [nra|].
  replace (a / b * (b * d))%R with (a * d)%R by (field; lra).
  replace (c / d * (b * d))%R with (c * b)%R by (field; lra).
  exact H.
Qed.

(** On integer inputs the rejection probability does not shrink when the
    requests grow. *)
Lemma integer_probability_requests K M R1 R2 A :
  0 <= K <= 2 ^ 53 -> 0 < M -> 0 <= A <= 2 ^ 53 -> K * A <= 2 ^ 53 ->
  0 <= R1 -> R1 <= R2 -> R2 + M <= 2 ^ 53 ->
  F64.leb
    (rejectionProbability (F64.of_int K) (F64.of_int M) (F64.of_int R1) (F64.of_int A))
    (rejectionProbability (F64.of_int K) (F64.of_int M) (F64.of_int R2) (F64.of_int A))
  = true.
Proof.
  intros HK HM HA HKA HR1 HR12 HRM.
  destruct (Z.eq_dec R1 R2) as [->|Hne].
  - apply leb_refl.
    now apply (integer_probability_below_one K M R2 A).
  - apply Max_zero_mono.
    eapply (rounds_le F64.prec F64.emax).
    + apply (integer_quotient_rounds K M R1 A); lia.
    + apply (integer_quotient_rounds K M R2 A); lia.
    + assert (0 <= K * A) as HKA0 by nia.
      assert (0 < IZR R1 + IZR M)%R by (rewrite <- plus_IZR; apply IZR_lt; lia).
      assert (0 < IZR R2 + IZR M)%R by (rewrite <- plus_IZR; apply IZR_lt; lia).
      apply Rdiv_lt_cross; try assumption.
      assert (IZR R1 < IZR R2)%R by (apply IZR_lt; lia).
      assert (0 < IZR M)%R by (apply IZR_lt; lia).
      assert (0 <= IZR K * IZR A)%R by (rewrite <- mult_IZR; apply IZR_le; lia).
      nra.
Qed.

(** ** Overflow and cascading *)

(** With a finite ratio and a finite floor above zero the rejection
    probability is a number, unless both the product [k * accepts] and the
    sum [requests + minPerWindow] overflow. *)
Lemma rejectionProbability_not_nan k m r a :
  F64.valid k = true -> F64.valid m = true -> F64.valid r = true -> F64.valid a = true ->
  F64.is_finite k = true -> F64.is_finite m = true ->
  F64.is_finite r = true -> F64.Signbit r = false ->
  F64.is_finite a = true ->
  F64.leb F64.zero k = true -> F64.ltb F64.zero m = true -> F64.leb F64.zero a = true ->
  F64.is_finite (F64.mul k a) = true \/ F64.is_finite (F64.add r m) = true ->
  F64.IsNaN (rejectionProbability k m r a) = false.
Proof.
  intros Vk Vm Vr Va Fk Fm Fr Sr Fa Hk Hm Ha Hfin.
  assert (F64.leb F64.zero m = true) as Hm0.
  { destruct (ltb_zero_cases m Hm) as [->|(mm & em & ->)]; reflexivity. }
  pose proof (mul_rounds k a Vk Va Fk Fa) as Hc.
  pose proof (rounds_valid64 _ _ Hc) as Vc.
  destruct (mul_nonneg k a Vk Hk Va Fa Ha) as [N|[_ Hc0]].
  { rewrite (rounds_not_nan _ _ Hc) in N. discriminate. }
  destruct (sub_le_l r _ Vr Fr Vc Hc0) as (Vn & Nn & Hn).
  destruct (add_ge_l r m Vr Fr Sr Vm Hm0) as (Vd & Nd & Sd & _ & Hmd).
  pose proof (ltb_leb_zero m _ Hm Hmd) as Hd.
  unfold rejectionProbability.
  set (n := F64.sub r (F64.mul k a)) in *. set (d := F64.add r m) in *.
  assert (F64.IsNaN (F64.div n d) = false) as Hq.
  { destruct (ltb_zero_cases d Hd) as [Ed|(md & ed & Ed)].
    - destruct Hfin as [Fc|Fd]; [|rewrite Ed in Fd; discriminate].
      pose proof (sub_rounds r _ Vr Vc Fr Fc) as Hnr. fold n in Hnr.
      destruct (in_format64_SF2R _ Vc Fc) as [Ic Bc].
      destruct (in_format64_SF2R _ Vr Fr) as [Ir Br].
      apply Rabs_def2 in Bc, Br.
      pose proof (leb_zero_SF2R _ Hc0) as Hc1.
      pose proof (Signbit_false_SF2R _ Sr) as Hr1.
      destruct (rounds_between64 _ _ (- SF2R (F64.mul k a))%R (SF2R r) Hnr) as (_ & Fn & _);
        [now apply in_format_opp|assumption|lra|lra|lra|].
      rewrite Ed. destruct n; try discriminate; reflexivity.
    - rewrite Ed. apply div_not_nan; [assumption|assumption|]. rewrite <- Ed. assumption. }
  destruct (Max_zero_cases (F64.div n d)) as [[N _]|[(_ & _ & ->)|(_ & _ & ->)]];
    [congruence|assumption|reflexivity].
Qed.

(** ** Priority cascading *)

Lemma leb_tiny_positive q : F64.leb F64.tiny q = true -> F64.ltb F64.zero q = true.
Proof. destruct q as [?|[]| |[] ? ?]; try discriminate; reflexivity. Qed.

(** Every finite float is at most [2^1024 - 2^971]. *)
Lemma finite_le_max z :
  F64.valid z = true -> F64.is_finite z = true ->
  (SF2R z <= bpow 1024 - bpow 971)%R.
Proof.
  intros Vz Fz. pose proof (bpow_gt_0 971) as H971.
  assert (bpow 1024 = bpow 53 * bpow 971)%R as E by (rewrite <- bpow_add; reflexivity).
  pose proof (bpow_gt_0 53) as H53.
  assert (1 <= bpow 53)%R as H53' by (rewrite <- bpow_0; apply bpow_le; lia).
  destruct z as [s|s| |s mz ez]; try discriminate; simpl SF2R.
  - nra.
  - rewrite cond_Zopp_F2R. pose proof (F2R_pos_gt_0 mz ez) as Hpos.
    destruct s; [nra|].
    apply (valid_finite_canonical F64.prec F64.emax) in Vz as [Hc He].
    pose proof (canonical_digits F64.prec F64.emax mz ez Hc) as (Hd & _ & _).
    pose proof (digits2_pos_bounds mz) as [_ Hhi].
    assert (Z.pos mz <= 2 ^ 53 - 1) as Hmz.
    { assert (2 ^ Z.pos (digits2_pos mz) <= 2 ^ 53)
        by (apply Z.pow_le_mono_r; [lia|exact Hd]). lia. }
    apply IZR_le in Hmz. rewrite minus_IZR, <- bpow_IZR in Hmz by lia.
    assert (bpow ez <= bpow 971)%R by (apply bpow_le; exact He).
    pose proof (bpow_gt_0 ez). unfold F2R in *. nra.
Qed.

Section Cascading.

Variables k m : float64.
Variable F : Z.
Hypothesis Vk : F64.valid k = true.
Hypothesis Fk : F64.is_finite k = true.
Hypothesis Vm : F64.valid m = true.
Hypothesis Fm : F64.is_finite m = true.
Hypothesis Hm : F64.ltb F64.zero m = true.
Hypothesis HF : 0 < F <= 2 ^ 63.

(** Without traffic of its own and without failures before it, a priority
    is given the probability [+0]. *)
Lemma healthy_probability :
  rejectionProbability k m (F64.add (F64.of_int 0) (F64.of_int 0)) (F64.of_int 0)
  = F64.zero.
Proof.
  destruct (ltb_zero_cases m Hm) as [->|(mm & em & ->)]; [discriminate|].
  destruct k as [[]|[]| |[] mk ek]; try discriminate; reflexivity.
Qed.

(** With failures before it, it is given a probability above zero. *)
Lemma cascaded_probability :
  F64.ltb F64.zero
    (rejectionProbability k m (F64.add (F64.of_int 0) (F64.of_int F)) (F64.of_int 0))
  = true.
Proof.
  destruct (ltb_zero_cases m Hm) as [Em|(mm & em & Em)]; [rewrite Em in Fm; discriminate|].
  (* the failures, as a float *)
  destruct (rounds_between64 _ _ 1%R (bpow 63) (of_int_rounds F)) as (Vf & Ff & Hf).
  { change 1%R with (IZR 1). apply (in_format_IZR F64.prec F64.emax prec_pos prec_lt_emax).
    change F64.prec with 53. lia. }
  { rewrite <- F2R_bpow. apply in_format64_F2R; [simpl; lia|lia]. }
  { pose proof (bpow_gt_0 F64.emax). lra. }
  { apply bpow_lt. reflexivity. }
  { rewrite bpow_IZR by lia. split; apply IZR_le; lia. }
  destruct (positive_value_finite _ Ff) as (mf & ef & Ef); [lra|].
  unfold rejectionProbability.
  change (F64.of_int 0) with F64.zero. rewrite Ef in *.
  change (F64.add F64.zero (S754_finite false mf ef)) with (S754_finite false mf ef).
  assert (F64.sub (S754_finite false mf ef) (F64.mul k F64.zero) = S754_finite false mf ef) as ->.
  { destruct k as [[]|[]| |[] mk ek]; try discriminate; reflexivity. }
  (* the denominator does not overflow *)
  pose proof (add_rounds _ _ Vf Vm eq_refl Fm) as Hd.
  set (d := F64.add (S754_finite false mf ef) m) in *.
  pose proof (finite_le_max m Vm Fm) as Hmax.
  assert (0 < SF2R m)%R as Hm0.
  { rewrite Em. apply F2R_pos_gt_0. }
  assert (bpow 64 < bpow 971)%R as H64 by (apply bpow_lt; lia).
  assert (bpow 64 = 2 * bpow 63)%R as E64.
  { change 64 with (1 + 63). rewrite bpow_add, bpow_1. reflexivity. }
  assert (F64.valid d = true /\ F64.is_finite d = true /\
          (SF2R (S754_finite false mf ef) <= SF2R d < bpow 1024)%R) as (Vd & Fd & Hdv).
  { destruct Hd as (v & [Hfmt Hnear] & Hrep).
    destruct (in_format64_SF2R _ Vm Fm) as [Im _].
    destruct (in_format64_SF2R _ Vf Ff) as [If _].
    pose proof (Hnear _ Im) as Hn1.
    assert (SF2R (S754_finite false mf ef) <= v)%R as Hlo.
    { eapply (Rnd_below F64.prec F64.emax); [split; eassumption|exact If|lra]. }
    assert (v < bpow 1024)%R as Hhi.
    { revert Hn1. unfold Rabs. repeat destruct Rcase_abs; lra. }
    destruct Hrep as [(_ & Vd & Fd & Ed)|[[Hb _]|[Hb _]]].
    - rewrite Ed. auto.
    - change F64.emax with 1024 in Hb. lra.
    - pose proof (bpow_gt_0 F64.emax). lra. }
  destruct (positive_value_finite _ Fd) as (md & ed & Ed); [lra|].
  rewrite Ed in *.
  (* the quotient does not underflow to zero *)
  pose proof (div_rounds _ false md ed Vf Vd eq_refl) as Hq.
  assert (F64.leb F64.tiny (F64.div (S754_finite false mf ef) (S754_finite false md ed)) = true)
    as Htiny.
  { eapply (rounds_ge_format F64.prec F64.emax prec_pos prec_lt_emax);
      [exact Hq|reflexivity|reflexivity|].
    change (SF2R F64.tiny) with (F2R 1 (-1074)). rewrite F2R_bpow.
    assert (bpow (-1074) <= bpow (-1024))%R by (apply bpow_le; lia).
    assert (bpow (-1024) * bpow 1024 = 1)%R as E by (rewrite <- bpow_add; reflexivity).
    pose proof (bpow_gt_0 (-1024)).
    set (x := SF2R (S754_finite false mf ef)) in *.
    set (y := SF2R (S754_finite false md ed)) in *.
    assert (0 < y)%R by lra.
    apply Rle_trans with (bpow (-1024)); [assumption|].
    apply (Rmult_le_reg_r y); [assumption|].
    unfold Rdiv. rewrite Rmult_assoc, Rinv_l by lra. nra. }
  apply leb_tiny_positive in Htiny.
  destruct (Max_zero_cases (F64.div (S754_finite false mf ef) (S754_finite false md ed)))
    as [[N _]|[(_ & _ & ->)|(_ & H0 & _)]]; [|assumption|congruence].
  destruct (F64.div _ _); discriminate.
Qed.

End Cascading.

(** * Properties *)

(** ** Indexing and allocation *)

Lemma index_Some {A} (l : list A) (i : Z) (x : A) :
  index l i = Some x <-> 0 <= i /\ l !! Z.to_nat i = Some x.
Proof.
  unfold index. destruct (Z.ltb_spec i 0); split.
  - discriminate.
  - intros [? _]; lia.
  - auto.
  - intros [_ ?]; assumption.
Qed.

Lemma index_None {A} (l : list A) (i : Z) :
  index l i = None <-> i < 0 \/ Z.of_nat (length l) <= i.
Proof.
  unfold index. destruct (Z.ltb_spec i 0).
  - split; auto.
  - rewrite lookup_ge_None. split.
    + intros; right; lia.
    + intros [?|?]; lia.
Qed.

Lemma index_in_range {A} (l : list A) (i : Z) :
  0 <= i < Z.of_nat (length l) -> exists x, index l i = Some x.
Proof.
  intros Hi. destruct (index l i) as [x|] eqn:E; [eauto|].
  apply index_None in E. lia.
Qed.

Lemma index_insert_same {A} (l : list A) (i : Z) (x y : A) :
  index l i = Some x -> index (<[ Z.to_nat i := y ]> l) i = Some y.
Proof.
  rewrite !index_Some. intros [Hi Hl]. split; [assumption|].
  apply list_lookup_insert_eq. eapply lookup_lt_Some; eassumption.
Qed.

Lemma index_insert_other {A} (l : list A) (i j : Z) (y : A) :
  0 <= i -> j <> i -> index (<[ Z.to_nat i := y ]> l) j = index l j.
Proof.
  intros Hi Hne. unfold index. destruct (Z.ltb_spec j 0); [reflexivity|].
  apply list_lookup_insert_ne. lia.
Qed.

Lemma fill_lookup {A} (c : A) (idx : list nat) (l : list A) (j : nat) :
  foldl (fun l i => <[ i := c ]> l) l idx !! j =
  if bool_decide (j ∈ idx) then (fun _ => c) <$> l !! j else l !! j.
Proof.
  revert l. induction idx as [|i idx IH]; intros l; simpl.
  - reflexivity.
  - rewrite IH. destruct (decide (j = i)) as [->|Hne].
    + rewrite (bool_decide_eq_true_2 (i ∈ i :: idx)) by (apply elem_of_cons; now left).
      destruct (l !! i) as [x|] eqn:E.
      * rewrite list_lookup_insert_eq by (eapply lookup_lt_Some; eassumption).
        now destruct (bool_decide (i ∈ idx)).
      * assert (<[i:=c]> l !! i = None) as ->.
        { apply lookup_ge_None. rewrite length_insert. now apply lookup_ge_None. }
        now destruct (bool_decide (i ∈ idx)).
    + rewrite list_lookup_insert_ne by congruence.
      destruct (decide (j ∈ idx)).
      * rewrite !bool_decide_eq_true_2
          by (try apply elem_of_cons; auto). reflexivity.
      * rewrite !bool_decide_eq_false_2
          by (try rewrite elem_of_cons; intuition). reflexivity.
Qed.

Lemma fill_all {A} (c : A) (l : list A) :
  foldl (fun l i => <[ i := c ]> l) l (seq 0 (length l)) = replicate (length l) c.
Proof.
  apply list_eq. intros j. rewrite fill_lookup.
  destruct (decide (j < length l)%nat) as [Hlt|Hge].
  - rewrite bool_decide_eq_true_2 by (apply elem_of_seq; lia).
    destruct (lookup_lt_is_Some_2 l j Hlt) as [x ->]. simpl.
    symmetry. now apply lookup_replicate_2.
  - rewrite bool_decide_eq_false_2 by (rewrite elem_of_seq; lia).
    rewrite (proj2 (lookup_ge_None l j)) by lia.
    symmetry. apply lookup_ge_None. rewrite length_replicate. lia.
Qed.

Section ThrottleFacts.

Context {C : Type} `{WindowedCounter C} `{GoZero C}.
Context {error : Type} `{Faults error}.

Implicit Types (th : AdaptiveThrottle C error) (p : Z) (now : Time).

Lemma fillCounters_split (now : Time) (d : Duration) (idx : list nat)
    (rs acs : list C) :
  foldl (fun '(rs, acs) i =>
           (<[ i := newWindowedCounter now (Z.quot d 10) 10 ]> rs,
            <[ i := newWindowedCounter now (Z.quot d 10) 10 ]> acs))
        (rs, acs) idx =
  (foldl (fun l i => <[ i := newWindowedCounter now (Z.quot d 10) 10 ]> l) rs idx,
   foldl (fun l i => <[ i := newWindowedCounter now (Z.quot d 10) 10 ]> l) acs idx).
Proof.
  revert rs acs. induction idx as [|i idx IH]; intros rs acs; simpl.
  - reflexivity.
  - apply IH.
Qed.

Lemma fillCounters_replicate (now : Time) (d : Duration) (n : nat) (z : C) :
  fillCounters now d (replicate n z) (replicate n z) =
  (replicate n (newWindowedCounter now (Z.quot d 10) 10),
   replicate n (newWindowedCounter now (Z.quot d 10) 10)).
Proof.
  unfold fillCounters. rewrite fillCounters_split.
  pose proof (fill_all (newWindowedCounter now (Z.quot d 10) 10) (replicate n z)) as E.
  rewrite length_replicate in E. rewrite length_replicate, E. reflexivity.
Qed.

(** What the constructor builds, for any options. *)
Lemma NewAdaptiveThrottle_eq (priorities : Z)
    (options : list AdaptiveThrottleOption) (now : Time) :
  NewAdaptiveThrottle priorities options now =
  if priorities <? 0 then Panics
  else
    let opts := foldl (fun opts option => option opts) defaultOptions options in
    let c := newWindowedCounter now (Z.quot (opt_d opts) 10) 10 in
    Returns {| k := opt_k opts;
               minPerWindow := F64.mul (opt_minRate opts) (Seconds (opt_d opts));
               isErrorAccepted := opt_isErrorAccepted opts;
               requests := replicate (Z.to_nat priorities) c;
               accepts := replicate (Z.to_nat priorities) c |}.
Proof.
  unfold NewAdaptiveThrottle, make.
  destruct (priorities <? 0); [reflexivity|].
  rewrite fillCounters_replicate. reflexivity.
Qed.

Lemma NewAdaptiveThrottle_length priorities options now th :
  NewAdaptiveThrottle priorities options now = Returns th ->
  0 <= priorities /\
  Z.of_nat (length (requests th)) = priorities /\
  Z.of_nat (length (accepts th)) = priorities.
Proof.
  rewrite NewAdaptiveThrottle_eq.
  destruct (Z.ltb_spec priorities 0); [discriminate|].
  intros [= <-]; simpl. rewrite !length_replicate. lia.
Qed.

End ThrottleFacts.

Section Calls.

Context {C : Type} `{WindowedCounter C} `{GoZero C}.
Context {error : Type} `{Faults error}.
Context {T : Type} `{GoZero T}.

Implicit Types (th : AdaptiveThrottle C error) (p : Z) (now : Time)
  (f : unit -> T * option error) (u : float64).

Lemma cascade_zip th now (n : nat) : forall (i : Z) (acc : float64),
  0 <= i ->
  i + Z.of_nat n <= Z.of_nat (length (requests th)) ->
  i + Z.of_nat n <= Z.of_nat (length (accepts th)) ->
  cascade th now i n acc =
  Some (foldl (fun acc '(rc, ac) => F64.add acc (F64.of_int (get rc now - get ac now)))
              acc
              (zip (take n (drop (Z.to_nat i) (requests th)))
                   (take n (drop (Z.to_nat i) (accepts th))))).
Proof.
  induction n as [|n IH]; intros i acc Hi Hr Ha; simpl.
  - reflexivity.
  - destruct (index_in_range (requests th) i ltac:(lia)) as [rc Hrc].
    destruct (index_in_range (accepts th) i ltac:(lia)) as [ac Hac].
    rewrite Hrc, Hac.
    apply index_Some in Hrc as [_ Hrc]. apply index_Some in Hac as [_ Hac].
    rewrite (drop_S _ _ _ Hrc), (drop_S _ _ _ Hac). simpl.
    rewrite IH by lia. replace (Z.to_nat (i + 1)) with (S (Z.to_nat i)) by lia.
    reflexivity.
Qed.

Lemma readCounters_in_range th p now rc ac :
  index (requests th) p = Some rc ->
  index (accepts th) p = Some ac ->
  readCounters th p now =
  Some (requestsWithHigherPriorities th p now rc, F64.of_int (get ac now)).
Proof.
  intros Hrc Hac. unfold readCounters. rewrite Hrc, Hac.
  apply index_Some in Hrc as [Hp Hrc]. apply index_Some in Hac as [_ Hac].
  apply lookup_lt_Some in Hrc, Hac.
  rewrite cascade_zip by lia. reflexivity.
Qed.

Lemma readCounters_out_of_range th p now :
  p < 0 \/ Z.of_nat (length (requests th)) <= p ->
  readCounters th p now = None.
Proof.
  intros Hp. unfold readCounters.
  now rewrite (proj2 (index_None (requests th) p) Hp).
Qed.

Lemma readCounters_Some th p now rq a :
  readCounters th p now = Some (rq, a) ->
  exists rc ac, index (requests th) p = Some rc /\ index (accepts th) p = Some ac.
Proof.
  unfold readCounters.
  destruct (index (requests th) p) as [rc|]; [|discriminate].
  destruct (index (accepts th) p) as [ac|]; [|discriminate].
  eauto.
Qed.

(** C1: in a call for an in-range priority [p] the first critical section
    reads, as [accepts], the accept count of [p] and, as [requests], the
    request count of [p] plus the non-accepted requests of every priority
    before [p]; the rejection probability is
    [max(0, (requests - k*accepts) / (requests + minPerWindow))], and the
    call runs the work exactly when the draw is not below it. *)
Theorem rejection_probability_formula th p f now u now' rc ac :
  index (requests th) p = Some rc ->
  index (accepts th) p = Some ac ->
  let rq := requestsWithHigherPriorities th p now rc in
  let a := F64.of_int (get ac now) in
  let rp := F64.Max F64.zero
              (F64.div (F64.sub rq (F64.mul (k th) a))
                       (F64.add rq (minPerWindow th))) in
  readCounters th p now = Some (rq, a) /\
  rejectionProbability (k th) (minPerWindow th) rq a = rp /\
  (F64.ltb u rp = true ->
     trace (WithAdaptiveThrottle th p f now u now') = [Lock; Unlock; Lock; Unlock]) /\
  (F64.ltb u rp = false ->
     trace (WithAdaptiveThrottle th p f now u now')
     = [Lock; Unlock; Work; Lock; Unlock]).
Proof.
  intros Hrc Hac rq a rp.
  pose proof (readCounters_in_range th p now rc ac Hrc Hac) as Hread.
  split; [exact Hread|]. split; [reflexivity|].
  unfold WithAdaptiveThrottle. rewrite Hread. fold rq a.
  change (rejectionProbability (k th) (minPerWindow th) rq a) with rp.
  unfold recordRequest, recordAccept; simpl. rewrite Hrc.
  split; intros ->; [reflexivity|].
  destruct (f tt) as [t err]. simpl. rewrite Hac.
  now destruct (match err with Some e => isErrorAccepted th e | None => true end).
Qed.

(** C2: a self-rejected call returns the zero value with the client-side
    rejection error, never runs the work (its result does not depend on
    it), adds one request, at the instant the call started, to the request
    counter of its priority and leaves every other counter as it was. *)
Theorem rejected_call_counts_request th p f now u now' rq a :
  readCounters th p now = Some (rq, a) ->
  F64.ltb u (rejectionProbability (k th) (minPerWindow th) rq a) = true ->
  let r := WithAdaptiveThrottle th p f now u now' in
  returned r = Returns (go_zero, Some DefaultClientSideRejectionError) /\
  (Work ∉ trace r) /\
  (forall g : unit -> T * option error, WithAdaptiveThrottle th p g now u now' = r) /\
  (exists rc, index (requests th) p = Some rc /\
              index (requests (after r)) p = Some (add rc now 1)) /\
  (forall i, i <> p -> index (requests (after r)) i = index (requests th) i) /\
  accepts (after r) = accepts th /\
  k (after r) = k th /\ minPerWindow (after r) = minPerWindow th.
Proof.
  intros Hread Hlt r.
  destruct (readCounters_Some _ _ _ _ _ Hread) as (rc & ac & Hrc & Hac).
  assert (Er : forall g, WithAdaptiveThrottle th p g now u now' =
            {| returned := Returns (go_zero, Some DefaultClientSideRejectionError);
               after := {| k := k th; minPerWindow := minPerWindow th;
                           isErrorAccepted := isErrorAccepted th;
                           requests := <[ Z.to_nat p := add rc now 1 ]> (requests th);
                           accepts := accepts th |};
               trace := [Lock; Unlock; Lock; Unlock] |}).
  { intros g. unfold WithAdaptiveThrottle. rewrite Hread, Hlt.
    unfold recordRequest. now rewrite Hrc. }
  subst r. rewrite (Er f). simpl. repeat split.
  - intros Hin. repeat (apply elem_of_cons in Hin as [Hin|Hin]; [discriminate|]).
    now apply elem_of_nil in Hin.
  - intros g. apply Er.
  - exists rc. split; [assumption|]. eapply index_insert_same; eassumption.
  - intros i Hi. apply index_insert_other; [|assumption].
    now apply index_Some in Hrc.
Qed.

Lemma unrejected_call_runs_work th p f now u now' rq a :
  readCounters th p now = Some (rq, a) ->
  F64.ltb u (rejectionProbability (k th) (minPerWindow th) rq a) = false ->
  returned (WithAdaptiveThrottle th p f now u now') = Returns (f tt) /\
  trace (WithAdaptiveThrottle th p f now u now') = [Lock; Unlock; Work; Lock; Unlock].
Proof.
  intros Hread Hlt.
  destruct (readCounters_Some _ _ _ _ _ Hread) as (rc & ac & Hrc & Hac).
  unfold WithAdaptiveThrottle. rewrite Hread, Hlt.
  destruct (f tt) as [t err]. unfold recordRequest, recordAccept. simpl.
  rewrite Hrc. simpl. rewrite Hac.
  destruct (match err with Some e => isErrorAccepted th e | None => true end);
    simpl; split; reflexivity.
Qed.

(** C3: a call that is not self-rejected runs the work once, between its
    two critical sections, and returns the work's value and error as they
    are; it adds one request to the request counter of its priority and,
    exactly when the error is nil or accepted by [isErrorAccepted], one
    accept to the accept counter of its priority. *)
Theorem unrejected_call_passes_through th p f now u now' rq a :
  readCounters th p now = Some (rq, a) ->
  F64.ltb u (rejectionProbability (k th) (minPerWindow th) rq a) = false ->
  let r := WithAdaptiveThrottle th p f now u now' in
  let accepted := match snd (f tt) with
                  | None => true
                  | Some e => isErrorAccepted th e
                  end in
  returned r = Returns (f tt) /\
  trace r = [Lock; Unlock; Work; Lock; Unlock] /\
  (exists rc ac,
      index (requests th) p = Some rc /\ index (accepts th) p = Some ac /\
      requests (after r) = <[ Z.to_nat p := add rc now' 1 ]> (requests th) /\
      accepts (after r) =
        if accepted then <[ Z.to_nat p := add ac now' 1 ]> (accepts th)
        else accepts th) /\
  k (after r) = k th /\ minPerWindow (after r) = minPerWindow th.
Proof.
  intros Hread Hlt r accepted.
  destruct (readCounters_Some _ _ _ _ _ Hread) as (rc & ac & Hrc & Hac).
  subst r accepted. unfold WithAdaptiveThrottle. rewrite Hread, Hlt.
  destruct (f tt) as [t err]. unfold recordRequest, recordAccept. simpl.
  rewrite Hrc. simpl. rewrite Hac.
  destruct (match err with Some e => isErrorAccepted th e | None => true end);
    simpl; repeat split; exists rc, ac; auto.
Qed.

Lemma out_of_range_panics th p f now u now' :
  p < 0 \/ Z.of_nat (length (requests th)) <= p ->
  WithAdaptiveThrottle th p f now u now' =
  {| returned := Panics; after := th; trace := [Lock] |}.
Proof.
  intros Hp. unfold WithAdaptiveThrottle.
  now rewrite readCounters_out_of_range.
Qed.


End Calls.

Section Construction.

Context {C : Type} `{WindowedCounter C} `{GoZero C}.
Context {error : Type} `{Faults error}.
Context {T : Type} `{GoZero T}.

Implicit Types (th : AdaptiveThrottle C error) (p : Z) (now : Time)
  (f : unit -> T * option error) (u : float64).


Lemma default_minPerWindow :
  F64.mul F64.one (Seconds Minute) = F64.of_int 60.
Proof. vm_compute. reflexivity. Qed.

(** C9: without options the constructor returns (for a number of
    priorities that is not negative) a throttle with [k = 2], with
    [minPerWindow] the minimum rate [1] times the sixty seconds of the
    window, that is [60], with counters of ten buckets of six seconds, and
    with the predicate that accepts exactly the eight listed classes. *)
Theorem default_configuration priorities now0 :
  NewAdaptiveThrottle (C:=C) (error:=error) priorities [] now0 =
    (if priorities <? 0 then Panics
     else Returns {| k := F64.of_int 2;
                     minPerWindow := F64.mul (F64.of_int 1) (Seconds (60 * Second));
                     isErrorAccepted := DefaultAcceptedErrors;
                     requests := replicate (Z.to_nat priorities)
                                   (newWindowedCounter now0 (6 * Second) 10);
                     accepts := replicate (Z.to_nat priorities)
                                  (newWindowedCounter now0 (6 * Second) 10) |}) /\
  Seconds (60 * Second) = F64.of_int 60 /\
  F64.mul (F64.of_int 1) (Seconds (60 * Second)) = F64.of_int 60 /\
  10 * (6 * Second) = 60 * Second /\
  forall e : error,
    DefaultAcceptedErrors e = true <->
    IsCanceled e = true \/ IsUnauthenticated e = true \/
    IsPermissionDenied e = true \/ IsBad e = true \/ IsAborted e = true \/
    IsNotFound e = true \/ IsFailedPrecondition e = true \/
    IsUnimplemented e = true.
Proof.
  split; [|split; [|split; [|split]]].
  - rewrite NewAdaptiveThrottle_eq. reflexivity.
  - vm_compute. reflexivity.
  - vm_compute. reflexivity.
  - reflexivity.
  - intros e. unfold DefaultAcceptedErrors.
    rewrite !orb_true_iff. tauto.
Qed.

Lemma cascade_zero th now (n : nat) : forall i : Z,
  0 <= i ->
  (forall j, i <= j < i + Z.of_nat n ->
     exists rc ac, index (requests th) j = Some rc /\
                   index (accepts th) j = Some ac /\
                   get rc now = 0 /\ get ac now = 0) ->
  cascade th now i n F64.zero = Some F64.zero.
Proof.
  induction n as [|n IH]; intros i Hi Hz; simpl.
  - reflexivity.
  - destruct (Hz i ltac:(lia)) as (rc & ac & -> & -> & -> & ->).
    simpl. change (F64.add F64.zero (F64.of_int 0)) with F64.zero.
    apply IH; [lia|]. intros j Hj. apply Hz. lia.
Qed.

Lemma rejectionProbability_zero (kk mpw : float64) :
  let rp := rejectionProbability kk mpw F64.zero F64.zero in
  (rp = F64.zero \/ rp = F64.NaN) /\
  (F64.eqb mpw F64.zero = true -> rp = F64.NaN) /\
  (F64.is_finite kk = true -> F64.eqb mpw F64.zero = false ->
   F64.IsNaN mpw = false -> rp = F64.zero).
Proof.
  destruct kk as [[]|[]| |[] mk ek], mpw as [[]|[]| |[] mm em];
    cbn; repeat split; auto; intros; discriminate.
Qed.

Lemma not_below_zero_or_nan u (rp : float64) :
  F64.leb F64.zero u = true ->
  rp = F64.zero \/ rp = F64.NaN ->
  F64.ltb u rp = false.
Proof.
  intros Hu [-> | ->].
  - destruct u as [[]|[]| |[] mu eu]; try discriminate; reflexivity.
  - destruct u as [[]|[]| |[] mu eu]; reflexivity.
Qed.

(** C10: when the counters of priority [p] and of every priority before
    it read zero, as on a throttle that has just been built, the rejection
    probability is [+0] or NaN (NaN whenever [minPerWindow] is zero; [+0]
    for a finite [k] and a [minPerWindow] that is neither zero nor NaN), no
    draw of [[0, 1)] is below it, and the call runs the work and returns
    what the work returned. *)
Theorem first_call_runs_work th p f now u now' :
  0 <= p ->
  (forall j, 0 <= j <= p ->
     exists rc ac, index (requests th) j = Some rc /\
                   index (accepts th) j = Some ac /\
                   get rc now = 0 /\ get ac now = 0) ->
  F64.leb F64.zero u = true ->
  let rp := rejectionProbability (k th) (minPerWindow th) F64.zero F64.zero in
  let r := WithAdaptiveThrottle th p f now u now' in
  readCounters th p now = Some (F64.zero, F64.zero) /\
  (rp = F64.zero \/ rp = F64.NaN) /\
  (F64.eqb (minPerWindow th) F64.zero = true -> rp = F64.NaN) /\
  (F64.is_finite (k th) = true -> F64.eqb (minPerWindow th) F64.zero = false ->
   F64.IsNaN (minPerWindow th) = false -> rp = F64.zero) /\
  F64.ltb u rp = false /\
  returned r = Returns (f tt) /\
  trace r = [Lock; Unlock; Work; Lock; Unlock].
Proof.
  intros Hp Hz Hu rp r.
  assert (Hread : readCounters th p now = Some (F64.zero, F64.zero)).
  { unfold readCounters.
    destruct (Hz p ltac:(lia)) as (rc & ac & -> & -> & -> & ->).
    change (F64.of_int 0) with F64.zero.
    rewrite cascade_zero; [reflexivity|lia|].
    intros j Hj. apply Hz. lia. }
  destruct (rejectionProbability_zero (k th) (minPerWindow th)) as (H01 & Hm0 & Hfin).
  pose proof (not_below_zero_or_nan u _ Hu H01) as Hlt.
  destruct (unrejected_call_runs_work th p f now u now' _ _ Hread Hlt)
    as (Hret & Htr).
  repeat split; assumption.
Qed.

End Construction.

(** ** The theorems at concrete inputs *)

Section Witnesses.

Import ExampleFaults.


(** C1 on the overloaded throttle, for priority 1: its own counters read
    zero, the hundred failures of priority 0 make its requests. *)
Lemma rejection_probability_formula_witness :
  let th := overloaded2 in
  let c := newWindowedCounter 0 (Z.quot Minute 10) 10 in
  let rq := requestsWithHigherPriorities th 1 0 c in
  let a := F64.of_int (get c 0) in
  let rp := F64.Max F64.zero
              (F64.div (F64.sub rq (F64.mul (k th) a))
                       (F64.add rq (minPerWindow th))) in
  readCounters th 1 0 = Some (rq, a) /\
  rejectionProbability (k th) (minPerWindow th) rq a = rp /\
  (F64.ltb F64.zero rp = true ->
     trace (WithAdaptiveThrottle th 1 work_ok 0 F64.zero 5) = [Lock; Unlock; Lock; Unlock]) /\
  (F64.ltb F64.zero rp = false ->
     trace (WithAdaptiveThrottle th 1 work_ok 0 F64.zero 5)
     = [Lock; Unlock; Work; Lock; Unlock]).
Proof.
  apply (rejection_probability_formula overloaded2 1 work_ok 0 F64.zero 5
           (newWindowedCounter 0 (Z.quot Minute 10) 10)
           (newWindowedCounter 0 (Z.quot Minute 10) 10)); reflexivity.
Defined.

(** C2 on the overloaded throttle: the draw [0] is below [100/160]. *)
Lemma rejected_call_counts_request_witness :
  let th := overloaded2 in
  let r := WithAdaptiveThrottle th 0 work_ok 0 F64.zero 5 in
  returned r = Returns (0, Some (UnavailableAfter Second)) /\
  (Work ∉ trace r) /\
  get (nth 0 (requests (after r)) go_zero) 0 = 101 /\
  get (nth 0 (requests th) go_zero) 0 = 100 /\
  accepts (after r) = accepts th.
Proof.
  destruct (rejected_call_counts_request overloaded2 0 work_ok 0 F64.zero 5
              (F64.of_int 100) (F64.of_int 0))
    as (Hret & Hwork & _ & _ & _ & Hacc & _).
  - vm_compute. reflexivity.
  - vm_compute. reflexivity.
  - repeat split; try assumption; vm_compute; reflexivity.
Defined.

(** C3 on the overloaded throttle: the draw [3/4] is not below [100/160],
    the failing work runs and its error comes back. *)
Lemma unrejected_call_passes_through_witness :
  let th := overloaded2 in
  let r := WithAdaptiveThrottle th 0 work_fails 0
             (F64.div (F64.of_int 3) (F64.of_int 4)) 5 in
  returned r = Returns (0, Some Internal) /\
  trace r = [Lock; Unlock; Work; Lock; Unlock] /\
  get (nth 0 (requests (after r)) go_zero) 5 = 101 /\
  accepts (after r) = accepts th.
Proof.
  destruct (unrejected_call_passes_through overloaded2 0 work_fails 0
              (F64.div (F64.of_int 3) (F64.of_int 4)) 5
              (F64.of_int 100) (F64.of_int 0))
    as (Hret & Htr & _).
  - vm_compute. reflexivity.
  - vm_compute. reflexivity.
  - repeat split; try assumption; vm_compute; reflexivity.
Defined.


(** C10 on the throttle that was just built, for its lower priority. *)
Lemma first_call_runs_work_witness :
  exists th, fresh2 = Returns th /\
    returned (WithAdaptiveThrottle th 1 work_fails 3 F64.zero 5)
    = Returns (0, Some Internal).
Proof.
  destruct fresh2 as [th|] eqn:E; [|discriminate E].
  exists th. split; [reflexivity|].
  injection E as <-.
  apply (first_call_runs_work _ 1 work_fails 3 F64.zero 5).
  - lia.
  - intros j Hj. assert (j = 0 \/ j = 1) as [-> | ->] by lia;
      do 2 eexists; (split; [reflexivity|]); (split; [reflexivity|]);
      split; vm_compute; reflexivity.
  - reflexivity.
Defined.

End Witnesses.

(** * The bounds and the monotonicity of the formula *)

Lemma count_nonneg x : F64.count x -> F64.leb F64.zero x = true.
Proof.
  intros (_ & Fx & Sx).
  destruct x as [s|s| |s m e]; try discriminate; simpl in Sx; subst s; reflexivity.
Qed.


(** C5, as binary64 has it.  For fixed requests, a larger accept count
    never gives a larger rejection probability (when neither is NaN).  For
    fixed accepts, a larger request count never gives a smaller one on
    integer inputs without rounding before the division. *)
Theorem rejection_probability_monotone :
  (forall k m r a1 a2 : float64,
     F64.nonneg k -> F64.valid m = true -> F64.ltb F64.zero m = true ->
     F64.count r ->
     F64.valid a1 = true -> F64.is_finite a1 = true -> F64.leb F64.zero a1 = true ->
     F64.valid a2 = true -> F64.is_finite a2 = true -> F64.leb a1 a2 = true ->
     F64.IsNaN (rejectionProbability k m r a1) = true \/
     F64.IsNaN (rejectionProbability k m r a2) = true \/
     F64.leb (rejectionProbability k m r a2) (rejectionProbability k m r a1) = true) /\
  (forall K M R1 R2 A : Z,
     exact_integers K M R1 A -> exact_integers K M R2 A -> R1 <= R2 ->
     F64.leb
       (rejectionProbability (F64.of_int K) (F64.of_int M) (F64.of_int R1) (F64.of_int A))
       (rejectionProbability (F64.of_int K) (F64.of_int M) (F64.of_int R2) (F64.of_int A))
     = true).
Proof.
  split.
  - intros k m r a1 a2 (Vk & Hk) Vm Hm (Vr & Fr & Sr) V1 F1 H1 V2 F2 H12.
    now apply rejectionProbability_accepts.
  - intros K M R1 R2 A (HK & HM & HR1 & HA & _ & HKA) (_ & _ & _ & _ & HRM & _) H12.
    now apply integer_probability_requests.
Qed.

Section Cascade.

Context {C : Type} `{WindowedCounter C} `{GoZero C}.
Context {error : Type} `{Faults error}.

Implicit Types (th : AdaptiveThrottle C error) (now : Time).

Lemma readCounters_second th now rc0 rc1 ac0 ac1 :
  requests th = [rc0; rc1] -> accepts th = [ac0; ac1] ->
  readCounters th 1 now =
  Some (F64.add (F64.of_int (get rc1 now)) (F64.of_int (get rc0 now - get ac0 now)),
        F64.of_int (get ac1 now)).
Proof.
  intros Hr Ha.
  rewrite (readCounters_in_range th 1 now rc1 ac1).
  - unfold requestsWithHigherPriorities. rewrite Hr, Ha. reflexivity.
  - unfold index. rewrite Hr. reflexivity.
  - unfold index. rewrite Ha. reflexivity.
Qed.

(** C8, with the configuration it needs.  On a throttle of two priorities
    with a finite [k] and a finite [minPerWindow] above zero, when priority 1
    has no requests and no accepts in the window: if the requests of
    priority 0 were all accepted the rejection probability of priority 1 is
    [+0]; if some (at most [2^63]) were not, it is above zero. *)
Theorem priority_cascading th th' now rc0 rc1 ac0 ac1 rc0' rc1' ac0' ac1' :
  requests th = [rc0; rc1] -> accepts th = [ac0; ac1] ->
  requests th' = [rc0'; rc1'] -> accepts th' = [ac0'; ac1'] ->
  k th' = k th -> minPerWindow th' = minPerWindow th ->
  F64.valid (k th) = true -> F64.is_finite (k th) = true ->
  F64.valid (minPerWindow th) = true -> F64.is_finite (minPerWindow th) = true ->
  F64.ltb F64.zero (minPerWindow th) = true ->
  get rc1 now = 0 -> get ac1 now = 0 -> get rc1' now = 0 -> get ac1' now = 0 ->
  0 < get rc0 now - get ac0 now <= 2 ^ 63 ->
  get rc0' now - get ac0' now = 0 ->
  exists rq a rq' a',
    readCounters th 1 now = Some (rq, a) /\
    readCounters th' 1 now = Some (rq', a') /\
    rejectionProbability (k th') (minPerWindow th') rq' a' = F64.zero /\
    F64.ltb (rejectionProbability (k th') (minPerWindow th') rq' a')
            (rejectionProbability (k th) (minPerWindow th) rq a) = true.
Proof.
  intros Hr Ha Hr' Ha' Ek Em Vk Fk Vm Fm Hm Z1 Z2 Z1' Z2' HF HF'.
  do 4 eexists. split; [|split; [|split]].
  - apply (readCounters_second th now rc0 rc1 ac0 ac1 Hr Ha).
  - apply (readCounters_second th' now rc0' rc1' ac0' ac1' Hr' Ha').
  - rewrite Ek, Em, Z1', Z2', HF'. now apply healthy_probability.
  - rewrite Ek, Em, Z1', Z2', HF', Z1, Z2.
    rewrite (healthy_probability (k th) (minPerWindow th)) by assumption.
    now apply cascaded_probability.
Qed.

End Cascade.

(** ** The formula at concrete inputs *)

Section FormulaWitnesses.

Import ExampleFaults.



(** C5, as the claim words it, fails in the requests: at the default
    ratio and floor, one request more on top of 18014398509481929 lowers the
    probability by one unit in the last place. *)
Lemma rejection_probability_not_monotone :
  ~ (forall k m r1 r2 a : float64,
       F64.nonneg k -> F64.valid m = true -> F64.ltb F64.zero m = true ->
       F64.count r1 -> F64.count r2 -> F64.count a -> F64.leb r1 r2 = true ->
       F64.leb (rejectionProbability k m r1 a) (rejectionProbability k m r2 a) = true).
Proof.
  intros Hall.
  specialize (Hall F64.two (F64.of_int 60)
                (F64.of_int 18014398509481929) (F64.of_int 18014398509481930)
                (F64.of_int 0)).
  discriminate Hall; repeat split.
Qed.

(** C5 at the default ratio and floor: ten and twenty accepts of a hundred
    requests, a hundred and a hundred and one requests with ten accepts. *)
Lemma rejection_probability_monotone_witness :
  let p (R A : Z) := rejectionProbability (F64.of_int 2) (F64.of_int 60)
                                          (F64.of_int R) (F64.of_int A) in
  (F64.IsNaN (p 100 10) = true \/ F64.IsNaN (p 100 20) = true \/
   F64.leb (p 100 20) (p 100 10) = true) /\
  F64.leb (p 100 10) (p 101 10) = true.
Proof.
  destruct rejection_probability_monotone as [Hacc Hreq].
  split.
  - apply (Hacc (F64.of_int 2) (F64.of_int 60) (F64.of_int 100)
             (F64.of_int 10) (F64.of_int 20)); repeat split.
  - apply (Hreq 2 60 100 101 10); unfold exact_integers; lia.
Defined.

(** C8, as the claim words it, fails without a floor: on a throttle built
    with a minimum rate of zero, the probability of the idle priority 1 is
    NaN when the hundred requests of priority 0 were all accepted, and no
    float is above NaN. *)
Lemma cascading_needs_floor :
  exists th0 rq a rq' a',
    unfloored2 = Returns th0 /\
    k unfloored2_healthy = k th0 /\
    minPerWindow unfloored2_healthy = minPerWindow th0 /\
    k unfloored2_overloaded = k th0 /\
    minPerWindow unfloored2_overloaded = minPerWindow th0 /\
    readCounters unfloored2_healthy 1 0 = Some (rq', a') /\
    readCounters unfloored2_overloaded 1 0 = Some (rq, a) /\
    rejectionProbability (k th0) (minPerWindow th0) rq' a' = F64.NaN /\
    F64.ltb (rejectionProbability (k th0) (minPerWindow th0) rq' a')
            (rejectionProbability (k th0) (minPerWindow th0) rq a) = false.
Proof.
  destruct unfloored2 as [th0|] eqn:E; [|discriminate E].
  injection E as <-. do 5 eexists.
  split; [reflexivity|]. do 4 (split; [reflexivity|]).
  split; [vm_compute; reflexivity|].
  split; [vm_compute; reflexivity|].
  split; vm_compute; reflexivity.
Qed.

(** C8 with the default options: a hundred requests of priority 0, all of
    them accepted on one throttle, none of them on the other. *)
Lemma priority_cascading_witness :
  exists rq a rq' a',
    readCounters overloaded2 1 0 = Some (rq, a) /\
    readCounters healthy2 1 0 = Some (rq', a') /\
    rejectionProbability (k healthy2) (minPerWindow healthy2) rq' a' = F64.zero /\
    F64.ltb (rejectionProbability (k healthy2) (minPerWindow healthy2) rq' a')
            (rejectionProbability (k overloaded2) (minPerWindow overloaded2) rq a) = true.
Proof.
  pose (c := newWindowedCounter (C:=SpecCounter.counter) 0 (Z.quot Minute 10) 10).
  apply (priority_cascading overloaded2 healthy2 0
           (add c 0 100) c c c (add c 0 100) c (add c 0 100) c);
    try reflexivity.
  vm_compute. split; [reflexivity|]. intros Hgt. discriminate Hgt.
Defined.

End FormulaWitnesses.

(** * More of the throttle *)

(** ** Options *)

Section OptionFacts.

Context {C : Type} `{WindowedCounter C} `{GoZero C}.
Context {error : Type} `{Faults error}.

Lemma last_omap_snoc {A B} (g : A -> option B) (l : list A) (x : A) :
  last (omap g (l ++ [x])) =
  match g x with Some y => Some y | None => last (omap g l) end.
Proof.
  rewrite omap_app. simpl. destruct (g x) as [y|].
  - apply last_snoc.
  - now rewrite app_nil_r.
Qed.

Lemma options_fold (os : list (optionSource error)) :
  foldl (fun opts option => option opts) defaultOptions (map optionOf os) =
  {| opt_k := default F64.two (lastRatio os);
     opt_minRate := default F64.one (lastMinimumRate os);
     opt_d := default Minute (lastWindow os);
     opt_isErrorAccepted := default DefaultAcceptedErrors (lastAcceptedErrors os) |}.
Proof.
  induction os as [|o os IH] using rev_ind.
  - reflexivity.
  - rewrite map_app, foldl_app, IH. simpl.
    unfold lastRatio, lastMinimumRate, lastWindow, lastAcceptedErrors.
    rewrite !last_omap_snoc. destruct o; reflexivity.
Qed.

(** X1: the constructor applies its options in the order they are given.
    Each setting is the argument of the last option of its kind, or the
    default when there is none; options of different kinds do not touch each
    other.  The floor is the minimum rate times the seconds of the window,
    and every counter has ten buckets of a tenth of the window. *)
Theorem constructor_applies_options_in_order priorities
    (os : list (optionSource error)) now0 :
  NewAdaptiveThrottle (C:=C) priorities (map optionOf os) now0 =
  if priorities <? 0 then Panics
  else
    let d := default Minute (lastWindow os) in
    let c := newWindowedCounter now0 (Z.quot d 10) 10 in
    Returns {| k := default F64.two (lastRatio os);
               minPerWindow := F64.mul (default F64.one (lastMinimumRate os)) (Seconds d);
               isErrorAccepted := default DefaultAcceptedErrors (lastAcceptedErrors os);
               requests := replicate (Z.to_nat priorities) c;
               accepts := replicate (Z.to_nat priorities) c |}.
Proof.
  rewrite NewAdaptiveThrottle_eq, options_fold. reflexivity.
Qed.

End OptionFacts.

(** ** What a call leaves alone *)

Section Frame.

Context {C : Type} `{WindowedCounter C} `{GoZero C}.
Context {error : Type} `{Faults error}.
Context {T : Type} `{GoZero T}.

Implicit Types (th : AdaptiveThrottle C error) (p : Z) (now : Time)
  (f : unit -> T * option error) (u : float64).

(** The three ways a call ends. *)
Lemma call_cases th p f now u now' :
  let r := WithAdaptiveThrottle th p f now u now' in
  (readCounters th p now = None /\
   r = {| returned := Panics; after := th; trace := [Lock] |}) \/
  (exists rc ac,
     index (requests th) p = Some rc /\ index (accepts th) p = Some ac /\
     r = {| returned := Returns (go_zero, Some DefaultClientSideRejectionError);
            after := {| k := k th; minPerWindow := minPerWindow th;
                        isErrorAccepted := isErrorAccepted th;
                        requests := <[ Z.to_nat p := add rc now 1 ]> (requests th);
                        accepts := accepts th |};
            trace := [Lock; Unlock; Lock; Unlock] |}) \/
  (exists rc ac (accepted : bool),
     index (requests th) p = Some rc /\ index (accepts th) p = Some ac /\
     r = {| returned := Returns (f tt);
            after := {| k := k th; minPerWindow := minPerWindow th;
                        isErrorAccepted := isErrorAccepted th;
                        requests := <[ Z.to_nat p := add rc now' 1 ]> (requests th);
                        accepts := if accepted
                                   then <[ Z.to_nat p := add ac now' 1 ]> (accepts th)
                                   else accepts th |};
            trace := [Lock; Unlock; Work; Lock; Unlock] |}).
Proof.
  intros r. subst r. unfold WithAdaptiveThrottle.
  destruct (readCounters th p now) as [[rq a]|] eqn:Hread; [|left; auto].
  right. destruct (readCounters_Some _ _ _ _ _ Hread) as (rc & ac & Hrc & Hac).
  destruct (F64.ltb u _).
  - left. exists rc, ac. unfold recordRequest. rewrite Hrc. auto.
  - right. destruct (f tt) as [t err]. unfold recordRequest, recordAccept.
    rewrite Hrc. simpl. rewrite Hac.
    destruct (match err with Some e => isErrorAccepted th e | None => true end) eqn:E.
    + exists rc, ac, true. auto.
    + exists rc, ac, false. auto.
Qed.



End Frame.

(** ** Priorities in range, priorities apart *)

Section Priorities.

Context {C : Type} `{WindowedCounter C} `{GoZero C}.
Context {error : Type} `{Faults error}.
Context {T : Type} `{GoZero T}.

Implicit Types (th : AdaptiveThrottle C error) (p : Z) (now : Time)
  (f : unit -> T * option error) (u : float64).

Lemma call_lengths th p f now u now' :
  length (requests (after (WithAdaptiveThrottle th p f now u now'))) = length (requests th) /\
  length (accepts (after (WithAdaptiveThrottle th p f now u now'))) = length (accepts th).
Proof.
  destruct (call_cases th p f now u now')
    as [[_ ->]|[(rc & ac & _ & _ & ->)|(rc & ac & b & _ & _ & ->)]]; simpl;
    rewrite ?length_insert; auto.
  destruct b; rewrite ?length_insert; auto.
Qed.

Lemma cascade_in_range th now (n : nat) : forall (i : Z) (acc : float64),
  0 <= i ->
  i + Z.of_nat n <= Z.of_nat (length (requests th)) ->
  i + Z.of_nat n <= Z.of_nat (length (accepts th)) ->
  exists rq, cascade th now i n acc = Some rq.
Proof. intros i acc Hi Hr Ha. rewrite cascade_zip by assumption. eauto. Qed.

Lemma in_range_returns th p f now u now' :
  0 <= p < Z.of_nat (length (requests th)) ->
  length (accepts th) = length (requests th) ->
  exists v, returned (WithAdaptiveThrottle th p f now u now') = Returns v.
Proof.
  intros Hp Hlen.
  destruct (call_cases th p f now u now')
    as [[Hnone ->]|[(rc & ac & _ & _ & ->)|(rc & ac & b & _ & _ & ->)]]; simpl;
    eauto.
  exfalso. unfold readCounters in Hnone.
  destruct (index_in_range (requests th) p Hp) as [rc Hrc].
  destruct (index_in_range (accepts th) p ltac:(lia)) as [ac Hac].
  rewrite Hrc, Hac in Hnone.
  destruct (cascade_in_range th now (Z.to_nat p) 0 (F64.of_int (get rc now)))
    as [rq Hrq]; try lia.
  rewrite Hrq in Hnone. discriminate.
Qed.


Lemma cascade_agree th th' now (n : nat) : forall (i : Z) (acc : float64),
  (forall j, i <= j < i + Z.of_nat n ->
     index (requests th') j = index (requests th) j /\
     index (accepts th') j = index (accepts th) j) ->
  cascade th' now i n acc = cascade th now i n acc.
Proof.
  induction n as [|n IH]; intros i acc Hag; simpl; [reflexivity|].
  destruct (Hag i ltac:(lia)) as [-> ->].
  destruct (index (requests th) i) as [rc|]; [|reflexivity].
  destruct (index (accepts th) i) as [ac|]; [|reflexivity].
  apply IH. intros j Hj. apply Hag. lia.
Qed.

(** X5: a call for priority [p] looks at the counters of the priorities
    [0] to [p] only.  Two throttles with the same ratio and floor whose
    counters agree up to [p] give the call the same requests and accepts,
    the same result and the same events, whatever the less important
    priorities have counted. *)
Theorem lower_priorities_do_not_matter th th' p f now u now' :
  k th' = k th -> minPerWindow th' = minPerWindow th ->
  (forall i, i <= p ->
     index (requests th') i = index (requests th) i /\
     index (accepts th') i = index (accepts th) i) ->
  readCounters th' p now = readCounters th p now /\
  returned (WithAdaptiveThrottle th' p f now u now')
  = returned (WithAdaptiveThrottle th p f now u now') /\
  trace (WithAdaptiveThrottle th' p f now u now')
  = trace (WithAdaptiveThrottle th p f now u now').
Proof.
  intros Ek Em Hag.
  assert (readCounters th' p now = readCounters th p now) as Hread.
  { unfold readCounters. destruct (Hag p ltac:(lia)) as [-> ->].
    destruct (index (requests th) p) as [rc|] eqn:Hrc; [|reflexivity].
    destruct (index (accepts th) p) as [ac|]; [|reflexivity].
    apply index_Some in Hrc as [Hp _].
    rewrite (cascade_agree th th'); [reflexivity|].
    intros j Hj. apply Hag. lia. }
  split; [assumption|].
  unfold WithAdaptiveThrottle. rewrite Hread, Ek, Em.
  destruct (readCounters th p now) as [[rq a]|] eqn:E; [|auto].
  destruct (readCounters_Some _ _ _ _ _ E) as (rc & ac & Hrc & Hac).
  destruct (Hag p ltac:(lia)) as [Hrc' Hac']. rewrite Hrc in Hrc'. rewrite Hac in Hac'.
  unfold recordRequest, recordAccept. rewrite Hrc, Hrc'.
  destruct (F64.ltb u _); [auto|].
  destruct (f tt) as [t err]. simpl. rewrite Hac, Hac'.
  destruct (match err with Some e => isErrorAccepted th' e | None => true end);
    destruct (match err with Some e => isErrorAccepted th e | None => true end);
    auto.
Qed.

End Priorities.

(** ** Floats that are the same number *)

(** Two finite floats of the format with the same value, not zero, are the
    same float. *)
Lemma SF2R_inj x y :
  F64.valid x = true -> F64.valid y = true ->
  F64.is_finite x = true -> F64.is_finite y = true ->
  SF2R x = SF2R y -> SF2R x <> 0%R -> x = y.
Proof.
  intros Vx Vy Fx Fy E N.
  destruct x as [sx|sx| |sx mx ex]; try discriminate; [now simpl in N|].
  destruct y as [sy|sy| |sy my ey]; try discriminate;
    [rewrite E in N; now simpl in N|].
  apply (valid_finite_canonical F64.prec F64.emax) in Vx as [Cx _], Vy as [Cy _].
  pose proof (canonical_compare F64.prec F64.emax mx ex my ey Cx Cy) as Hc.
  pose proof (F2R_pos_gt_0 mx ex). pose proof (F2R_pos_gt_0 my ey).
  simpl SF2R in E. rewrite !cond_Zopp_F2R in E.
  destruct sx, sy; try lra;
    (destruct (ex ?= ey); [destruct (Pos.compare_cont Eq mx my)| |]; try lra;
     destruct Hc as [-> ->]; reflexivity).
Qed.

Lemma in_format64_IZR n : Z.abs n <= 2 ^ 53 -> in_format64 (IZR n).
Proof. apply (in_format_IZR F64.prec F64.emax prec_pos prec_lt_emax). Qed.

(** The conversion of an integer is a zero for the integer zero only, and
    then it is [+0]. *)
Lemma of_int_zero n s : F64.of_int n = S754_zero s -> n = 0 /\ s = false.
Proof.
  intros E. destruct (Z.eq_dec n 0) as [->|Hn].
  - split; [reflexivity|]. now injection E.
  - exfalso. pose proof (of_int_rounds n) as (v & Hv & Hr). rewrite E in Hr.
    assert (in_format64 1) as H1 by (change 1%R with (IZR 1); apply in_format64_IZR; lia).
    assert (in_format64 (-1)) as H1'
      by (change (-1)%R with (IZR (-1)); apply in_format64_IZR; lia).
    pose proof (bpow_gt_0 F64.emax) as Hb.
    destruct Hr as [(_ & _ & _ & Ev)|[[_ Ei]|[_ Ei]]]; try discriminate.
    simpl in Ev. subst v.
    destruct (Z_lt_le_dec n 0) as [Hneg|Hpos].
    + pose proof (Rnd_above F64.prec F64.emax _ _ (-1) Hv H1') as Hc.
      assert (IZR n <= -1)%R by (apply IZR_le; lia). lra.
    + pose proof (Rnd_below F64.prec F64.emax _ _ 1 Hv H1) as Hc.
      assert (1 <= IZR n)%R by (apply IZR_le; lia). lra.
Qed.

Lemma add_zero_r z :
  z <> S754_zero true -> F64.add z F64.zero = z.
Proof. destruct z as [[]|[]| |s m e]; intros N; try reflexivity. now destruct N. Qed.

Lemma add_zero_l z :
  z <> S754_zero true -> F64.add F64.zero z = z.
Proof. destruct z as [[]|[]| |s m e]; intros N; try reflexivity. now destruct N. Qed.

Lemma of_int_not_neg_zero n : F64.of_int n <> S754_zero true.
Proof. intros E. apply of_int_zero in E as [_ E]. discriminate. Qed.

(** Sums of counts that binary64 holds are exact. *)
Lemma add_of_int x y :
  0 <= x -> 0 <= y -> x + y <= 2 ^ 53 ->
  F64.add (F64.of_int x) (F64.of_int y) = F64.of_int (x + y).
Proof.
  intros Hx Hy Hxy.
  destruct (Z.eq_dec y 0) as [->|Ny].
  { rewrite Z.add_0_r. apply add_zero_r, of_int_not_neg_zero. }
  destruct (Z.eq_dec x 0) as [->|Nx].
  { rewrite Z.add_0_l. apply add_zero_l, of_int_not_neg_zero. }
  destruct (of_int_exact x ltac:(lia)) as (Vx & Fx & Ex).
  destruct (of_int_exact y ltac:(lia)) as (Vy & Fy & Ey).
  destruct (of_int_exact (x + y) ltac:(lia)) as (Vs & Fs & Es).
  destruct (rounds_int _ _ (x + y) (add_rounds _ _ Vx Vy Fx Fy)) as (Va & Fa & Ea);
    [rewrite Ex, Ey, plus_IZR; reflexivity|lia|].
  apply SF2R_inj; try assumption; [congruence|].
  rewrite Ea. apply not_0_IZR. lia.
Qed.

(** Multiplying by one changes nothing. *)
Lemma mul_one_l z : F64.valid z = true -> F64.mul F64.one z = z.
Proof.
  intros Vz. destruct z as [s|s| |s m e] eqn:Ez; try (now destruct s).
  - reflexivity.
  - rewrite <- Ez in *.
    assert (F64.is_finite z = true) as Fz by (subst z; reflexivity).
    pose proof (mul_rounds F64.one z eq_refl Vz eq_refl Fz) as Hr.
    rewrite SF2R_one, Rmult_1_l in Hr.
    destruct (in_format64_SF2R z Vz Fz) as [Hf Hb].
    destruct (rounds_in_format F64.prec F64.emax _ _ Hr Hf Hb) as (Vm & Fm & Em).
    apply SF2R_inj; try assumption.
    rewrite Em, Ez. simpl. rewrite cond_Zopp_F2R. pose proof (F2R_pos_gt_0 m e).
    destruct s; lra.
Qed.

(** ** Whole seconds *)

Lemma Seconds_whole (s : Z) : Seconds (s * Second) = F64.of_int s.
Proof.
  unfold Seconds. rewrite Z.quot_mul, Z.rem_mul by discriminate.
  change (F64.div (F64.of_int 0) (F64.of_int 1000000000)) with F64.zero.
  apply add_zero_r, of_int_not_neg_zero.
Qed.

Section Windows.

Context {C : Type} `{WindowedCounter C} `{GoZero C}.
Context {error : Type} `{Faults error}.

(** X7: a window of [s] whole seconds is [s] seconds as a [float64],
    whatever [s] is.  A throttle built with that window has the floor
    [minRate * s], which with the default rate of one request a second is
    [s] itself, and counters of ten buckets of [s] tenths of a second. *)
Theorem whole_second_window priorities (s : Z) (x : float64) now0 :
  Seconds (s * Second) = F64.of_int s /\
  NewAdaptiveThrottle (C:=C) (error:=error) priorities
    [WithAdaptiveThrottleWindow (s * Second)] now0 =
  (if priorities <? 0 then Panics
   else
     let c := newWindowedCounter now0 (s * 100000000) 10 in
     Returns {| k := F64.of_int 2;
                minPerWindow := F64.of_int s;
                isErrorAccepted := DefaultAcceptedErrors;
                requests := replicate (Z.to_nat priorities) c;
                accepts := replicate (Z.to_nat priorities) c |}) /\
  NewAdaptiveThrottle (C:=C) (error:=error) priorities
    [WithAdaptiveThrottleMinimumRate x; WithAdaptiveThrottleWindow (s * Second)] now0 =
  (if priorities <? 0 then Panics
   else
     let c := newWindowedCounter now0 (s * 100000000) 10 in
     Returns {| k := F64.of_int 2;
                minPerWindow := F64.mul x (F64.of_int s);
                isErrorAccepted := DefaultAcceptedErrors;
                requests := replicate (Z.to_nat priorities) c;
                accepts := replicate (Z.to_nat priorities) c |}).
Proof.
  assert (Z.quot (s * Second) 10 = s * 100000000) as Eq.
  { change Second with (100000000 * 10). rewrite Z.mul_assoc.
    apply Z.quot_mul. discriminate. }
  split; [apply Seconds_whole|].
  rewrite !NewAdaptiveThrottle_eq. cbn [foldl].
  unfold WithAdaptiveThrottleWindow, WithAdaptiveThrottleMinimumRate, defaultOptions.
  cbn [opt_k opt_minRate opt_d opt_isErrorAccepted].
  rewrite Seconds_whole, Eq.
  rewrite mul_one_l by (eapply rounds_valid64; apply of_int_rounds).
  split; reflexivity.
Qed.

End Windows.

(** ** Where rejection starts *)

Section Threshold.

Variables K M R A : Z.
Hypothesis HK : 0 <= K <= 2 ^ 53.
Hypothesis HM : 0 < M.
Hypothesis HR : 0 <= R.
Hypothesis HA : 0 <= A <= 2 ^ 53.
Hypothesis HRM : R + M <= 2 ^ 53.
Hypothesis HKA : K * A <= 2 ^ 53.

Lemma integer_probability_zero :
  R <= K * A ->
  rejectionProbability (F64.of_int K) (F64.of_int M) (F64.of_int R) (F64.of_int A)
  = F64.zero.
Proof.
  intros Hle. unfold rejectionProbability.
  pose proof (integer_quotient_rounds K M R A HK HM HR HA HRM HKA) as Hq.
  set (q := F64.div _ _) in *.
  assert (F64.leb q F64.zero = true) as Hq0.
  { eapply (rounds_le_format F64.prec F64.emax prec_pos prec_lt_emax);
      [exact Hq|reflexivity|reflexivity|].
    simpl SF2R.
    assert (0 < IZR R + IZR M)%R as HD by (rewrite <- plus_IZR; apply IZR_lt; lia).
    assert (IZR R - IZR K * IZR A <= 0)%R as HN
      by (rewrite <- mult_IZR, <- minus_IZR; apply IZR_le; lia).
    unfold Rdiv. pose proof (Rinv_0_lt_compat _ HD). nra. }
  destruct (Max_zero_cases q) as [[Hn _]|[(_ & H1 & _)|(_ & _ & ->)]];
    [| |reflexivity].
  - destruct q; discriminate.
  - destruct (ltb_zero_cases q H1) as [->|(mq & eq & ->)]; discriminate.
Qed.

Lemma integer_probability_positive :
  K * A < R ->
  F64.ltb F64.zero
    (rejectionProbability (F64.of_int K) (F64.of_int M) (F64.of_int R) (F64.of_int A))
  = true.
Proof.
  intros Hlt. unfold rejectionProbability.
  pose proof (integer_quotient_rounds K M R A HK HM HR HA HRM HKA) as Hq.
  set (q := F64.div _ _) in *.
  assert (F64.leb F64.tiny q = true) as Htiny.
  { eapply (rounds_ge_format F64.prec F64.emax prec_pos prec_lt_emax);
      [exact Hq|reflexivity|reflexivity|].
    change (SF2R F64.tiny) with (F2R 1 (-1074)). rewrite F2R_bpow.
    assert (bpow (-1074) <= bpow (-53))%R by (apply bpow_le; lia).
    assert (bpow (-53) * bpow 53 = 1)%R as E by (rewrite <- bpow_add; reflexivity).
    pose proof (bpow_gt_0 (-53)).
    assert (1 <= IZR R + IZR M <= bpow 53)%R as HD.
    { rewrite <- plus_IZR, bpow_IZR by lia. split; apply IZR_le; lia. }
    assert (1 <= IZR R - IZR K * IZR A)%R as HN.
    { rewrite <- mult_IZR, <- minus_IZR. apply IZR_le. lia. }
    apply Rle_trans with (bpow (-53)); [assumption|].
    set (D := (IZR R + IZR M)%R) in *. set (N := (IZR R - IZR K * IZR A)%R) in *.
    apply (Rmult_le_reg_r D); [lra|].
    unfold Rdiv. rewrite Rmult_assoc, Rinv_l by lra. nra. }
  apply leb_tiny_positive in Htiny.
  destruct (Max_zero_cases q) as [[Hn _]|[(_ & _ & ->)|(_ & H0 & _)]];
    [|assumption|congruence].
  destruct q; discriminate.
Qed.

End Threshold.

(** X6: on integer inputs that binary64 holds exactly, rejection starts
    where the requests go beyond [k] times the accepts: up to there the
    rejection probability is [+0], and it is above zero exactly beyond. *)
Theorem rejection_starts_beyond_ratio K M R A :
  exact_integers K M R A ->
  let rp := rejectionProbability (F64.of_int K) (F64.of_int M)
                                 (F64.of_int R) (F64.of_int A) in
  (R <= K * A -> rp = F64.zero) /\
  (F64.ltb F64.zero rp = true <-> K * A < R).
Proof.
  intros (HK & HM & HR & HA & HRM & HKA) rp. subst rp.
  assert (R <= K * A ->
          rejectionProbability (F64.of_int K) (F64.of_int M)
                               (F64.of_int R) (F64.of_int A) = F64.zero) as Hz
    by now apply integer_probability_zero.
  split; [exact Hz|]. split.
  - intros Hlt. destruct (Z_lt_le_dec (K * A) R) as [|Hle]; [assumption|].
    rewrite (Hz Hle) in Hlt. discriminate.
  - now apply integer_probability_positive.
Qed.

(** X12: on integer inputs that binary64 holds exactly, the rejection
    probability that is computed is the formula over the real numbers,
    [max(0, (R - K*A) / (R + M))], rounded once to a nearest [float64]. *)
Theorem integer_probability_is_rounded K M R A :
  exact_integers K M R A ->
  rounds F64.prec F64.emax
    (Rmax 0 ((IZR R - IZR K * IZR A) / (IZR R + IZR M)))
    (rejectionProbability (F64.of_int K) (F64.of_int M) (F64.of_int R) (F64.of_int A)).
Proof.
  intros (HK & HM & HR & HA & HRM & HKA).
  assert (0 < IZR R + IZR M)%R as HD by (rewrite <- plus_IZR; apply IZR_lt; lia).
  pose proof (Rinv_0_lt_compat _ HD) as HI.
  destruct (Z_lt_le_dec (K * A) R) as [Hlt|Hle].
  - pose proof (integer_probability_positive K M R A HK HM HR HA HRM HKA Hlt) as Hpos.
    pose proof (integer_quotient_rounds K M R A HK HM HR HA HRM HKA) as Hq.
    unfold rejectionProbability in *. set (q := F64.div _ _) in *.
    assert (0 < IZR R - IZR K * IZR A)%R as HN
      by (rewrite <- mult_IZR, <- minus_IZR; apply IZR_lt; lia).
    rewrite Rmax_right by (unfold Rdiv; nra).
    destruct (Max_zero_cases q) as [[_ E]|[(_ & _ & E)|(_ & _ & E)]];
      rewrite E in *; [discriminate|exact Hq|discriminate].
  - rewrite (integer_probability_zero K M R A HK HM HR HA HRM HKA Hle).
    assert (IZR R - IZR K * IZR A <= 0)%R as HN
      by (rewrite <- mult_IZR, <- minus_IZR; apply IZR_le; lia).
    rewrite Rmax_left by (unfold Rdiv; nra).
    apply (rounds_zero F64.prec F64.emax prec_pos prec_lt_emax).
Qed.

(** ** Counts that add up without rounding *)

Section Accumulation.

Context {C : Type} `{WindowedCounter C} `{GoZero C}.
Context {error : Type} `{Faults error}.
Context {T : Type} `{GoZero T}.

Implicit Types (th : AdaptiveThrottle C error) (p : Z) (now : Time)
  (f : unit -> T * option error) (u : float64).

Lemma failures_shift now (l : list (C * C)) : forall s : Z,
  foldl (fun acc '(rc, ac) => acc + (get rc now - get ac now)) s l =
  s + foldl (fun acc '(rc, ac) => acc + (get rc now - get ac now)) 0 l.
Proof.
  induction l as [|[rc ac] l IH]; intros s; simpl; [lia|].
  rewrite IH, (IH (0 + _)). lia.
Qed.

Lemma failures_nonneg now (l : list (C * C)) :
  Forall (fun '(rc, ac) => get ac now <= get rc now) l ->
  0 <= foldl (fun acc '(rc, ac) => acc + (get rc now - get ac now)) 0 l.
Proof.
  induction 1 as [|[rc ac] l Hx _ IH]; simpl; [lia|].
  rewrite failures_shift. lia.
Qed.

Lemma float_sum_exact now (l : list (C * C)) : forall s : Z,
  0 <= s ->
  Forall (fun '(rc, ac) => get ac now <= get rc now) l ->
  s + foldl (fun acc '(rc, ac) => acc + (get rc now - get ac now)) 0 l <= 2 ^ 53 ->
  foldl (fun acc '(rc, ac) => F64.add acc (F64.of_int (get rc now - get ac now)))
        (F64.of_int s) l =
  F64.of_int (s + foldl (fun acc '(rc, ac) => acc + (get rc now - get ac now)) 0 l).
Proof.
  induction l as [|[rc ac] l IH]; intros s Hs Hall Hb; simpl.
  - now rewrite Z.add_0_r.
  - apply Forall_cons in Hall as [Hx Hall]. simpl in Hx.
    pose proof (failures_nonneg now l Hall) as Hn.
    simpl in Hb. rewrite failures_shift in Hb. rewrite failures_shift.
    rewrite add_of_int by lia. rewrite IH by (assumption || lia).
    f_equal. lia.
Qed.

Lemma counters_before th p now :
  (forall i rc ac, 0 <= i < p ->
     index (requests th) i = Some rc -> index (accepts th) i = Some ac ->
     get ac now <= get rc now) ->
  Forall (fun '(rc, ac) => get ac now <= get rc now)
         (zip (take (Z.to_nat p) (requests th)) (take (Z.to_nat p) (accepts th))).
Proof.
  intros Hall. apply Forall_lookup. intros j [rc ac] Hj.
  apply lookup_zip_with_Some in Hj as (rc' & ac' & [= <- <-] & Hr & Ha).
  apply lookup_take_Some in Hr as [Hr Hlt]. apply lookup_take_Some in Ha as [Ha _].
  apply (Hall (Z.of_nat j)); [lia| |]; apply index_Some;
    rewrite Nat2Z.id; (split; [lia|assumption]).
Qed.

Lemma readCounters_exact th p now rc ac :
  index (requests th) p = Some rc -> index (accepts th) p = Some ac ->
  0 <= get rc now ->
  (forall i rc' ac', 0 <= i < p ->
     index (requests th) i = Some rc' -> index (accepts th) i = Some ac' ->
     get ac' now <= get rc' now) ->
  get rc now + failuresBefore th p now <= 2 ^ 53 ->
  readCounters th p now =
  Some (F64.of_int (get rc now + failuresBefore th p now), F64.of_int (get ac now)).
Proof.
  intros Hrc Hac Hget Hall Hb.
  rewrite (readCounters_in_range th p now rc ac Hrc Hac).
  unfold requestsWithHigherPriorities, failuresBefore in *.
  rewrite float_sum_exact; [reflexivity|assumption| |assumption].
  now apply counters_before.
Qed.

(** X8: the loop over the more important priorities adds [float64]
    values, yet as long as no priority has more accepts than requests and
    the total stays within [2^53] nothing is rounded: the requests the
    formula uses are the integer count of the priority plus the integer
    number of non-accepted requests before it. *)
Theorem counts_accumulate_exactly th p now rc ac :
  index (requests th) p = Some rc -> index (accepts th) p = Some ac ->
  0 <= get rc now ->
  (forall i rc' ac', 0 <= i < p ->
     index (requests th) i = Some rc' -> index (accepts th) i = Some ac' ->
     get ac' now <= get rc' now) ->
  get rc now + failuresBefore th p now <= 2 ^ 53 ->
  0 <= failuresBefore th p now /\
  readCounters th p now =
  Some (F64.of_int (get rc now + failuresBefore th p now), F64.of_int (get ac now)).
Proof.
  intros Hrc Hac Hget Hall Hb. split.
  - apply failures_nonneg. now apply counters_before.
  - now apply readCounters_exact.
Qed.

(** X9: with an integer ratio [K] and an integer floor [M], and counts as
    in X8, a call is decided by the integers: while the requests of its
    priority plus the failures before it are at most [K] times its accepts,
    no draw of [[0, 1)] rejects it and the work runs; once they are more,
    the draw [0] rejects it. *)
Theorem call_rejection_threshold th p f now now' rc ac (K M : Z) :
  index (requests th) p = Some rc -> index (accepts th) p = Some ac ->
  0 <= get rc now ->
  (forall i rc' ac', 0 <= i < p ->
     index (requests th) i = Some rc' -> index (accepts th) i = Some ac' ->
     get ac' now <= get rc' now) ->
  k th = F64.of_int K -> minPerWindow th = F64.of_int M ->
  exact_integers K M (get rc now + failuresBefore th p now) (get ac now) ->
  (get rc now + failuresBefore th p now <= K * get ac now ->
   forall u, F64.leb F64.zero u = true ->
     returned (WithAdaptiveThrottle th p f now u now') = Returns (f tt) /\
     trace (WithAdaptiveThrottle th p f now u now') = [Lock; Unlock; Work; Lock; Unlock]) /\
  (K * get ac now < get rc now + failuresBefore th p now ->
   returned (WithAdaptiveThrottle th p f now F64.zero now')
   = Returns (go_zero, Some DefaultClientSideRejectionError) /\
   trace (WithAdaptiveThrottle th p f now F64.zero now') = [Lock; Unlock; Lock; Unlock]).
Proof.
  intros Hrc Hac Hget Hall Ek Em (HK & HM & HR & HA & HRM & HKA).
  assert (readCounters th p now =
          Some (F64.of_int (get rc now + failuresBefore th p now),
                F64.of_int (get ac now))) as Hread
    by (apply readCounters_exact; (assumption || lia)).
  split.
  - intros Hle u Hu.
    apply (unrejected_call_runs_work th p f now u now' _ _ Hread).
    rewrite Ek, Em, (integer_probability_zero K M _ _ HK HM HR HA HRM HKA Hle).
    destruct u as [[]|[]| |[] mu eu]; try discriminate; reflexivity.
  - intros Hlt.
    pose proof (integer_probability_positive K M _ _ HK HM HR HA HRM HKA Hlt) as Hpos.
    unfold WithAdaptiveThrottle. rewrite Hread, Ek, Em, Hpos.
    unfold recordRequest. rewrite Hrc. split; reflexivity.
Qed.

End Accumulation.

(** ** The ratio *)

(** Multiplication of a count by a larger ratio does not give less. *)
Lemma mul_mono_l k1 k2 a :
  F64.valid k1 = true -> F64.valid k2 = true ->
  F64.is_finite k1 = true -> F64.is_finite k2 = true ->
  F64.leb F64.zero k1 = true -> F64.leb k1 k2 = true ->
  F64.valid a = true -> F64.is_finite a = true -> F64.leb F64.zero a = true ->
  F64.leb (F64.mul k1 a) (F64.mul k2 a) = true.
Proof.
  intros V1 V2 F1 F2 H1 H12 Va Fa Ha.
  destruct (leb_zero_cases a Ha) as [[sa ->]|[->|(ma & ea & ->)]]; [|discriminate|].
  - destruct k1 as [?|?| |[] ? ?], k2 as [?|?| |[] ? ?]; try discriminate; reflexivity.
  - destruct (leb_finite_cases k1 k2 V1 V2 F1 F2 H12) as [Hlt|[->|(s & s' & -> & ->)]].
    + eapply (rounds_le F64.prec F64.emax).
      * apply (mul_rounds k1); [assumption|assumption|assumption|reflexivity].
      * apply (mul_rounds k2); [assumption|assumption|assumption|reflexivity].
      * pose proof (F2R_pos_gt_0 ma ea). simpl (SF2R (S754_finite false ma ea)). nra.
    + apply leb_refl. eapply rounds_not_nan.
      apply (mul_rounds k2); [assumption|assumption|assumption|reflexivity].
    + reflexivity.
Qed.

(** X10: a larger ratio never raises the rejection probability: for the
    same counts and the same floor above zero, going from a ratio [k1 >= 0]
    to a ratio [k2 >= k1] gives a probability that is not larger (when
    neither is NaN, which takes an overflow). *)
Theorem larger_ratio_admits_more k1 k2 m r a :
  F64.valid k1 = true -> F64.valid k2 = true ->
  F64.is_finite k1 = true -> F64.is_finite k2 = true ->
  F64.leb F64.zero k1 = true -> F64.leb k1 k2 = true ->
  F64.valid m = true -> F64.ltb F64.zero m = true ->
  F64.count r -> F64.count a ->
  F64.IsNaN (rejectionProbability k1 m r a) = true \/
  F64.IsNaN (rejectionProbability k2 m r a) = true \/
  F64.leb (rejectionProbability k2 m r a) (rejectionProbability k1 m r a) = true.
Proof.
  intros V1 V2 F1 F2 H1 H12 Vm Hm (Vr & Fr & Sr) Ca.
  pose proof (count_nonneg a Ca) as Ha. destruct Ca as (Va & Fa & _).
  assert (F64.leb F64.zero m = true) as Hm0.
  { destruct (ltb_zero_cases m Hm) as [->|(mm & em & ->)]; reflexivity. }
  assert (F64.leb F64.zero k2 = true) as H2.
  { destruct (leb_zero_cases k1 H1) as [[s ->]|[->|(m1 & e1 & ->)]]; try discriminate;
      destruct k2 as [?|[]| |[] ? ?]; try discriminate; reflexivity. }
  destruct (mul_nonneg k1 a V1 H1 Va Fa Ha) as [N|[Vc1 Hc1]];
    [left; now apply rejectionProbability_nan_mul|].
  destruct (mul_nonneg k2 a V2 H2 Va Fa Ha) as [N|[Vc2 Hc2]];
    [right; left; now apply rejectionProbability_nan_mul|].
  pose proof (mul_mono_l k1 k2 a V1 V2 F1 F2 H1 H12 Va Fa Ha) as Hc.
  pose proof (sub_anti r _ _ Vr Fr Vc1 Vc2 Hc) as Hn.
  destruct (sub_le_l r _ Vr Fr Vc1 Hc1) as (Vn1 & _ & _).
  destruct (sub_le_l r _ Vr Fr Vc2 Hc2) as (Vn2 & _ & _).
  destruct (add_ge_l r m Vr Fr Sr Vm Hm0) as (Vd & _ & _ & _ & Hmd).
  pose proof (ltb_leb_zero m _ Hm Hmd) as Hd.
  unfold rejectionProbability.
  destruct (div_mono _ _ _ Vn2 Vn1 Vd Hd Hn) as [N|[N|Hq]].
  - right; left. now apply Max_zero_nan.
  - left. now apply Max_zero_nan.
  - right; right. now apply Max_zero_mono.
Qed.

(** ** The floor *)

(** Adding a larger floor does not give less. *)
Lemma add_mono_r r m1 m2 :
  F64.valid r = true -> F64.is_finite r = true ->
  F64.valid m1 = true -> F64.valid m2 = true ->
  F64.ltb F64.zero m1 = true -> F64.leb m1 m2 = true ->
  F64.leb (F64.add r m1) (F64.add r m2) = true.
Proof.
  intros Vr Fr V1 V2 H1 H12.
  pose proof (ltb_leb_zero _ _ H1 H12) as H2.
  destruct (ltb_zero_cases m1 H1) as [->|(a1 & e1 & ->)];
    destruct (ltb_zero_cases m2 H2) as [->|(a2 & e2 & ->)]; try discriminate.
  - destruct r; try discriminate; reflexivity.
  - assert (F64.add r (S754_infinity false) = S754_infinity false) as ->
      by (destruct r; try discriminate; reflexivity).
    apply leb_pos_inf. eapply rounds_not_nan.
    apply (add_rounds r); [assumption|assumption|assumption|reflexivity].
  - destruct (leb_finite_cases _ _ V1 V2 eq_refl eq_refl H12)
      as [Hlt|[->|(s & s' & ? & ?)]]; [| |discriminate].
    + eapply (rounds_le F64.prec F64.emax).
      * apply (add_rounds r); [assumption|assumption|assumption|reflexivity].
      * apply (add_rounds r); [assumption|assumption|assumption|reflexivity].
      * lra.
    + apply leb_refl. eapply rounds_not_nan.
      apply (add_rounds r); [assumption|assumption|assumption|reflexivity].
Qed.

(** A numerator that is not below zero, over a larger denominator, does
    not give more. *)
Lemma div_anti n d1 d2 :
  F64.valid n = true -> F64.is_finite n = true -> F64.leb F64.zero n = true ->
  F64.valid d1 = true -> F64.valid d2 = true ->
  F64.ltb F64.zero d1 = true -> F64.leb d1 d2 = true ->
  F64.leb (F64.div n d2) (F64.div n d1) = true.
Proof.
  intros Vn Fn Hn V1 V2 H1 H12.
  pose proof (ltb_leb_zero _ _ H1 H12) as H2.
  destruct (ltb_zero_cases d1 H1) as [->|(a1 & e1 & ->)];
    destruct (ltb_zero_cases d2 H2) as [->|(a2 & e2 & ->)]; try discriminate.
  - destruct n as [[]|?| |[] ? ?]; try discriminate; reflexivity.
  - destruct (leb_zero_cases n Hn) as [[s ->]|[->|(mn & en & ->)]];
      [now destruct s|discriminate|].
    change (F64.div (S754_finite false mn en) (S754_infinity false)) with F64.zero.
    eapply (rounds_ge_format F64.prec F64.emax prec_pos prec_lt_emax);
      [apply div_rounds; [assumption|assumption|reflexivity]
      |reflexivity|reflexivity|].
    pose proof (F2R_pos_gt_0 mn en) as Pn. pose proof (F2R_pos_gt_0 a1 e1) as P1.
    simpl SF2R. unfold Rdiv. pose proof (Rinv_0_lt_compat _ P1). nra.
  - destruct (leb_zero_cases n Hn) as [[s ->]|[->|(mn & en & ->)]];
      [now destruct s|discriminate|].
    destruct (leb_finite_cases _ _ V1 V2 eq_refl eq_refl H12)
      as [Hlt|[->|(s & s' & ? & ?)]]; [| |discriminate].
    + eapply (rounds_le F64.prec F64.emax).
      * apply div_rounds; [assumption|assumption|reflexivity].
      * apply div_rounds; [assumption|assumption|reflexivity].
      * pose proof (F2R_pos_gt_0 mn en) as Pn. pose proof (F2R_pos_gt_0 a1 e1) as P1.
        pose proof (F2R_pos_gt_0 a2 e2) as P2. simpl SF2R in *.
        unfold Rdiv. apply Rmult_lt_compat_l; [assumption|].
        apply Rinv_lt_contravar; [nra|assumption].
    + apply leb_refl. apply div_not_nan; [assumption|reflexivity|assumption].
Qed.

(** A numerator below zero gives the probability zero, whatever the
    denominator above zero. *)
Lemma div_negative_clamped n d :
  F64.valid n = true -> F64.IsNaN n = false -> F64.leb F64.zero n = false ->
  F64.valid d = true -> F64.ltb F64.zero d = true ->
  F64.IsNaN (F64.Max F64.zero (F64.div n d)) = true \/
  F64.Max F64.zero (F64.div n d) = F64.zero.
Proof.
  intros Vn Nn Hn Vd Hd.
  destruct (ltb_zero_cases d Hd) as [->|(md & ed & ->)].
  - destruct n as [[]|[]| |[] ? ?]; try discriminate; cbn; auto.
  - destruct n as [[]|[]| |[] mn en]; try discriminate; [right; reflexivity|].
    right.
    pose proof (div_rounds (S754_finite true mn en) false md ed Vn Vd eq_refl) as Hq.
    set (q := F64.div _ _) in *.
    assert (F64.leb q F64.zero = true) as Hq0.
    { eapply (rounds_le_format F64.prec F64.emax prec_pos prec_lt_emax);
        [exact Hq|reflexivity|reflexivity|].
      pose proof (F2R_pos_gt_0 mn en) as Pn. pose proof (F2R_pos_gt_0 md ed) as Pd.
      simpl SF2R. rewrite F2R_opp. unfold Rdiv.
      pose proof (Rinv_0_lt_compat _ Pd). simpl in *. nra. }
    destruct (Max_zero_cases q) as [[N _]|[(_ & H1 & _)|(_ & _ & ->)]];
      [| |reflexivity].
    + destruct q; discriminate.
    + destruct (ltb_zero_cases q H1) as [->|(mq & eq & ->)]; discriminate.
Qed.

(** X11: a larger floor never raises the rejection probability: for the
    same counts and the same ratio, going from a floor [m1 > 0] to a floor
    [m2 >= m1] gives a probability that is not larger (when neither is
    NaN). *)
Theorem larger_floor_admits_more k m1 m2 r a :
  F64.nonneg k ->
  F64.valid m1 = true -> F64.valid m2 = true ->
  F64.ltb F64.zero m1 = true -> F64.leb m1 m2 = true ->
  F64.count r -> F64.count a ->
  F64.IsNaN (rejectionProbability k m1 r a) = true \/
  F64.IsNaN (rejectionProbability k m2 r a) = true \/
  F64.leb (rejectionProbability k m2 r a) (rejectionProbability k m1 r a) = true.
Proof.
  intros (Vk & Hk) V1 V2 H1 H12 (Vr & Fr & Sr) Ca.
  pose proof (count_nonneg a Ca) as Ha. destruct Ca as (Va & Fa & _).
  pose proof (ltb_leb_zero _ _ H1 H12) as H2.
  assert (F64.leb F64.zero m1 = true) as H10
    by (destruct (ltb_zero_cases m1 H1) as [->|(? & ? & ->)]; reflexivity).
  assert (F64.leb F64.zero m2 = true) as H20
    by (destruct (ltb_zero_cases m2 H2) as [->|(? & ? & ->)]; reflexivity).
  destruct (mul_nonneg k a Vk Hk Va Fa Ha) as [N|[Vc Hc]];
    [left; now apply rejectionProbability_nan_mul|].
  destruct (sub_le_l r _ Vr Fr Vc Hc) as (Vn & Nn & Hnr).
  destruct (add_ge_l r m1 Vr Fr Sr V1 H10) as (Vd1 & _ & _ & _ & Hmd1).
  destruct (add_ge_l r m2 Vr Fr Sr V2 H20) as (Vd2 & _ & _ & _ & Hmd2).
  pose proof (ltb_leb_zero m1 _ H1 Hmd1) as Hd1.
  pose proof (ltb_leb_zero m2 _ H2 Hmd2) as Hd2.
  pose proof (add_mono_r r m1 m2 Vr Fr V1 V2 H1 H12) as Hd.
  unfold rejectionProbability.
  set (n := F64.sub r (F64.mul k a)) in *.
  destruct (F64.leb F64.zero n) eqn:Hn.
  - assert (F64.is_finite n = true) as Fn.
    { destruct n as [?|[]| |? ? ?]; try discriminate; try reflexivity.
      destruct r as [?|?| |[] ? ?]; discriminate. }
    right; right. apply Max_zero_mono. now apply div_anti.
  - destruct (div_negative_clamped n _ Vn Nn Hn Vd1 Hd1) as [N|E1]; [left; exact N|].
    destruct (div_negative_clamped n _ Vn Nn Hn Vd2 Hd2) as [N|E2]; [right; left; exact N|].
    right; right. rewrite E1, E2. reflexivity.
Qed.

(** ** The properties at concrete inputs *)

Section MoreWitnesses.

Import ExampleFaults ExampleHistory.


(** X5 for priority 0 of the overloaded throttle: the traffic of priority
    1 changes nothing for it. *)
Lemma lower_priorities_do_not_matter_witness :
  readCounters overloaded2_busy 0 0 = readCounters overloaded2 0 0 /\
  returned (WithAdaptiveThrottle overloaded2_busy 0 work_ok 0 F64.zero 5)
  = returned (WithAdaptiveThrottle overloaded2 0 work_ok 0 F64.zero 5) /\
  trace (WithAdaptiveThrottle overloaded2_busy 0 work_ok 0 F64.zero 5)
  = trace (WithAdaptiveThrottle overloaded2 0 work_ok 0 F64.zero 5).
Proof.
  apply (lower_priorities_do_not_matter overloaded2 overloaded2_busy 0 work_ok
           0 F64.zero 5); try reflexivity.
  intros i Hi. destruct i as [|i|i]; [split; reflexivity|lia|split; reflexivity].
Defined.

(** X6 at the default ratio and floor with fifty accepts: a hundred
    requests are not rejected, a hundred and one are. *)
Lemma rejection_starts_beyond_ratio_witness :
  rejectionProbability (F64.of_int 2) (F64.of_int 60) (F64.of_int 100) (F64.of_int 50)
  = F64.zero /\
  F64.ltb F64.zero
    (rejectionProbability (F64.of_int 2) (F64.of_int 60) (F64.of_int 101) (F64.of_int 50))
  = true.
Proof.
  split.
  - apply (rejection_starts_beyond_ratio 2 60 100 50); [unfold exact_integers|]; lia.
  - apply (rejection_starts_beyond_ratio 2 60 101 50); [unfold exact_integers|]; lia.
Defined.

(** X8 for priority 1 of the overloaded throttle: the hundred failures of
    priority 0 are its requests. *)
Lemma counts_accumulate_exactly_witness :
  failuresBefore overloaded2 1 0 = 100 /\
  readCounters overloaded2 1 0 = Some (F64.of_int 100, F64.of_int 0).
Proof.
  pose (c := newWindowedCounter (C:=SpecCounter.counter) 0 (Z.quot Minute 10) 10).
  destruct (counts_accumulate_exactly overloaded2 1 0 c c) as [_ Hread].
  - reflexivity.
  - reflexivity.
  - vm_compute. intros Hgt. discriminate Hgt.
  - intros i rc' ac' Hi. assert (i = 0) as -> by lia.
    intros [= <-] [= <-]. vm_compute. intros Hgt. discriminate Hgt.
  - vm_compute. intros Hgt. discriminate Hgt.
  - split; [reflexivity|exact Hread].
Defined.

(** X9 for priority 1: after a hundred accepted requests of priority 0 no
    draw rejects, after a hundred failed ones the draw [0] does. *)
Lemma call_rejection_threshold_witness :
  (forall u, F64.leb F64.zero u = true ->
     returned (WithAdaptiveThrottle healthy2 1 work_ok 0 u 5) = Returns (7, None)) /\
  returned (WithAdaptiveThrottle overloaded2 1 work_ok 0 F64.zero 5)
  = Returns (0, Some (UnavailableAfter Second)).
Proof.
  pose (c := newWindowedCounter (C:=SpecCounter.counter) 0 (Z.quot Minute 10) 10).
  split.
  - intros u Hu.
    refine (proj1 (proj1 (call_rejection_threshold healthy2 1 work_ok 0 5 c c 2 60
                            eq_refl eq_refl _ _ eq_refl eq_refl _) _ u Hu)).
    + vm_compute. intros Hgt. discriminate Hgt.
    + intros i rc' ac' Hi. assert (i = 0) as -> by lia.
      intros [= <-] [= <-]. vm_compute. intros Hgt. discriminate Hgt.
    + vm_compute. repeat split; intros Hgt; discriminate Hgt.
    + vm_compute. intros Hgt. discriminate Hgt.
  - refine (proj1 (proj2 (call_rejection_threshold overloaded2 1 work_ok 0 5 c c 2 60
                            eq_refl eq_refl _ _ eq_refl eq_refl _) _)).
    + vm_compute. intros Hgt. discriminate Hgt.
    + intros i rc' ac' Hi. assert (i = 0) as -> by lia.
      intros [= <-] [= <-]. vm_compute. intros Hgt. discriminate Hgt.
    + vm_compute. repeat split; intros Hgt; discriminate Hgt.
    + vm_compute. reflexivity.
Defined.

(** X10 with a hundred requests and ten accepts: the ratio three against
    the ratio two. *)
Lemma larger_ratio_admits_more_witness :
  let p (K : Z) := rejectionProbability (F64.of_int K) (F64.of_int 60)
                                        (F64.of_int 100) (F64.of_int 10) in
  F64.IsNaN (p 2) = true \/ F64.IsNaN (p 3) = true \/ F64.leb (p 3) (p 2) = true.
Proof.
  apply (larger_ratio_admits_more (F64.of_int 2) (F64.of_int 3) (F64.of_int 60)
           (F64.of_int 100) (F64.of_int 10)); repeat split.
Defined.

(** X11 with a hundred requests and ten accepts: the floor of two minutes
    against the floor of one. *)
Lemma larger_floor_admits_more_witness :
  let p (M : Z) := rejectionProbability (F64.of_int 2) (F64.of_int M)
                                        (F64.of_int 100) (F64.of_int 10) in
  F64.IsNaN (p 60) = true \/ F64.IsNaN (p 120) = true \/ F64.leb (p 120) (p 60) = true.
Proof.
  apply (larger_floor_admits_more (F64.of_int 2) (F64.of_int 60) (F64.of_int 120)
           (F64.of_int 100) (F64.of_int 10)); repeat split.
Defined.

(** X12 at the default ratio and floor, a hundred requests and ten
    accepts: the float computed for [80/160]. *)
Lemma integer_probability_is_rounded_witness :
  rounds F64.prec F64.emax (Rmax 0 ((IZR 100 - IZR 2 * IZR 10) / (IZR 100 + IZR 60)))
    (rejectionProbability (F64.of_int 2) (F64.of_int 60) (F64.of_int 100) (F64.of_int 10)).
Proof.
  apply (integer_probability_is_rounded 2 60 100 10). unfold exact_integers. lia.
Defined.

End MoreWitnesses.
